(** * SyncName: name synchronisation between two directory trees

    A shallow embedding of [src/syncName.ts] and of the functions of Node's
    [path] module (POSIX flavour) that it calls, followed by the properties of
    the matching, resolution and collision-disambiguation algorithm.

    Conventions of the embedding.
    - A JavaScript string is a list of character codes ([list ascii]);
      [js "..."] writes a literal.  Codes outside the 8-bit range behave in
      this program like any other character that is neither a letter, a
      digit, a dot nor a slash.
    - The file system is read through the results of [fs.readdirSync] and
      [fs.existsSync], which are inputs of the functions that call them, and
      written through calls that are logged in program order ([Call]).  The
      log is that of a run in which every call returns; [execute] runs a log
      on the files that exist and stops at the call that throws, which ends
      the run of the program.
    - A JavaScript [Map] keyed by objects compares keys by reference.  Every
      key inserted by this program is a freshly built object, so such a map is
      an association list in insertion order. *)

From Stdlib Require Import String Ascii List ZArith Bool Lia Permutation Sorted.
Import ListNotations.

Local Open Scope Z_scope.

(* ================================================================== *)
(** * JavaScript strings *)

Definition jsstring := list ascii.

Definition js (s : string) : jsstring := list_ascii_of_string s.

(** [a === b] on strings. *)
Fixpoint str_eqb (a b : jsstring) : bool :=
  match a, b with
  | [], [] => true
  | x :: a', y :: b' => Ascii.eqb x y && str_eqb a' b'
  | _, _ => false
  end.

(** [s.length] *)
Definition len (s : jsstring) : Z := Z.of_nat (length s).

(** [s.slice(from, to)] for [0 <= from], the only way it is called here. *)
Definition slice (s : jsstring) (from to : Z) : jsstring :=
  firstn (Z.to_nat (to - from)) (skipn (Z.to_nat from) s).

(** [s.charCodeAt(i)]; [None] stands for [NaN], which equals no code. *)
Definition charCodeAt (s : jsstring) (i : Z) : option ascii :=
  if i <? 0 then None else nth_error s (Z.to_nat i).

Definition code_is (c : ascii) (o : option ascii) : bool :=
  match o with
  | Some x => Ascii.eqb x c
  | None => false
  end.

(** [s.startsWith(p)] *)
Fixpoint startsWith (s p : jsstring) {struct p} : bool :=
  match p, s with
  | [], _ => true
  | x :: p', y :: s' => Ascii.eqb x y && startsWith s' p'
  | _ :: _, [] => false
  end.

(** [s.lastIndexOf(c)] for a one-character needle, [-1] when absent. *)
Fixpoint lastIndexOf_from (s : jsstring) (c : ascii) (i : Z) (found : Z) : Z :=
  match s with
  | [] => found
  | x :: s' => lastIndexOf_from s' c (i + 1) (if Ascii.eqb x c then i else found)
  end.

Definition lastIndexOf (s : jsstring) (c : ascii) : Z := lastIndexOf_from s c 0 (-1).

Definition CHAR_FORWARD_SLASH : ascii := "/"%char.
Definition CHAR_DOT : ascii := "."%char.

Definition isPosixPathSeparator (c : ascii) : bool := Ascii.eqb c CHAR_FORWARD_SLASH.

(** Outcome of one iteration of a loop that may [break]. *)
Inductive LoopCtl (A : Type) : Type :=
| Continue (a : A)
| Break (a : A).
Arguments Continue {A} a.
Arguments Break {A} a.

(* ================================================================== *)
(** * Node's [path.posix]

    The program imports [path] from Node and calls [path.parse],
    [path.format], [path.join] and [path.relative].  These are embedded from
    Node's [lib/path.js], loop by loop. *)

Module NodePath.

(** ** [path.parse] *)

Record ParsedPath : Type := mkParsedPath {
  pp_root : jsstring;
  pp_dir : jsstring;
  pp_base : jsstring;
  pp_ext : jsstring;
  pp_name : jsstring
}.

(** The local variables of the scanning loop of [parse]. *)
Record ParseScan : Type := mkParseScan {
  startDot : Z;
  startPart : Z;
  end_ : Z;
  matchedSlash : bool;
  preDotState : Z
}.

Definition parse_init : ParseScan :=
  {| startDot := -1; startPart := 0; end_ := -1; matchedSlash := true; preDotState := 0 |}.

(** Body of [for (; i >= start; --i)] at index [i], with [code] the
    character code at [i]. *)
Definition parse_body (i : Z) (code : ascii) (st : ParseScan) : LoopCtl ParseScan :=
  if Ascii.eqb code CHAR_FORWARD_SLASH then
    if negb (matchedSlash st) then
      Break {| startDot := startDot st; startPart := i + 1; end_ := end_ st;
               matchedSlash := matchedSlash st; preDotState := preDotState st |}
    else Continue st
  else
    let st1 :=
      if end_ st =? -1 then
        {| startDot := startDot st; startPart := startPart st; end_ := i + 1;
           matchedSlash := false; preDotState := preDotState st |}
      else st in
    if Ascii.eqb code CHAR_DOT then
      if startDot st1 =? -1 then
        Continue {| startDot := i; startPart := startPart st1; end_ := end_ st1;
                    matchedSlash := matchedSlash st1; preDotState := preDotState st1 |}
      else if negb (preDotState st1 =? 1) then
        Continue {| startDot := startDot st1; startPart := startPart st1; end_ := end_ st1;
                    matchedSlash := matchedSlash st1; preDotState := 1 |}
      else Continue st1
    else if negb (startDot st1 =? -1) then
      Continue {| startDot := startDot st1; startPart := startPart st1; end_ := end_ st1;
                  matchedSlash := matchedSlash st1; preDotState := -1 |}
    else Continue st1.

(** The loop visits the indices [path.length - 1] down to [start]: [codes]
    holds the codes at these indices, last index first. *)
Fixpoint parse_loop (codes : list ascii) (i : Z) (st : ParseScan) : ParseScan :=
  match codes with
  | [] => st
  | code :: rest =>
      match parse_body i code st with
      | Break st' => st'
      | Continue st' => parse_loop rest (i - 1) st'
      end
  end.

Definition parse (path : jsstring) : ParsedPath :=
  if len path =? 0 then mkParsedPath [] [] [] [] []
  else
    let isAbsolute := code_is CHAR_FORWARD_SLASH (charCodeAt path 0) in
    let root := if isAbsolute then [CHAR_FORWARD_SLASH] else [] in
    let start := if isAbsolute then 1 else 0 in
    let st := parse_loop (rev (skipn (Z.to_nat start) path)) (len path - 1) parse_init in
    let bne :=
      if negb (end_ st =? -1) then
        let start' := if (startPart st =? 0) && isAbsolute then 1 else startPart st in
        if (startDot st =? -1)
           || (preDotState st =? 0)
           || ((preDotState st =? 1)
               && (startDot st =? end_ st - 1)
               && (startDot st =? startPart st + 1))
        then (slice path start' (end_ st), [], slice path start' (end_ st))
        else (slice path start' (end_ st),
              slice path (startDot st) (end_ st),
              slice path start' (startDot st))
      else ([], [], []) in
    let dir :=
      if startPart st >? 0 then slice path 0 (startPart st - 1)
      else if isAbsolute then [CHAR_FORWARD_SLASH]
      else [] in
    match bne with
    | (base, ext, name) => mkParsedPath root dir base ext name
    end.

(** ** [path.format]

    [_format('/', pathObject)]; the argument is given by the properties it
    reads.  ([fullPath] passes [name + ext] as [base], so the fallback for an
    empty [base] is reached with an empty name and an empty extension
    only.) *)
Definition format (root dir base name ext : jsstring) : jsstring :=
  let dir' := if negb (len dir =? 0) then dir else root in
  let base' := if negb (len base =? 0) then base else name ++ ext in
  if len dir' =? 0 then base'
  else if str_eqb dir' root then dir' ++ base'
  else dir' ++ [CHAR_FORWARD_SLASH] ++ base'.

(** ** [normalizeString] *)

Record NormState : Type := mkNormState {
  res : jsstring;
  lastSegmentLength : Z;
  lastSlash : Z;
  dots : Z;
  code : ascii
}.

Definition norm_init : NormState :=
  {| res := []; lastSegmentLength := 0; lastSlash := -1; dots := 0; code := zero |}.

(** The end of an iteration that reaches [lastSlash = i; dots = 0]. *)
Definition norm_next (i : Z) (r : jsstring) (l : Z) (c : ascii) : LoopCtl NormState :=
  Continue {| res := r; lastSegmentLength := l; lastSlash := i; dots := 0; code := c |}.

(** Body of [for (let i = 0; i <= path.length; ++i)]. *)
Definition norm_body (path : jsstring) (allowAboveRoot : bool) (i : Z) (st : NormState)
  : LoopCtl NormState :=
  let next_code :=
    if i <? len path then
      match charCodeAt path i with Some c => Some c | None => Some zero end
    else if isPosixPathSeparator (code st) then None
    else Some CHAR_FORWARD_SLASH in
  match next_code with
  | None => Break st
  | Some c =>
    if isPosixPathSeparator c then
      if (lastSlash st =? i - 1) || (dots st =? 1) then
        norm_next i (res st) (lastSegmentLength st) c
      else if dots st =? 2 then
        let above :=
          if allowAboveRoot then
            norm_next i
              (res st ++ (if len (res st) >? 0 then js "/.." else js ".."))
              2 c
          else norm_next i (res st) (lastSegmentLength st) c in
        if (len (res st) <? 2)
           || negb (lastSegmentLength st =? 2)
           || negb (code_is CHAR_DOT (charCodeAt (res st) (len (res st) - 1)))
           || negb (code_is CHAR_DOT (charCodeAt (res st) (len (res st) - 2)))
        then
          if len (res st) >? 2 then
            let lastSlashIndex := lastIndexOf (res st) CHAR_FORWARD_SLASH in
            if lastSlashIndex =? -1 then norm_next i [] 0 c
            else
              let r := slice (res st) 0 lastSlashIndex in
              norm_next i r (len r - 1 - lastIndexOf r CHAR_FORWARD_SLASH) c
          else if negb (len (res st) =? 0) then norm_next i [] 0 c
          else above
        else above
      else
        let seg := slice path (lastSlash st + 1) i in
        norm_next i
          (if len (res st) >? 0 then res st ++ [CHAR_FORWARD_SLASH] ++ seg else seg)
          (i - lastSlash st - 1) c
    else if Ascii.eqb c CHAR_DOT && negb (dots st =? -1) then
      Continue {| res := res st; lastSegmentLength := lastSegmentLength st;
                  lastSlash := lastSlash st; dots := dots st + 1; code := c |}
    else
      Continue {| res := res st; lastSegmentLength := lastSegmentLength st;
                  lastSlash := lastSlash st; dots := -1; code := c |}
  end.

Fixpoint norm_loop (path : jsstring) (allowAboveRoot : bool) (iterations : nat) (i : Z)
  (st : NormState) : NormState :=
  match iterations with
  | O => st
  | S k =>
      match norm_body path allowAboveRoot i st with
      | Break st' => st'
      | Continue st' => norm_loop path allowAboveRoot k (i + 1) st'
      end
  end.

Definition normalizeString (path : jsstring) (allowAboveRoot : bool) : jsstring :=
  res (norm_loop path allowAboveRoot (S (length path)) 0 norm_init).

(** ** [path.normalize] *)
Definition normalize (path : jsstring) : jsstring :=
  if len path =? 0 then js "."
  else
    let isAbsolute := code_is CHAR_FORWARD_SLASH (charCodeAt path 0) in
    let trailingSeparator := code_is CHAR_FORWARD_SLASH (charCodeAt path (len path - 1)) in
    let p := normalizeString path (negb isAbsolute) in
    if len p =? 0 then
      if isAbsolute then js "/"
      else if trailingSeparator then js "./" else js "."
    else
      let p' := if trailingSeparator then p ++ js "/" else p in
      if isAbsolute then js "/" ++ p' else p'.

(** ** [path.join] *)
Fixpoint join_args (args : list jsstring) (joined : option jsstring) : option jsstring :=
  match args with
  | [] => joined
  | arg :: rest =>
      join_args rest
        (if len arg >? 0 then
           match joined with
           | None => Some arg
           | Some j => Some (j ++ [CHAR_FORWARD_SLASH] ++ arg)
           end
         else joined)
  end.

Definition join (args : list jsstring) : jsstring :=
  match join_args args None with
  | None => js "."
  | Some joined => normalize joined
  end.

(** ** [path.resolve]

    [cwd] is the value of [process.cwd()].  The loop runs over the arguments
    from the last to the first and then over [cwd], until the path is
    absolute. *)
Fixpoint resolve_loop (paths : list jsstring) (resolvedPath : jsstring)
  (resolvedAbsolute : bool) : jsstring * bool :=
  match paths with
  | [] => (resolvedPath, resolvedAbsolute)
  | path :: rest =>
      if resolvedAbsolute then (resolvedPath, resolvedAbsolute)
      else if len path =? 0 then resolve_loop rest resolvedPath resolvedAbsolute
      else resolve_loop rest (path ++ [CHAR_FORWARD_SLASH] ++ resolvedPath)
             (code_is CHAR_FORWARD_SLASH (charCodeAt path 0))
  end.

Definition resolve (cwd : jsstring) (args : list jsstring) : jsstring :=
  match resolve_loop (rev args ++ [cwd]) [] false with
  | (resolvedPath, resolvedAbsolute) =>
      let p := normalizeString resolvedPath (negb resolvedAbsolute) in
      if resolvedAbsolute then js "/" ++ p
      else if len p >? 0 then p else js "."
  end.

(** ** [path.relative] *)

(** First loop: the length of the common prefix and the last separator in
    it. *)
Fixpoint relative_common (from to : jsstring) (length : nat) (i : Z) (lastCommonSep : Z)
  : Z * Z :=
  match length with
  | O => (i, lastCommonSep)
  | S k =>
      match charCodeAt from (1 + i) with
      | Some fromCode =>
          if negb (code_is fromCode (charCodeAt to (1 + i))) then (i, lastCommonSep)
          else relative_common from to k (i + 1)
                 (if Ascii.eqb fromCode CHAR_FORWARD_SLASH then i else lastCommonSep)
      | None => (i, lastCommonSep)
      end
  end.

(** Second loop: one [..] per remaining segment of [from]. *)
Fixpoint relative_out (from : jsstring) (iterations : nat) (i : Z) (out : jsstring)
  : jsstring :=
  match iterations with
  | O => out
  | S k =>
      relative_out from k (i + 1)
        (if (i =? len from) || code_is CHAR_FORWARD_SLASH (charCodeAt from i)
         then out ++ (if len out =? 0 then js ".." else js "/..")
         else out)
  end.

Definition relative (cwd : jsstring) (from to : jsstring) : jsstring :=
  if str_eqb from to then []
  else
    let from := resolve cwd [from] in
    let to := resolve cwd [to] in
    if str_eqb from to then []
    else
      let fromStart := 1 in
      let fromEnd := len from in
      let fromLen := fromEnd - fromStart in
      let toStart := 1 in
      let toLen := len to - toStart in
      let length := if fromLen <? toLen then fromLen else toLen in
      match relative_common from to (Z.to_nat length) 0 (-1) with
      | (i, lastCommonSep0) =>
          let direct :=
            if (i =? length) && (toLen >? length) then
              if code_is CHAR_FORWARD_SLASH (charCodeAt to (toStart + i))
              then Some (slice to (toStart + i + 1) (len to))
              else if i =? 0 then Some (slice to (toStart + i) (len to))
              else None
            else None in
          match direct with
          | Some r => r
          | None =>
              let lastCommonSep :=
                if (i =? length) && negb (toLen >? length) && (fromLen >? length) then
                  if code_is CHAR_FORWARD_SLASH (charCodeAt from (fromStart + i)) then i
                  else if i =? 0 then 0
                  else lastCommonSep0
                else lastCommonSep0 in
              let first := fromStart + lastCommonSep + 1 in
              let out := relative_out from (Z.to_nat (fromEnd - first + 1)) first [] in
              out ++ slice to (toStart + lastCommonSep) (len to)
          end
      end.

End NodePath.

(* ================================================================== *)
(** * File types and operations *)

(** [class ParsedFile implements ParsedPath] *)
Record ParsedFile : Type := mkParsedFile {
  root : jsstring;
  dir : jsstring;
  name : jsstring;
  ext : jsstring
}.

(** [get base()] *)
Definition base (f : ParsedFile) : jsstring := name f ++ ext f.

(** [get fullPath()]: [path.format(this)] *)
Definition fullPath (f : ParsedFile) : jsstring :=
  NodePath.format (root f) (dir f) (base f) (name f) (ext f).

(** [constructor(p: string)] *)
Definition new_ParsedFile (p : jsstring) : ParsedFile :=
  let parsed := NodePath.parse p in
  {| root := NodePath.pp_root parsed;
     dir := NodePath.pp_dir parsed;
     name := NodePath.pp_name parsed;
     ext := NodePath.pp_ext parsed |}.

Definition withName (f : ParsedFile) (n : jsstring) : ParsedFile :=
  let newFile := new_ParsedFile (fullPath f) in
  {| root := root newFile; dir := dir newFile; name := n; ext := ext newFile |}.

Definition withParentDirectory (f : ParsedFile) (d : jsstring) : ParsedFile :=
  let newFile := new_ParsedFile (fullPath f) in
  {| root := root newFile; dir := NodePath.join [d; dir f];
     name := name newFile; ext := ext newFile |}.

(** [cwd] is [process.cwd()], which [path.relative] reads. *)
Definition relativeTo (cwd : jsstring) (f : ParsedFile) (d : jsstring) : ParsedFile :=
  let newFile := new_ParsedFile (fullPath f) in
  {| root := root newFile; dir := NodePath.relative cwd d (dir f);
     name := name newFile; ext := ext newFile |}.

Definition equal (a f : ParsedFile) : bool := str_eqb (fullPath a) (fullPath f).

(** What the program writes.  [syncDir] and [resolveCollisions] reach the
    file system through the rebindable [renameFile] and [copyFile], through
    [fs.mkdirSync] and through the optional progress callback: their calls
    are logged in program order.  [OnProgress] entries are the calls made when
    a callback is supplied. *)
Inductive Call : Type :=
| MkdirSync (path : jsstring)
| RenameFile (file : ParsedFile) (newName : jsstring)
| CopyFile (sourceFile targetFile : ParsedFile)
| OnProgress (message : jsstring).

(** The writes of the [fs] module. *)
Inductive FsWrite : Type :=
| FsMkdir (path : jsstring)
| FsRename (oldPath newPath : jsstring)
| FsCopyFile (src dest : jsstring).

(** [let renameFile = (file, newName) => ...] as shipped. *)
Definition renameFile (file : ParsedFile) (newName : jsstring) : list FsWrite :=
  if negb (str_eqb (name file) newName) then
    let newFile := withName file newName in
    [FsRename (fullPath file) (fullPath newFile)]
  else [].

(** [let copyFile = (sourceFile, targetFile) => ...] as shipped. *)
Definition copyFile (sourceFile targetFile : ParsedFile) : list FsWrite :=
  [FsCopyFile (fullPath sourceFile) (fullPath targetFile)].

Definition perform (c : Call) : list FsWrite :=
  match c with
  | MkdirSync p => [FsMkdir p]
  | RenameFile file newName => renameFile file newName
  | CopyFile s t => copyFile s t
  | OnProgress _ => []
  end.

Definition fs_writes (log : list Call) : list FsWrite := flat_map perform log.

(* ================================================================== *)
(** * Sync logic *)

Definition SyncPredicate : Type := ParsedFile -> ParsedFile -> bool.

Record SyncResults : Type := mkSyncResults {
  resolved : list ParsedFile;
  collisions : list (ParsedFile * list ParsedFile)
}.

(** An entry of [fs.readdirSync(dir, { withFileTypes: true })]. *)
Record Dirent : Type := mkDirent {
  dirent_name : jsstring;
  dirent_isFile : bool
}.

(** What one call of [syncDir] reads from the file system. *)
Record DirInput : Type := mkDirInput {
  source_entries : list Dirent;
  target_exists : bool;
  target_entries : list Dirent
}.

Definition DS_Store : jsstring := js ".DS_Store".

(** [entries.filter(dirent => dirent.isFile() && dirent.name !== '.DS_Store')
            .map(dirent => new ParsedFile(dirent.name))] *)
Definition listFiles (entries : list Dirent) : list ParsedFile :=
  map (fun dirent => new_ParsedFile (dirent_name dirent))
    (filter (fun dirent => dirent_isFile dirent && negb (str_eqb (dirent_name dirent) DS_Store))
       entries).

(** [targetFiles.filter(...).map(...).filter(...)] of [syncDir]. *)
Definition targetCandidates (targetDir : jsstring) (areSyncable : SyncPredicate)
  (targetFiles resolved : list ParsedFile) (sourceFile : ParsedFile) : list ParsedFile :=
  filter (fun candidate => negb (existsb (fun file => equal file candidate) resolved))
    (map (fun candidate => withParentDirectory candidate targetDir)
       (filter (fun candidate => areSyncable sourceFile candidate) targetFiles)).

(** The callback of [sourceFiles.forEach] in [syncDir]. *)
Definition syncFile (sourceDir targetDir : jsstring) (areSyncable : SyncPredicate)
  (targetFiles : list ParsedFile) (acc : SyncResults * list Call) (sourceFile : ParsedFile)
  : SyncResults * list Call :=
  let (r, log) := acc in
  let candidates := targetCandidates targetDir areSyncable targetFiles (resolved r) sourceFile in
  let (r', calls) :=
    if (length candidates =? 1)%nat then
      match candidates with
      | c0 :: _ =>
          ({| resolved := resolved r ++ [c0]; collisions := collisions r |},
           [RenameFile c0 (name sourceFile)])
      | [] => (r, [])
      end
    else if (1 <? length candidates)%nat then
      ({| resolved := resolved r;
          collisions := collisions r ++ [(withParentDirectory sourceFile sourceDir, candidates)] |},
       [])
    else
      (r, [CopyFile (withParentDirectory sourceFile sourceDir)
             (withParentDirectory sourceFile targetDir)]) in
  (r', log ++ calls ++ [OnProgress (fullPath (withParentDirectory sourceFile sourceDir))]).

Definition syncDir (sourceDir targetDir : jsstring) (areSyncable : SyncPredicate)
  (syncResults : option SyncResults) (input : DirInput) : SyncResults * list Call :=
  let r0 :=
    match syncResults with
    | Some r => r
    | None => {| resolved := []; collisions := [] |}
    end in
  let sourceFiles := listFiles (source_entries input) in
  let mk := if negb (target_exists input) then [MkdirSync targetDir] else [] in
  let targetFiles := listFiles (target_entries input) in
  fold_left (syncFile sourceDir targetDir areSyncable targetFiles) sourceFiles (r0, mk).

(** [klaw] holds, for every directory that [klawSync(sourceRoot, { nofile:
    true })] returns, its path and what [syncDir] reads when it reaches it. *)
Definition syncNames (cwd sourceRoot targetRoot : jsstring) (syncPredicate : SyncPredicate)
  (rootInput : DirInput) (klaw : list (jsstring * DirInput)) : SyncResults * list Call :=
  fold_left
    (fun (acc : SyncResults * list Call) (d : jsstring * DirInput) =>
       let dir := NodePath.relative cwd sourceRoot (fst d) in
       let (r, calls) :=
         syncDir (NodePath.join [sourceRoot; dir]) (NodePath.join [targetRoot; dir])
           syncPredicate (Some (fst acc)) (snd d) in
       (r, snd acc ++ calls))
    klaw
    (syncDir sourceRoot targetRoot syncPredicate None rootInput).

(** [Array.prototype.sort(compare)]: a stable sort, so its result is fixed by
    the comparator; written as an insertion sort. *)
Fixpoint sort_insert {A : Type} (compare : A -> A -> Z) (x : A) (l : list A) : list A :=
  match l with
  | [] => [x]
  | y :: l' => if compare x y <=? 0 then x :: l else y :: sort_insert compare x l'
  end.

Fixpoint sort {A : Type} (compare : A -> A -> Z) (l : list A) : list A :=
  match l with
  | [] => []
  | x :: l' => sort_insert compare x (sort compare l')
  end.

Definition byNameLenDesc (a b : ParsedFile) : Z := len (name b) - len (name a).

(** The keys of [collisions] in the order [resolveCollisions] visits them,
    each with the value [collisions.get] returns for it. *)
Definition sortedCollisions (collisions : list (ParsedFile * list ParsedFile))
  : list (ParsedFile * list ParsedFile) :=
  sort (fun a b => byNameLenDesc (fst a) (fst b)) collisions.

(** [collisions.get(sourceFile)!.filter(...)]: the candidates that are not a
    key of [toRename] yet. *)
Definition unclaimed (toRename : list (ParsedFile * jsstring)) (candidates : list ParsedFile)
  : list ParsedFile :=
  filter (fun candidate => negb (existsb (fun file => equal file candidate) (map fst toRename)))
    candidates.

(** [....sort(byNameLenDesc)[0]] *)
Definition fileToRename (toRename : list (ParsedFile * jsstring)) (candidates : list ParsedFile)
  : option ParsedFile :=
  nth_error (sort byNameLenDesc (unclaimed toRename candidates)) 0.

(** The callback of the first [forEach] of [resolveCollisions], on the maps
    [toRename] and [toCopy]. *)
Definition resolveKey (cwd sourceRoot targetRoot : jsstring)
  (acc : list (ParsedFile * jsstring) * list (ParsedFile * ParsedFile))
  (entry : ParsedFile * list ParsedFile)
  : list (ParsedFile * jsstring) * list (ParsedFile * ParsedFile) :=
  let (toRename, toCopy) := acc in
  let sourceFile := fst entry in
  match fileToRename toRename (snd entry) with
  | Some file => (toRename ++ [(file, name sourceFile)], toCopy)
  | None =>
      (toRename,
       toCopy ++ [(sourceFile,
                   withParentDirectory (relativeTo cwd sourceFile sourceRoot) targetRoot)])
  end.

Definition decideCollisions (cwd sourceRoot targetRoot : jsstring)
  (collisions : list (ParsedFile * list ParsedFile))
  : list (ParsedFile * jsstring) * list (ParsedFile * ParsedFile) :=
  fold_left (resolveKey cwd sourceRoot targetRoot) (sortedCollisions collisions) ([], []).

Definition resolveCollisions (cwd sourceRoot targetRoot : jsstring)
  (collisions : list (ParsedFile * list ParsedFile)) (postfix : jsstring) : list Call :=
  let postfix := js " " ++ postfix in
  let (toRename, toCopy) := decideCollisions cwd sourceRoot targetRoot collisions in
  flat_map (fun e : ParsedFile * jsstring =>
              [RenameFile (fst e) (snd e ++ postfix); OnProgress (fullPath (fst e))])
    toRename
  ++ flat_map (fun e : ParsedFile * ParsedFile =>
                 [CopyFile (fst e) (withName (snd e) (name (snd e) ++ postfix));
                  OnProgress (fullPath (fst e))])
       toCopy.

(** The predicate that [main] passes to [syncNames]. *)

Definition in_range (lo hi : N) (c : ascii) : bool :=
  (lo <=? N_of_ascii c)%N && (N_of_ascii c <=? hi)%N.

(** A character of the class [[^a-zA-Z0-9]]. *)
Definition syncRegex_class (c : ascii) : bool :=
  negb (in_range 97 122 c || in_range 65 90 c || in_range 48 57 c).

(** [s.replace(syncRegex, '')] with [syncRegex = /[^a-zA-Z0-9]+/g]: every run
    of characters of the class is replaced by the empty string. *)
Fixpoint replace_syncRegex (s : jsstring) : jsstring :=
  match s with
  | [] => []
  | c :: s' => if syncRegex_class c then replace_syncRegex s' else c :: replace_syncRegex s'
  end.

Definition areSyncable (sourceFile targetFile : ParsedFile) : bool :=
  let sourceNameClean := replace_syncRegex (name sourceFile) in
  let targetNameClean := replace_syncRegex (name targetFile) in
  startsWith sourceNameClean targetNameClean.

(** The two phases as [main] chains them: [syncNames], then
    [resolveCollisions] on its collisions when there are any. *)
Definition syncAndResolve (cwd sourceRoot targetRoot collisionPostfix : jsstring)
  (rootInput : DirInput) (klaw : list (jsstring * DirInput)) : SyncResults * list Call :=
  let (results, log) := syncNames cwd sourceRoot targetRoot areSyncable rootInput klaw in
  (results,
   log ++ (if negb (length (collisions results) =? 0)%nat
           then resolveCollisions cwd sourceRoot targetRoot (collisions results) collisionPostfix
           else [])).

(* ================================================================== *)
(** * App utils

    The command line is what [minimist] returns: an object whose fields
    hold any JavaScript value.  [applyArgv] only asks whether a value is
    truthy and whether it is a number, so numbers stay abstract: [number] is
    their type, [numberToBoolean] their truthiness ([false] for [0], [-0]
    and [NaN]) and [number_0] the literal [0].  An array (a repeated
    option) or another object is a reference. *)

Section AppUtils.

Variable number : Type.
Variable numberToBoolean : number -> bool.
Variable number_0 : number.

Inductive JsValue : Type :=
| JsUndefined
| JsBoolean (b : bool)
| JsNumber (x : number)
| JsString (s : jsstring)
| JsObject (ref : positive).

(** The truthiness of a value, as [if], [!], [&&], [||] and [?:] read it. *)
Definition toBoolean (v : JsValue) : bool :=
  match v with
  | JsUndefined => false
  | JsBoolean b => b
  | JsNumber x => numberToBoolean x
  | JsString s => negb (len s =? 0)
  | JsObject _ => true
  end.

(** [minimist]'s [ParsedArgs], with the fields that [applyArgv] reads. *)
Record ParsedArgs : Type := mkParsedArgs {
  argv_help : JsValue;
  argv_h : JsValue;
  argv__ : list JsValue;
  argv_t : JsValue;
  argv_s : JsValue;
  argv_p : JsValue;
  argv_b : JsValue;
  argv_fake : JsValue;
  argv_bar : JsValue;
  argv_delay : JsValue
}.

(** [interface SyncConfig]; the fields typed [string] hold what the command
    line gave. *)
Record SyncConfig : Type := mkSyncConfig {
  targetRoot : JsValue;
  sourceRoot : JsValue;
  collisionPostfix : JsValue;
  withBar : bool;
  fake : bool;
  barDelay : number
}.

(** What [applyArgv] does besides computing its result. *)
Inductive Effect : Type :=
| Console_log (args : list JsValue)
| Console_error (error : JsValue)
| CopySync (src dest : JsValue).

(** A call returns, or the process exits with a code. *)
Inductive Completion (A : Type) : Type :=
| Returns (a : A)
| Exits (code : Z).

Definition LF : ascii := ascii_of_nat 10.

Definition usage : jsstring :=
  LF :: js "ARGS: -s <SOURCE_DIR> -t <TARGET_DIR> [-b <BACKUP_DIR>] [-p <COLLISIONS_POSTFIX>]"
  ++ [LF].

Definition provide_directories : jsstring :=
  LF :: js "Please provide source (-s) and target (-t) directories" ++ [LF].

(** [function handleError(error)]: [console.error(error); process.exit(1)]. *)
Definition handleError {A : Type} (error : JsValue) : list Effect * Completion A :=
  ([Console_error error], Exits A 1).

(** [argv._.includes('help')] *)
Definition includes_help (items : list JsValue) : bool :=
  existsb (fun v => match v with
                    | JsString s => str_eqb s (js "help")
                    | _ => false
                    end) items.

(** [function applyArgv(argv)].  [copySyncThrows] is what [copySync] throws
    when the backup fails. *)
Definition applyArgv (argv : ParsedArgs) (copySyncThrows : option JsValue)
  : list Effect * Completion SyncConfig :=
  if toBoolean (argv_help argv) || toBoolean (argv_h argv) || includes_help (argv__ argv) then
    ([Console_log [JsString usage]], Exits SyncConfig 0)
  else
    let targetRoot := argv_t argv in
    let sourceRoot := argv_s argv in
    if negb (toBoolean sourceRoot && toBoolean targetRoot) then
      handleError (JsString provide_directories)
    else
      let collisionPostfix :=
        if toBoolean (argv_p argv) then argv_p argv else JsString (js "$collision$") in
      let fakeSync := negb (negb (toBoolean (argv_fake argv))) in
      let fakeWithBar := negb (negb (toBoolean (argv_bar argv))) in
      let config :=
        {| targetRoot := targetRoot;
           sourceRoot := sourceRoot;
           collisionPostfix := collisionPostfix;
           withBar := fakeWithBar || negb fakeSync;
           fake := fakeSync;
           barDelay := match argv_delay argv with
                       | JsNumber x => x
                       | _ => number_0
                       end |} in
      if toBoolean (argv_b argv) then
        match copySyncThrows with
        | None =>
            ([CopySync targetRoot (argv_b argv); Console_log [JsString (js "Backup created")]],
             Returns SyncConfig config)
        | Some error =>
            let (effects, completion) := @handleError SyncConfig error in
            (CopySync targetRoot (argv_b argv) :: effects, completion)
        end
      else ([], Returns SyncConfig config).

End AppUtils.

Arguments JsUndefined {number}.
Arguments JsBoolean {number} b.
Arguments JsNumber {number} x.
Arguments JsString {number} s.
Arguments JsObject {number} ref.
Arguments Returns {A} a.
Arguments Exits {A} code.

(** ** The dry run *)

(** What the calls of the sync logic do once [main] has bound
    [renameFile], [copyFile] and the progress callback: a write of the [fs]
    module, a [console.log] with its arguments, a call of the callback of a
    bar with its message. *)
Inductive Output : Type :=
| Wrote (w : FsWrite)
| Printed (args : list jsstring)
| Ticked (message : jsstring).

(** [let renameFileMock = (file, newName) => ...]: the arguments of its
    [console.log]. *)
Definition renameFileMock (file : ParsedFile) (newName : jsstring) : list Output :=
  if negb (str_eqb (name file) newName) then
    let newFile := withName file newName in
    [Printed [fullPath file; js "-->"; fullPath newFile]]
  else [].

(** [let copyFileMock = (sourceFile, targetFile) => ...] *)
Definition copyFileMock (sourceFile targetFile : ParsedFile) : list Output :=
  [Printed [js "Copy:"; fullPath sourceFile; js "-->"; fullPath targetFile]].

(** The functions that [renameFile] and [copyFile] are bound to when [main]
    reaches [syncNames]: [if (fake) { if (withBar) {...} else {...} }]. *)
Definition bound_renameFile (fake withBar : bool) (file : ParsedFile) (newName : jsstring)
  : list Output :=
  if fake then
    if withBar then []
    else renameFileMock file newName
  else map Wrote (renameFile file newName).

Definition bound_copyFile (fake withBar : bool) (sourceFile targetFile : ParsedFile)
  : list Output :=
  if fake then
    if withBar then []
    else copyFileMock sourceFile targetFile
  else map Wrote (copyFile sourceFile targetFile).

(** A call of the sync logic as [main] runs it: [fs.mkdirSync] is always the
    real one, [renameFile] and [copyFile] are the bound ones, and the
    progress callback is a tick of a bar when [withBar] holds and
    [undefined] otherwise. *)
Definition run_call (fake withBar : bool) (c : Call) : list Output :=
  match c with
  | MkdirSync p => [Wrote (FsMkdir p)]
  | RenameFile file newName => bound_renameFile fake withBar file newName
  | CopyFile s t => bound_copyFile fake withBar s t
  | OnProgress message => if withBar then [Ticked message] else []
  end.

Definition run (fake withBar : bool) (log : list Call) : list Output :=
  flat_map (run_call fake withBar) log.

(* ================================================================== *)
(** * The writes on a file system

    [fs.renameSync] and [fs.copyFileSync] throw when the path they read
    names no file.  Nothing in [syncDir], [syncNames], [resolveCollisions]
    or [main] catches the exception, so the run ends at the call that
    throws.  The state is the paths of the files that exist, spelled as the
    program spells them.  Directories are not tracked: [fs.mkdirSync], which
    [syncDir] calls only for a directory that does not exist, returns. *)

Definition Files : Type := list jsstring.

Definition isFile (files : Files) (p : jsstring) : bool := existsb (str_eqb p) files.

Definition removeFile (files : Files) (p : jsstring) : Files :=
  filter (fun q => negb (str_eqb q p)) files.

(** One write: the files after it, or [None] when it throws. *)
Definition writeSync (files : Files) (w : FsWrite) : option Files :=
  match w with
  | FsMkdir _ => Some files
  | FsRename oldPath newPath =>
      if isFile files oldPath
      then Some (newPath :: removeFile (removeFile files oldPath) newPath)
      else None
  | FsCopyFile src dest =>
      if isFile files src then Some (dest :: removeFile files dest) else None
  end.

Fixpoint writeAll (files : Files) (ws : list FsWrite) : option Files :=
  match ws with
  | [] => Some files
  | w :: ws' =>
      match writeSync files w with
      | Some files' => writeAll files' ws'
      | None => None
      end
  end.

(** How a run ends. *)
Inductive Ending : Type :=
| Completed
| Thrown (c : Call).

(** The calls of [log] on the files [files], with the shipped [renameFile]
    and [copyFile]: the calls that returned, the files at the end, and the
    call that threw if one did. *)
Fixpoint execute (files : Files) (log : list Call) : list Call * Files * Ending :=
  match log with
  | [] => ([], files, Completed)
  | c :: rest =>
      match writeAll files (perform c) with
      | None => ([], files, Thrown c)
      | Some files' =>
          match execute files' rest with
          | (made, final, ending) => (c :: made, final, ending)
          end
      end
  end.

(* ================================================================== *)
(** * Vocabulary of the properties

    The definitions that the statements and their proofs use: the
    normalized name of the specification, what the scanning loop of
    [path.parse] computes, the shapes of a path, well-formed paths, valid
    names of directory entries, and where a call reads and writes. *)

Import NodePath.

(** ** The normalized name *)

(** The ASCII letters and digits, listed. *)
Definition alphanumerics : jsstring :=
  js "abcdefghijklmnopqrstuvwxyzABCDEFGHIJKLMNOPQRSTUVWXYZ0123456789".

(** [c] is an ASCII letter or digit. *)
Definition isAsciiAlnum (c : ascii) : bool := existsb (Ascii.eqb c) alphanumerics.

(** The normalized name of the specification: the stem without the
    characters that are not an ASCII letter or digit. *)
Definition normalized (stem : jsstring) : jsstring := filter isAsciiAlnum stem.

(** ** The decisions of the resolver *)

(** [f.name.length], the key of [byNameLenDesc]. *)
Definition stemLength (f : ParsedFile) : Z := len (name f).

(** The target of the fallback copy, before the postfix is added. *)
Definition mirrored (cwd sourceRoot targetRoot : jsstring) (sourceFile : ParsedFile) : ParsedFile :=
  withParentDirectory (relativeTo cwd sourceFile sourceRoot) targetRoot.

(** What the resolver decides for a key: the file to rename, or [None] for
    the fallback copy.  [renamesOf] gives the entries of [toRename] that
    come from a list of keys with their decisions, [copiesOf] those of
    [toCopy]. *)
Definition renamesOf (l : list ((ParsedFile * list ParsedFile) * option ParsedFile))
  : list (ParsedFile * jsstring) :=
  flat_map (fun ed => match snd ed with
                      | Some file => [(file, name (fst (fst ed)))]
                      | None => []
                      end) l.

Definition copiesOf (cwd sourceRoot targetRoot : jsstring)
  (l : list ((ParsedFile * list ParsedFile) * option ParsedFile))
  : list (ParsedFile * ParsedFile) :=
  flat_map (fun ed => match snd ed with
                      | Some _ => []
                      | None => [(fst (fst ed), mirrored cwd sourceRoot targetRoot (fst (fst ed)))]
                      end) l.

(** The calls of the two last loops of [resolveCollisions], for given
    maps. *)
Definition renameCalls (postfix : jsstring) (toRename : list (ParsedFile * jsstring)) : list Call :=
  flat_map (fun e : ParsedFile * jsstring =>
              [RenameFile (fst e) (snd e ++ js " " ++ postfix); OnProgress (fullPath (fst e))])
    toRename.

Definition copyCalls (postfix : jsstring) (toCopy : list (ParsedFile * ParsedFile)) : list Call :=
  flat_map (fun e : ParsedFile * ParsedFile =>
              [CopyFile (fst e) (withName (snd e) (name (snd e) ++ js " " ++ postfix));
               OnProgress (fullPath (fst e))])
    toCopy.

(** ** The scanning loop of [path.parse] *)

(** The string made of one slash. *)
Definition slash : jsstring := [CHAR_FORWARD_SLASH].

(** No character of [b] is a slash. *)
Definition no_slash (b : jsstring) : bool :=
  forallb (fun c => negb (Ascii.eqb c CHAR_FORWARD_SLASH)) b.

(** [k] slashes. *)
Definition slashes (k : nat) : jsstring := repeat CHAR_FORWARD_SLASH k.

(** [startDot] and [preDotState] after the loop has gone through the last
    component [b], whose first character has index [sp]. *)
Fixpoint dot_scan (b : jsstring) (sp : Z) : Z * Z :=
  match b with
  | [] => (-1, 0)
  | c :: b' =>
      let (sd, ps) := dot_scan b' (sp + 1) in
      if Ascii.eqb c CHAR_DOT then (if sd =? -1 then (sp, ps) else (sd, 1))
      else (if sd =? -1 then (sd, ps) else (sd, -1))
  end.

(** The last dot of a component: [b = a ++ "." ++ t] with no dot in [t]. *)
Fixpoint last_dot (b : jsstring) : option (jsstring * jsstring) :=
  match b with
  | [] => None
  | c :: b' =>
      match last_dot b' with
      | Some (a, t) => Some (c :: a, t)
      | None => if Ascii.eqb c CHAR_DOT then Some ([], b') else None
      end
  end.

(** Name and extension of the last component [b].  [first] tells that the
    component starts at the index the loop left in [startPart]; it does not
    when the path is [/b], where [startPart] stays [0]. *)
Definition stem_ext (first : bool) (b : jsstring) : jsstring * jsstring :=
  match last_dot b with
  | None => (b, [])
  | Some (a, t) =>
      match a with
      | [] => (b, [])
      | c :: a' =>
          if Ascii.eqb c CHAR_DOT && (len t =? 0) && (len a' =? 0) && first
          then (b, [])
          else (a, CHAR_DOT :: t)
      end
  end.

(** The end of [parse], after the loop. *)
Definition parse_finish (path : jsstring) (isAbsolute : bool) (st : ParseScan) : ParsedPath :=
  let root := if isAbsolute then [CHAR_FORWARD_SLASH] else [] in
  let bne :=
    if negb (end_ st =? -1) then
      let start' := if (startPart st =? 0) && isAbsolute then 1 else startPart st in
      if (startDot st =? -1)
         || (preDotState st =? 0)
         || ((preDotState st =? 1)
             && (startDot st =? end_ st - 1)
             && (startDot st =? startPart st + 1))
      then (slice path start' (end_ st), [], slice path start' (end_ st))
      else (slice path start' (end_ st),
            slice path (startDot st) (end_ st),
            slice path start' (startDot st))
    else ([], [], []) in
  let dir :=
    if startPart st >? 0 then slice path 0 (startPart st - 1)
    else if isAbsolute then [CHAR_FORWARD_SLASH]
    else [] in
  match bne with
  | (base, ext, name) => mkParsedPath root dir base ext name
  end.

(** The root that [parse] gives to a path that starts with [d]. *)
Definition root_of (d : jsstring) : jsstring :=
  if code_is CHAR_FORWARD_SLASH (charCodeAt d 0) then [CHAR_FORWARD_SLASH] else [].

(** ** Paths and descriptors *)

(** Every path is a run of slashes, or ends in a component [b] and [k]
    slashes, the component being the whole path, preceded by the root or
    preceded by a directory and a slash. *)
Inductive Shape : jsstring -> Prop :=
| shape_empty : Shape []
| shape_slashes (k : nat) : Shape (slashes (S k))
| shape_relative (b : jsstring) (k : nat) :
    b <> [] -> no_slash b = true -> Shape (b ++ slashes k)
| shape_absolute (b : jsstring) (k : nat) :
    b <> [] -> no_slash b = true -> Shape (slash ++ b ++ slashes k)
| shape_nested (d b : jsstring) (k : nat) :
    d <> [] -> b <> [] -> no_slash b = true -> Shape (d ++ slash ++ b ++ slashes k).

(** The descriptor of a last component [b]. *)
Definition component (first : bool) (rt d b : jsstring) : ParsedFile :=
  {| root := rt; dir := d; name := fst (stem_ext first b); ext := snd (stem_ext first b) |}.

(** [p] ends with a slash. *)
Definition ends_with_slash (p : jsstring) : bool :=
  code_is CHAR_FORWARD_SLASH (charCodeAt (rev p) 0).

(** [p] is [//name]. *)
Definition double_slash_name (p : jsstring) : bool :=
  match p with
  | c1 :: c2 :: b =>
      Ascii.eqb c1 CHAR_FORWARD_SLASH && Ascii.eqb c2 CHAR_FORWARD_SLASH && no_slash b
  | _ => false
  end.

(** A well-formed path: the empty path, a single character, or a path that
    neither ends with a slash nor is [//name]. *)
Definition well_formed (p : jsstring) : bool :=
  (len p <=? 1) || (negb (ends_with_slash p) && negb (double_slash_name p)).

(** A name that [fs.readdirSync] can return: not empty, without slash, and
    not the parent directory. *)
Definition valid_name (n : jsstring) : bool :=
  negb (len n =? 0) && no_slash n && negb (str_eqb n (js "..")).

(** [f] describes a listed file: its root is empty or the slash, its
    name and extension are those of a valid name [n]. *)
Definition describes (n : jsstring) (f : ParsedFile) : Prop :=
  (root f = [] \/ root f = slash)
  /\ name f = fst (stem_ext true n) /\ ext f = snd (stem_ext true n).

(** A path in the directory [d]: [d], a slash and more, or more after the
    root when [d] is the root. *)
Definition under (d p : jsstring) : Prop :=
  exists rest, rest <> [] /\ (p = d ++ slash ++ rest \/ (d = slash /\ p = slash ++ rest)).

(** ** Calls and writes *)

(** The renames and copies among the calls. *)
Definition isAction (c : Call) : bool :=
  match c with
  | RenameFile _ _ | CopyFile _ _ => true
  | MkdirSync _ | OnProgress _ => false
  end.

(** The call that settles a key: the rename of the file decided for it, or
    the postfixed copy of the source file. *)
Definition resolutionCall (cwd sourceRoot targetRoot postfix : jsstring)
  (ed : (ParsedFile * list ParsedFile) * option ParsedFile) : Call :=
  match snd ed with
  | Some file => RenameFile file (name (fst (fst ed)) ++ js " " ++ postfix)
  | None =>
      CopyFile (fst (fst ed))
        (withName (mirrored cwd sourceRoot targetRoot (fst (fst ed)))
           (name (mirrored cwd sourceRoot targetRoot (fst (fst ed))) ++ js " " ++ postfix))
  end.

(** [f] describes a listed file of the directory [d]. *)
Definition listed_in (d : jsstring) (f : ParsedFile) : Prop :=
  dir f = d /\ exists n, valid_name n = true /\ describes n f.

(** [f] has the directory [d] and a base name. *)
Definition placed_in (d : jsstring) (f : ParsedFile) : Prop :=
  dir f = d /\ (root f = [] \/ root f = slash) /\ base f <> [].

(** A listing of valid names, and the input of a call of [syncDir] with
    two such listings. *)
Definition valid_entries (entries : list Dirent) : Prop :=
  Forall (fun dirent => valid_name (dirent_name dirent) = true) entries.

Definition valid_input (input : DirInput) : Prop :=
  valid_entries (source_entries input) /\ valid_entries (target_entries input).

(** The files of a listing are built from valid names. *)
Definition from_listing (files : list ParsedFile) : Prop :=
  Forall (fun f => exists n, valid_name n = true /\ f = new_ParsedFile n) files.

(** ** Aligned trees *)

(** The names of the files that [syncDir] keeps from a listing. *)
Definition listedNames (entries : list Dirent) : list jsstring :=
  map dirent_name
    (filter (fun dirent => dirent_isFile dirent && negb (str_eqb (dirent_name dirent) DS_Store))
       entries).





(** ** Accounting for the calls of [syncDir] *)

(** The calls of each kind. *)
Definition isMkdir (c : Call) : bool :=
  match c with MkdirSync _ => true | _ => false end.

Definition isRename (c : Call) : bool :=
  match c with RenameFile _ _ => true | _ => false end.

Definition isCopy (c : Call) : bool :=
  match c with CopyFile _ _ => true | _ => false end.

Definition isProgress (c : Call) : bool :=
  match c with OnProgress _ => true | _ => false end.

(** An entry of a listing that [syncDir] keeps, as a descriptor: a file
    whose name is not [.DS_Store]. *)
Definition kept (entries : list Dirent) (f : ParsedFile) : Prop :=
  exists dirent, In dirent entries /\ dirent_isFile dirent = true
                 /\ dirent_name dirent <> DS_Store
                 /\ f = new_ParsedFile (dirent_name dirent).

(** Where a call of the loop of [syncDir] comes from: a rename from a
    source file and a target file that match, a copy from a source file
    whose matches are all among the resolved files, a progress message from
    a source file. *)
Definition call_from (sourceDir targetDir : jsstring) (areSyncable : SyncPredicate)
  (sourceFiles targetFiles resolved : list ParsedFile) (c : Call) : Prop :=
  match c with
  | MkdirSync _ => False
  | RenameFile file newName =>
      exists s t, In s sourceFiles /\ In t targetFiles /\ areSyncable s t = true
                  /\ file = withParentDirectory t targetDir /\ newName = name s
  | CopyFile sourceFile targetFile =>
      exists s, In s sourceFiles
                /\ sourceFile = withParentDirectory s sourceDir
                /\ targetFile = withParentDirectory s targetDir
                /\ forall t, In t targetFiles -> areSyncable s t = true ->
                     exists file, In file resolved
                                  /\ equal file (withParentDirectory t targetDir) = true
  | OnProgress message =>
      exists s, In s sourceFiles /\ message = fullPath (withParentDirectory s sourceDir)
  end.

(** ** The outputs of a run *)

Definition writes_of (outputs : list Output) : list FsWrite :=
  flat_map (fun o => match o with Wrote w => [w] | _ => [] end) outputs.

Definition printed_of (outputs : list Output) : list (list jsstring) :=
  flat_map (fun o => match o with Printed args => [args] | _ => [] end) outputs.

Definition ticked_of (outputs : list Output) : list jsstring :=
  flat_map (fun o => match o with Ticked message => [message] | _ => [] end) outputs.

Definition isFsMkdir (w : FsWrite) : bool :=
  match w with FsMkdir _ => true | _ => false end.

(** The line that the dry run prints for a write of the real run. *)
Definition report_line (w : FsWrite) : list (list jsstring) :=
  match w with
  | FsMkdir _ => []
  | FsRename oldPath newPath => [[oldPath; js "-->"; newPath]]
  | FsCopyFile src dest => [[js "Copy:"; src; js "-->"; dest]]
  end.

(** The messages of the progress calls. *)
Definition progress_messages (log : list Call) : list jsstring :=
  flat_map (fun c => match c with OnProgress message => [message] | _ => [] end) log.

(** The number of source files that the walk of [syncNames] lists. *)
Definition sourceFileCount (rootInput : DirInput) (klaw : list (jsstring * DirInput)) : nat :=
  length (listFiles (source_entries rootInput))
  + list_sum (map (fun k => length (listFiles (source_entries (snd k)))) klaw).

(** The results that [syncDir] starts from. *)
Definition initialResults (syncResults : option SyncResults) : SyncResults :=
  match syncResults with
  | Some r => r
  | None => {| resolved := []; collisions := [] |}
  end.

(** ** Collisions as [syncNames] leaves them *)

(** The entry has two candidates of different full paths. *)
Definition two_candidates (e : ParsedFile * list ParsedFile) : Prop :=
  exists c1 c2, In c1 (snd e) /\ In c2 (snd e) /\ equal c1 c2 = false.

(** The target listing holds valid names, and none twice among the
    entries that [syncDir] keeps. *)
Definition distinct_targets (input : DirInput) : Prop :=
  valid_entries (target_entries input) /\ NoDup (listedNames (target_entries input)).

(** ** The command line *)

(** The three ways of asking for the usage text. *)
Definition wantsHelp {number : Type} (numberToBoolean : number -> bool)
  (argv : ParsedArgs number) : bool :=
  toBoolean number numberToBoolean (argv_help number argv)
  || toBoolean number numberToBoolean (argv_h number argv)
  || includes_help number (argv__ number argv).

(** Both roots are given. *)
Definition hasRoots {number : Type} (numberToBoolean : number -> bool)
  (argv : ParsedArgs number) : bool :=
  toBoolean number numberToBoolean (argv_s number argv)
  && toBoolean number numberToBoolean (argv_t number argv).

(** ** Components of a path *)

(** [s.split('/')] *)
Fixpoint split_slash (s : jsstring) : list jsstring :=
  match s with
  | [] => [[]]
  | c :: s' =>
      if Ascii.eqb c CHAR_FORWARD_SLASH then [] :: split_slash s'
      else
        match split_slash s' with
        | h :: t => (c :: h) :: t
        | [] => [[c]]
        end
  end.

(** [cs.join('/')] *)
Fixpoint join_slash (cs : list jsstring) : jsstring :=
  match cs with
  | [] => []
  | [c] => c
  | c :: cs' => c ++ slash ++ join_slash cs'
  end.

(** A component that leads one step down: not empty, without slash, and
    neither [.] nor [..]. *)
Definition segment (c : jsstring) : bool :=
  negb (len c =? 0) && no_slash c && negb (str_eqb c (js ".")) && negb (str_eqb c (js "..")).

(** A descending relative path: segments separated by single slashes. *)
Definition descending (r : jsstring) : bool := forallb segment (split_slash r).

(** What [normalizeString] does with one component, on the components kept
    so far, the last one first. *)
Definition norm_step (allowAboveRoot : bool) (kept : list jsstring) (c : jsstring)
  : list jsstring :=
  if (len c =? 0) || str_eqb c (js ".") then kept
  else if str_eqb c (js "..") then
    match kept with
    | t :: kept' =>
        if str_eqb t (js "..") then (if allowAboveRoot then c :: kept else kept) else kept'
    | [] => if allowAboveRoot then [c] else []
    end
  else c :: kept.

(** The components kept for a path. *)
Definition norm_components (allowAboveRoot : bool) (kept : list jsstring) (p : jsstring)
  : list jsstring :=
  fold_left (norm_step allowAboveRoot) (split_slash p) kept.

(** The string of the components kept. *)
Definition render (kept : list jsstring) : jsstring := join_slash (rev kept).

(** [dots] after the characters of a component. *)
Definition dots_after (d : Z) (c : jsstring) : Z :=
  fold_left (fun d x => if Ascii.eqb x CHAR_DOT && negb (d =? -1) then d + 1 else -1) c d.

(** The last character read, [code]. *)
Definition code_after (x : ascii) (c : jsstring) : ascii := fold_left (fun _ y => y) c x.

(** The length of the component kept last, [lastSegmentLength]. *)
Definition toplen (kept : list jsstring) : Z :=
  match kept with
  | t :: _ => len t
  | [] => 0
  end.

(** The components kept are not empty and hold no slash. *)
Definition kept_ok (kept : list jsstring) : Prop :=
  Forall (fun c => no_slash c = true /\ c <> []) kept.

(** The iteration of [normalizeString] on a separator: the branch
    [if (isPathSeparator(code))] of the body. *)
Definition on_separator (path : jsstring) (allowAboveRoot : bool) (i : Z) (st : NormState)
  : LoopCtl NormState :=
  let c := CHAR_FORWARD_SLASH in
  if (lastSlash st =? i - 1) || (dots st =? 1) then
    norm_next i (res st) (lastSegmentLength st) c
  else if dots st =? 2 then
    let above :=
      if allowAboveRoot then
        norm_next i
          (res st ++ (if len (res st) >? 0 then js "/.." else js ".."))
          2 c
      else norm_next i (res st) (lastSegmentLength st) c in
    if (len (res st) <? 2)
       || negb (lastSegmentLength st =? 2)
       || negb (code_is CHAR_DOT (charCodeAt (res st) (len (res st) - 1)))
       || negb (code_is CHAR_DOT (charCodeAt (res st) (len (res st) - 2)))
    then
      if len (res st) >? 2 then
        let lastSlashIndex := lastIndexOf (res st) CHAR_FORWARD_SLASH in
        if lastSlashIndex =? -1 then norm_next i [] 0 c
        else
          let r := slice (res st) 0 lastSlashIndex in
          norm_next i r (len r - 1 - lastIndexOf r CHAR_FORWARD_SLASH) c
      else if negb (len (res st) =? 0) then norm_next i [] 0 c
      else above
    else above
  else
    let seg := slice path (lastSlash st + 1) i in
    norm_next i
      (if len (res st) >? 0 then res st ++ [CHAR_FORWARD_SLASH] ++ seg else seg)
      (i - lastSlash st - 1) c.

(** The components kept are segments, on top of a run of [..] that is
    there only when the path may rise above its start. *)
Definition normal (allowAboveRoot : bool) (kept : list jsstring) : Prop :=
  exists segs k, kept = segs ++ repeat (js "..") k
                 /\ forallb segment segs = true
                 /\ (k = 0%nat \/ allowAboveRoot = true).

(** [p] starts with a slash. *)
Definition isAbsolute (p : jsstring) : bool :=
  code_is CHAR_FORWARD_SLASH (charCodeAt p 0).

(** The components of the absolute path of [p]: what [path.resolve] keeps
    of [cwd] and [p]. *)
Definition absolute_components (cwd p : jsstring) : list jsstring :=
  if isAbsolute p then norm_components false [] p
  else norm_components false (norm_components false [] cwd) p.

(** The absolute path [R] followed by the relative path [r]. *)
Definition extend (R r : jsstring) : jsstring :=
  (if str_eqb R slash then R else R ++ slash) ++ r.

(** [p] lies below the directory [rootDir]: its absolute path is the one
    of [rootDir] followed by a descending path. *)
Definition strictly_inside (cwd rootDir p : jsstring) : Prop :=
  exists r, descending r = true
            /\ NodePath.resolve cwd [p] = extend (NodePath.resolve cwd [rootDir]) r.

(** [p] is the directory [rootDir] or lies below it. *)
Definition inside (cwd rootDir p : jsstring) : Prop :=
  NodePath.resolve cwd [p] = NodePath.resolve cwd [rootDir] \/ strictly_inside cwd rootDir p.


(** Neither directory is the other one or lies below it. *)
Definition apart (cwd a b : jsstring) : Prop := ~ inside cwd a b /\ ~ inside cwd b a.

(** ** Where a call reads and writes *)

(** A path in the directory [d]: [d], a slash and a segment, or a segment
    after the root when [d] is the root. *)
Definition child (d p : jsstring) : Prop :=
  exists n, segment n = true /\ (p = d ++ slash ++ n \/ (d = slash /\ p = slash ++ n)).

(** [f] describes a listed file of the directory [d] whose name is a
    segment. *)
Definition entry_in (d : jsstring) (f : ParsedFile) : Prop :=
  listed_in d f /\ segment (base f) = true.

(** A call that reads in a directory of [Src] and writes in a directory of
    [Tgt], or makes a directory of [Mk]. *)
Definition call_in (Src Tgt Mk : jsstring -> Prop) (c : Call) : Prop :=
  match c with
  | MkdirSync p => Mk p
  | RenameFile f m => segment (m ++ ext f) = true /\ exists d, Tgt d /\ entry_in d f
  | CopyFile s t =>
      (exists d, Src d /\ entry_in d s)
      /\ (exists d, Tgt d /\ placed_in d t /\ segment (base t) = true)
  | OnProgress _ => True
  end.

(** The same for a write of the [fs] module. *)
Definition write_in (Src Tgt Mk : jsstring -> Prop) (w : FsWrite) : Prop :=
  match w with
  | FsMkdir p => Mk p
  | FsRename oldPath newPath => exists d, Tgt d /\ child d oldPath /\ child d newPath
  | FsCopyFile src dest => (exists d, Src d /\ child d src) /\ (exists d, Tgt d /\ child d dest)
  end.

(** The keys of the collisions are listed files of directories of [Src],
    their candidates listed files of directories of [Tgt]. *)
Definition collisions_in (Src Tgt : jsstring -> Prop)
  (l : list (ParsedFile * list ParsedFile)) : Prop :=
  Forall (fun e => (exists d, Src d /\ entry_in d (fst e))
                   /\ Forall (fun c => exists d, Tgt d /\ entry_in d c) (snd e)) l.

(** The names of a listing are names of directory entries: segments. *)
Definition named_entries (entries : list Dirent) : Prop :=
  Forall (fun dirent => segment (dirent_name dirent) = true) entries.

(** The stems of the files of a listing are segments too: none is [.] or
    [..], as the stems of [..x] and [...] are. *)
Definition plain_stems (entries : list Dirent) : Prop :=
  Forall (fun f => segment (name f) = true) (listFiles entries).

(** What a call of [syncDir] reads, with such names. *)
Definition tree_input (input : DirInput) : Prop :=
  named_entries (source_entries input) /\ plain_stems (source_entries input)
  /\ named_entries (target_entries input).

(** The files built from the names of a listing, and from the names of a
    listing of source files. *)
Definition from_entries (files : list ParsedFile) : Prop :=
  Forall (fun f => exists n, segment n = true /\ f = new_ParsedFile n) files.

Definition from_source_entries (files : list ParsedFile) : Prop :=
  Forall (fun f => exists n, segment n = true /\ segment (name f) = true
                             /\ f = new_ParsedFile n) files.

(** The paths that a write creates, replaces or removes. *)
Definition written (w : FsWrite) : list jsstring :=
  match w with
  | FsMkdir p => [p]
  | FsRename oldPath newPath => [oldPath; newPath]
  | FsCopyFile _ dest => [dest]
  end.

(** The directories in the tree of [rootDir], as the program names them. *)
Definition directory_in (cwd rootDir d : jsstring) : Prop := d <> [] /\ inside cwd rootDir d.
(* ================================================================== *)
(** * Strings: basic facts *)

Lemma str_eqb_eq (a b : jsstring) : str_eqb a b = true <-> a = b.
Proof.
  revert b; induction a as [|x a IH]; intros [|y b]; simpl; split; intros H;
    try reflexivity; try discriminate.
  - apply andb_true_iff in H as [Hx Hs].
    apply Ascii.eqb_eq in Hx. apply IH in Hs. congruence.
  - injection H as -> ->. rewrite Ascii.eqb_refl. simpl. now apply IH.
Qed.

Lemma str_eqb_refl (a : jsstring) : str_eqb a a = true.
Proof. now apply str_eqb_eq. Qed.

Lemma str_eqb_neq (a b : jsstring) : str_eqb a b = false <-> a <> b.
Proof.
  split; intros H.
  - intros E. apply str_eqb_eq in E. congruence.
  - destruct (str_eqb a b) eqn:E; [|reflexivity].
    apply str_eqb_eq in E. contradiction.
Qed.

Lemma startsWith_spec (s p : jsstring) :
  startsWith s p = true <-> exists rest, s = p ++ rest.
Proof.
  revert s; induction p as [|x p IH]; intros s; simpl.
  - split; [intros _; now exists s | reflexivity].
  - destruct s as [|y s].
    + split; [discriminate | intros [r Hr]; discriminate].
    + rewrite andb_true_iff, Ascii.eqb_eq, IH. split.
      * intros [-> [r ->]]. now exists r.
      * intros [r Hr]. injection Hr as -> ->. split; [reflexivity | now exists r].
Qed.

Lemma len_nonneg (s : jsstring) : 0 <= len s.
Proof. unfold len. lia. Qed.

Lemma len_zero_iff (s : jsstring) : (len s =? 0) = true <-> s = [].
Proof.
  unfold len. rewrite Z.eqb_eq. destruct s; simpl; split; intros H;
    try reflexivity; try discriminate; lia.
Qed.

Lemma len_app (a b : jsstring) : len (a ++ b) = len a + len b.
Proof. unfold len. rewrite length_app. lia. Qed.

Lemma slice_middle (a b c : jsstring) :
  slice (a ++ b ++ c) (len a) (len a + len b) = b.
Proof.
  unfold slice, len. rewrite Nat2Z.id.
  replace (Z.to_nat (Z.of_nat (length a) + Z.of_nat (length b) - Z.of_nat (length a)))
    with (length b) by lia.
  rewrite skipn_app, skipn_all, Nat.sub_diag. simpl.
  rewrite firstn_app, firstn_all, Nat.sub_diag. simpl. now rewrite app_nil_r.
Qed.

Lemma slice_prefix (a b : jsstring) : slice (a ++ b) 0 (len a) = a.
Proof.
  unfold slice, len. simpl. rewrite Z.sub_0_r, Nat2Z.id.
  rewrite firstn_app, firstn_all, Nat.sub_diag. simpl. now rewrite app_nil_r.
Qed.

(* ================================================================== *)
(** * The shipped predicate *)

Lemma syncRegex_class_spec (c : ascii) : syncRegex_class c = negb (isAsciiAlnum c).
Proof. destruct c as [[] [] [] [] [] [] [] []]; reflexivity. Qed.

Lemma replace_syncRegex_normalized (s : jsstring) : replace_syncRegex s = normalized s.
Proof.
  induction s as [|c s IH]; simpl; [reflexivity|].
  rewrite syncRegex_class_spec. destruct (isAsciiAlnum c); simpl; now rewrite IH.
Qed.

Lemma areSyncable_spec (s t : ParsedFile) :
  areSyncable s t = true <-> exists rest, normalized (name s) = normalized (name t) ++ rest.
Proof.
  unfold areSyncable. rewrite !replace_syncRegex_normalized. apply startsWith_spec.
Qed.

Lemma normalized_nil_iff (stem : jsstring) :
  normalized stem = [] <-> Forall (fun c => isAsciiAlnum c = false) stem.
Proof.
  unfold normalized. induction stem as [|c s IH]; simpl.
  - split; [constructor | reflexivity].
  - destruct (isAsciiAlnum c) eqn:E; split; intros H.
    + discriminate.
    + inversion H; congruence.
    + constructor; [assumption | now apply IH].
    + inversion H; now apply IH.
Qed.

(* ================================================================== *)
(** * Sorting by a key, longest first *)

Section SortDescending.

Context {A : Type} (key : A -> Z).

Let compare (a b : A) : Z := key b - key a.

Lemma sort_insert_perm (x : A) (l : list A) :
  Permutation (x :: l) (sort_insert compare x l).
Proof.
  induction l as [|y l IH]; simpl; [apply Permutation_refl|].
  destruct (compare x y <=? 0); [apply Permutation_refl|].
  eapply Permutation_trans; [apply perm_swap|]. now apply perm_skip.
Qed.

Lemma sort_perm (l : list A) : Permutation l (sort compare l).
Proof.
  induction l as [|x l IH]; simpl; [constructor|].
  eapply Permutation_trans; [|apply sort_insert_perm]. now apply perm_skip.
Qed.

Lemma sort_insert_sorted (x : A) (l : list A) :
  StronglySorted (fun a b => key b <= key a) l ->
  StronglySorted (fun a b => key b <= key a) (sort_insert compare x l).
Proof.
  induction l as [|y l IH]; simpl; intros Hs.
  - repeat constructor.
  - inversion Hs as [|? ? Hl Hy]; subst.
    destruct (compare x y <=? 0) eqn:E; unfold compare in E.
    + apply Z.leb_le in E. constructor; [assumption|].
      constructor; [lia|]. eapply Forall_impl; [|exact Hy]. simpl. intros; lia.
    + apply Z.leb_gt in E. constructor; [now apply IH|].
      eapply Permutation_Forall; [apply sort_insert_perm|].
      constructor; [lia | assumption].
Qed.

Lemma sort_sorted (l : list A) :
  StronglySorted (fun a b => key b <= key a) (sort compare l).
Proof.
  induction l as [|x l IH]; simpl; [constructor | now apply sort_insert_sorted].
Qed.



Lemma sort_nil_iff (l : list A) : sort compare l = [] <-> l = [].
Proof.
  split; intros H; [|now subst].
  destruct l; [reflexivity|]. exfalso.
  apply (Permutation_nil_cons (l := l) (x := a)).
  rewrite <- H. apply Permutation_sym, sort_perm.
Qed.

(** The first element of the sorted list is the first of the elements of
    greatest key. *)
Lemma sort_first (l : list A) (h : A) :
  nth_error (sort compare l) 0 = Some h ->
  exists l1 l2, l = l1 ++ h :: l2
                /\ Forall (fun g => key g < key h) l1
                /\ Forall (fun g => key g <= key h) l2.
Proof.
  revert h; induction l as [|x l IH]; simpl; intros h Hh; [discriminate|].
  destruct (sort compare l) as [|y ys] eqn:Es.
  - apply (proj1 (sort_nil_iff l)) in Es. subst l. simpl in Hh. injection Hh as <-.
    exists [], []. repeat split; constructor.
  - destruct (IH y eq_refl) as (l1 & l2 & -> & H1 & H2).
    simpl in Hh. destruct (compare x y <=? 0) eqn:E; unfold compare in E;
      simpl in Hh; injection Hh as <-.
    + apply Z.leb_le in E. exists [], (l1 ++ y :: l2). split; [reflexivity|].
      split; [constructor|]. apply Forall_app. split.
      * eapply Forall_impl; [|exact H1]. simpl; intros; lia.
      * constructor; [lia|]. eapply Forall_impl; [|exact H2]. simpl; intros; lia.
    + apply Z.leb_gt in E. exists (x :: l1), l2. split; [reflexivity|].
      split; [constructor; [lia | assumption] | assumption].
Qed.

End SortDescending.

(* ================================================================== *)
(** * The collision resolver: how the two maps grow *)

Lemma byNameLenDesc_key (a b : ParsedFile) : byNameLenDesc a b = stemLength b - stemLength a.
Proof. reflexivity. Qed.

Lemma unclaimed_In (toRename : list (ParsedFile * jsstring)) (candidates : list ParsedFile)
  (c : ParsedFile) :
  In c (unclaimed toRename candidates)
  <-> In c candidates /\ forall f, In f (map fst toRename) -> equal f c = false.
Proof.
  unfold unclaimed. rewrite filter_In. split; intros [Hc H]; split; try assumption.
  - intros f Hf. apply negb_true_iff in H.
    destruct (equal f c) eqn:E; [|reflexivity].
    assert (existsb (fun file => equal file c) (map fst toRename) = true)
      by (apply existsb_exists; eauto).
    congruence.
  - apply negb_true_iff. destruct (existsb _ _) eqn:E; [|reflexivity].
    apply existsb_exists in E as (f & Hf & Ef). rewrite (H f Hf) in Ef. discriminate.
Qed.

Lemma fileToRename_first (toRename : list (ParsedFile * jsstring))
  (candidates : list ParsedFile) (file : ParsedFile) :
  fileToRename toRename candidates = Some file ->
  exists l1 l2, unclaimed toRename candidates = l1 ++ file :: l2
                /\ Forall (fun g => (length (name g) < length (name file))%nat) l1
                /\ Forall (fun g => (length (name g) <= length (name file))%nat) l2.
Proof.
  unfold fileToRename. intros H.
  destruct (sort_first stemLength _ _ H) as (l1 & l2 & E & H1 & H2).
  exists l1, l2. split; [exact E|]. unfold stemLength, len in *. split.
  - eapply Forall_impl; [|exact H1]. simpl; intros; lia.
  - eapply Forall_impl; [|exact H2]. simpl; intros; lia.
Qed.

Lemma fileToRename_None (toRename : list (ParsedFile * jsstring))
  (candidates : list ParsedFile) :
  fileToRename toRename candidates = None <-> unclaimed toRename candidates = [].
Proof.
  unfold fileToRename. split; intros H.
  - apply (sort_nil_iff stemLength).
    destruct (sort _ _) eqn:E; [reflexivity | discriminate].
  - rewrite H. reflexivity.
Qed.

Lemma fileToRename_In (toRename : list (ParsedFile * jsstring))
  (candidates : list ParsedFile) (file : ParsedFile) :
  fileToRename toRename candidates = Some file ->
  In file candidates /\ forall f, In f (map fst toRename) -> equal f file = false.
Proof.
  intros H. destruct (fileToRename_first _ _ _ H) as (l1 & l2 & E & _).
  apply unclaimed_In. rewrite E. apply in_elt.
Qed.

Lemma resolveKey_fold (cwd sourceRoot targetRoot : jsstring)
  (entries : list (ParsedFile * list ParsedFile)) :
  forall toRename toCopy,
  exists decisions : list (option ParsedFile),
    Forall2 (fun e d => match d with Some file => In file (snd e) | None => True end)
      entries decisions
    /\ fold_left (resolveKey cwd sourceRoot targetRoot) entries (toRename, toCopy)
       = (toRename ++ renamesOf (combine entries decisions),
          toCopy ++ copiesOf cwd sourceRoot targetRoot (combine entries decisions)).
Proof.
  induction entries as [|[s cands] entries IH]; intros toRename toCopy.
  - exists []. split; [constructor|]. simpl. now rewrite !app_nil_r.
  - simpl. destruct (fileToRename toRename cands) as [file|] eqn:E.
    + destruct (IH (toRename ++ [(file, name s)]) toCopy) as (ds & HF & Hfold).
      exists (Some file :: ds). split.
      * constructor; [|assumption]. simpl. now apply (fileToRename_In toRename).
      * rewrite Hfold. unfold renamesOf, copiesOf. simpl. now rewrite <- app_assoc.
    + destruct (IH toRename (toCopy ++ [(s, withParentDirectory (relativeTo cwd s sourceRoot) targetRoot)]))
        as (ds & HF & Hfold).
      exists (None :: ds). split.
      * constructor; [exact I | assumption].
      * rewrite Hfold. unfold renamesOf, copiesOf, mirrored. simpl. now rewrite <- app_assoc.
Qed.

Lemma resolveKey_fold_grows (cwd sourceRoot targetRoot : jsstring)
  (entries : list (ParsedFile * list ParsedFile)) toRename toCopy :
  exists moreRename moreCopy,
    fold_left (resolveKey cwd sourceRoot targetRoot) entries (toRename, toCopy)
    = (toRename ++ moreRename, toCopy ++ moreCopy).
Proof.
  destruct (resolveKey_fold cwd sourceRoot targetRoot entries toRename toCopy) as (ds & _ & E).
  eauto.
Qed.

Lemma resolveCollisions_calls (cwd sourceRoot targetRoot : jsstring)
  (collisions : list (ParsedFile * list ParsedFile)) (postfix : jsstring) :
  resolveCollisions cwd sourceRoot targetRoot collisions postfix
  = renameCalls postfix (fst (decideCollisions cwd sourceRoot targetRoot collisions))
    ++ copyCalls postfix (snd (decideCollisions cwd sourceRoot targetRoot collisions)).
Proof.
  unfold resolveCollisions.
  destruct (decideCollisions cwd sourceRoot targetRoot collisions) as [toRename toCopy].
  reflexivity.
Qed.


Lemma copyCalls_In (postfix : jsstring) (toCopy : list (ParsedFile * ParsedFile))
  (s t : ParsedFile) :
  In (s, t) toCopy ->
  In (CopyFile s (withName t (name t ++ js " " ++ postfix))) (copyCalls postfix toCopy).
Proof.
  intros H. unfold copyCalls. apply in_flat_map. exists (s, t). split; [assumption|].
  simpl. now left.
Qed.

(** The decision taken for the key that follows [pre] in the visiting
    order is still there at the end. *)
Lemma decideCollisions_split (cwd sourceRoot targetRoot : jsstring)
  (collisions pre post : list (ParsedFile * list ParsedFile)) (entry : ParsedFile * list ParsedFile) :
  sortedCollisions collisions = pre ++ entry :: post ->
  exists moreRename moreCopy,
    decideCollisions cwd sourceRoot targetRoot collisions
    = (fst (resolveKey cwd sourceRoot targetRoot
              (fold_left (resolveKey cwd sourceRoot targetRoot) pre ([], [])) entry) ++ moreRename,
       snd (resolveKey cwd sourceRoot targetRoot
              (fold_left (resolveKey cwd sourceRoot targetRoot) pre ([], [])) entry) ++ moreCopy).
Proof.
  intros E. unfold decideCollisions. rewrite E, fold_left_app. simpl.
  destruct (resolveKey cwd sourceRoot targetRoot
              (fold_left (resolveKey cwd sourceRoot targetRoot) pre ([], [])) entry) as [tr tc].
  apply resolveKey_fold_grows.
Qed.

(* ================================================================== *)
(** * What [path.parse] computes *)

Lemma no_slash_app (a b : jsstring) : no_slash (a ++ b) = no_slash a && no_slash b.
Proof. apply forallb_app. Qed.

Lemma rev_slashes (k : nat) : rev (slashes k) = slashes k.
Proof.
  unfold slashes. apply (nth_ext _ _ CHAR_FORWARD_SLASH CHAR_FORWARD_SLASH).
  - now rewrite length_rev.
  - intros n Hn. rewrite length_rev, repeat_length in Hn.
    rewrite rev_nth by (now rewrite repeat_length).
    rewrite !nth_repeat. reflexivity.
Qed.

(** The part of the loop that skips the trailing slashes. *)
Lemma parse_loop_trailing (k : nat) (codes : list ascii) (i : Z) (st : ParseScan) :
  matchedSlash st = true ->
  parse_loop (slashes k ++ codes) i st = parse_loop codes (i - Z.of_nat k) st.
Proof.
  intros Hm. revert i. induction k as [|k IH]; intros i.
  - simpl. f_equal. lia.
  - simpl. unfold parse_body. rewrite Ascii.eqb_refl, Hm. simpl.
    unfold slashes in IH. rewrite IH. f_equal. lia.
Qed.

(** The iterations over a stretch without slash never leave the loop. *)
Lemma parse_body_no_slash (i : Z) (c : ascii) (st : ParseScan) :
  Ascii.eqb c CHAR_FORWARD_SLASH = false ->
  exists st', parse_body i c st = Continue st'.
Proof.
  intros Hc. unfold parse_body. rewrite Hc.
  repeat match goal with |- context [if ?b then _ else _] => destruct b end; eauto.
Qed.

Lemma parse_loop_app (xs ys : list ascii) :
  no_slash xs = true ->
  forall i st, parse_loop (xs ++ ys) i st = parse_loop ys (i - len xs) (parse_loop xs i st).
Proof.
  induction xs as [|c xs IH]; intros Hx i st.
  - simpl. f_equal. unfold len. simpl. lia.
  - simpl in Hx. apply andb_true_iff in Hx as [Hc Hx]. apply negb_true_iff in Hc.
    simpl. destruct (parse_body_no_slash i c st Hc) as [st' ->].
    rewrite (IH Hx). f_equal. unfold len. simpl length. lia.
Qed.

Lemma parse_loop_component (b : jsstring) :
  b <> [] -> no_slash b = true ->
  forall i, 0 <= i + 1 - len b ->
  parse_loop (rev b) i parse_init
  = mkParseScan (fst (dot_scan b (i + 1 - len b))) 0 (i + 1) false
      (snd (dot_scan b (i + 1 - len b))).
Proof.
  induction b as [|c b IH]; intros Hne Hb i Hi; [congruence|].
  simpl in Hb. apply andb_true_iff in Hb as [Hc Hb]. apply negb_true_iff in Hc.
  assert (El : len (c :: b) = len b + 1) by (unfold len; simpl length; lia).
  rewrite El in *.
  replace (i + 1 - (len b + 1)) with (i - len b) by lia.
  simpl rev. simpl dot_scan.
  destruct b as [|c' b'].
  - simpl. unfold parse_body. rewrite Hc. simpl.
    unfold len; simpl. replace (i - 0) with i by lia.
    destruct (Ascii.eqb c CHAR_DOT); reflexivity.
  - set (b := c' :: b') in *.
    assert (Hr : no_slash (rev b) = true).
    { unfold no_slash in *. rewrite forallb_forall in *. intros x Hx.
      apply Hb. now apply in_rev. }
    rewrite (parse_loop_app _ _ Hr).
    rewrite IH; [|subst b; discriminate|assumption|lia].
    replace (len (rev b)) with (len b) by (unfold len; now rewrite length_rev).
    replace (i + 1 - len b) with (i - len b + 1) by lia.
    destruct (dot_scan b (i - len b + 1)) as [sd ps]. simpl.
    unfold parse_body. rewrite Hc. simpl.
    assert (E1 : (i + 1 =? -1) = false) by (apply Z.eqb_neq; pose proof (len_nonneg b); lia).
    rewrite E1.
    destruct (Ascii.eqb c CHAR_DOT); simpl.
    + destruct (sd =? -1) eqn:Es; simpl; [reflexivity|].
      destruct (ps =? 1) eqn:Ep; simpl; [|reflexivity].
      apply Z.eqb_eq in Ep. now subst.
    + destruct (sd =? -1) eqn:Es; simpl; reflexivity.
Qed.

Lemma last_dot_Some (b a t : jsstring) :
  last_dot b = Some (a, t) -> b = a ++ CHAR_DOT :: t.
Proof.
  revert a t; induction b as [|c b IH]; simpl; intros a t H; [discriminate|].
  destruct (last_dot b) as [[a' t']|].
  - injection H as <- <-. simpl. f_equal. now apply IH.
  - destruct (Ascii.eqb c CHAR_DOT) eqn:E; [|discriminate].
    injection H as <- <-. apply Ascii.eqb_eq in E. now subst.
Qed.

Lemma dot_scan_last_dot (b : jsstring) :
  forall sp, 0 <= sp ->
  dot_scan b sp
  = match last_dot b with
    | None => (-1, 0)
    | Some (a, _) =>
        (sp + len a,
         match a with
         | [] => 0
         | c :: _ => if Ascii.eqb c CHAR_DOT then 1 else -1
         end)
    end.
Proof.
  induction b as [|c b IH]; intros sp Hsp; simpl; [reflexivity|].
  rewrite IH by lia. destruct (last_dot b) as [[a t]|].
  - assert (E : (sp + 1 + len a =? -1) = false)
      by (apply Z.eqb_neq; pose proof (len_nonneg a); lia).
    rewrite E. replace (len (c :: a)) with (1 + len a) by (unfold len; simpl length; lia).
    destruct (Ascii.eqb c CHAR_DOT); f_equal; lia.
  - simpl. destruct (Ascii.eqb c CHAR_DOT); [|reflexivity].
    f_equal. unfold len; simpl; lia.
Qed.

Lemma stem_ext_app (first : bool) (b : jsstring) :
  fst (stem_ext first b) ++ snd (stem_ext first b) = b.
Proof.
  unfold stem_ext. destruct (last_dot b) as [[a t]|] eqn:E; simpl.
  - apply last_dot_Some in E. destruct a as [|c a']; simpl.
    + now rewrite app_nil_r.
    + destruct (_ && _); simpl; [now rewrite app_nil_r | now subst].
  - now rewrite app_nil_r.
Qed.

Lemma parse_unfold (path : jsstring) :
  path <> [] ->
  parse path
  = let isAbsolute := code_is CHAR_FORWARD_SLASH (charCodeAt path 0) in
    parse_finish path isAbsolute
      (parse_loop (rev (skipn (Z.to_nat (if isAbsolute then 1 else 0)) path))
         (len path - 1) parse_init).
Proof.
  intros H. unfold parse.
  destruct (len path =? 0) eqn:E; [apply len_zero_iff in E; contradiction|].
  reflexivity.
Qed.

(** After the loop has found the last component [b], which follows [pre]
    and is followed by [tr]. *)
Lemma parse_finish_component (pre b tr : jsstring) (isAbsolute : bool) (sPart : Z) :
  b <> [] ->
  (if (sPart =? 0) && isAbsolute then 1 else sPart) = len pre ->
  (sPart = len pre \/ sPart < len pre) ->
  parse_finish (pre ++ b ++ tr) isAbsolute
    (mkParseScan (fst (dot_scan b (len pre))) sPart (len pre + len b) false
       (snd (dot_scan b (len pre))))
  = mkParsedPath
      (if isAbsolute then [CHAR_FORWARD_SLASH] else [])
      (if sPart >? 0 then slice (pre ++ b ++ tr) 0 (sPart - 1)
       else if isAbsolute then [CHAR_FORWARD_SLASH] else [])
      b
      (snd (stem_ext (sPart =? len pre) b))
      (fst (stem_ext (sPart =? len pre) b)).
Proof.
  intros Hb Hstart Hs. unfold parse_finish.
  cbn [end_ startPart startDot preDotState].
  assert (Hlb : 0 < len b) by (unfold len; destruct b; [congruence | simpl length; lia]).
  pose proof (len_nonneg pre) as Hlp.
  assert (E1 : (len pre + len b =? -1) = false) by (apply Z.eqb_neq; lia).
  rewrite E1, Hstart. cbn [negb].
  rewrite slice_middle.
  rewrite dot_scan_last_dot by lia. unfold stem_ext.
  destruct (last_dot b) as [[a t]|] eqn:El; cbn [fst snd]; [|reflexivity].
  apply last_dot_Some in El.
  pose proof (len_nonneg a) as Hla. pose proof (len_nonneg t) as Hlt.
  assert (Hlenb : len b = len a + 1 + len t)
    by (subst b; rewrite len_app; unfold len; simpl length; lia).
  assert (Hext : slice (pre ++ b ++ tr) (len pre + len a) (len pre + len b) = CHAR_DOT :: t).
  { replace (pre ++ b ++ tr) with ((pre ++ a) ++ (CHAR_DOT :: t) ++ tr)
      by (subst b; now rewrite <- !app_assoc).
    replace (len pre + len a) with (len (pre ++ a)) by apply len_app.
    replace (len pre + len b) with (len (pre ++ a) + len (CHAR_DOT :: t))
      by (rewrite Hlenb, len_app; unfold len; simpl length; lia).
    apply slice_middle. }
  assert (Hname : slice (pre ++ b ++ tr) (len pre) (len pre + len a) = a).
  { replace (pre ++ b ++ tr) with (pre ++ a ++ (CHAR_DOT :: t) ++ tr)
      by (subst b; now rewrite <- !app_assoc).
    apply slice_middle. }
  rewrite Hext, Hname.
  assert (E2 : (len pre + len a =? -1) = false) by (apply Z.eqb_neq; lia).
  rewrite E2. cbn [orb].
  destruct a as [|c a'].
  - reflexivity.
  - assert (Hlen : len (c :: a') = 1 + len a') by (unfold len; simpl length; lia).
    pose proof (len_nonneg a') as Hla'.
    rewrite Hlenb, Hlen.
    destruct (Ascii.eqb c CHAR_DOT) eqn:Ec; cbn [andb orb Z.eqb]; [|reflexivity].
    destruct (Z.eqb_spec (len t) 0) as [Et|Et];
      destruct (Z.eqb_spec (len a') 0) as [Ea|Ea];
      destruct (Z.eqb_spec sPart (len pre)) as [Es|Es];
      destruct (Z.eqb_spec (len pre + (1 + len a')) (len pre + (1 + len a' + 1 + len t) - 1));
      destruct (Z.eqb_spec (len pre + (1 + len a')) (sPart + 1));
      cbn [andb]; try reflexivity; lia.
Qed.

Lemma no_slash_head (b rest : jsstring) :
  b <> [] -> no_slash b = true ->
  code_is CHAR_FORWARD_SLASH (charCodeAt (b ++ rest) 0) = false.
Proof.
  destruct b as [|c b]; [congruence|]. intros _ H. simpl in H.
  apply andb_true_iff in H as [H _]. apply negb_true_iff in H. exact H.
Qed.

Lemma no_slash_rev (b : jsstring) : no_slash (rev b) = no_slash b.
Proof.
  unfold no_slash. destruct (forallb _ b) eqn:E.
  - rewrite forallb_forall in *. intros x Hx. apply E. now apply in_rev.
  - destruct (forallb _ (rev b)) eqn:E'; [|reflexivity].
    rewrite forallb_forall in E'.
    assert (forallb (fun c => negb (c =? CHAR_FORWARD_SLASH)%char) b = true)
      by (apply forallb_forall; intros x Hx; apply E'; now apply in_rev in Hx).
    congruence.
Qed.

Lemma len_slashes (k : nat) : len (slashes k) = Z.of_nat k.
Proof. unfold len, slashes. now rewrite repeat_length. Qed.

(** [parse] on a path of slashes only. *)
Lemma parse_slashes (k : nat) :
  parse (slashes (S k)) = mkParsedPath slash slash [] [] [].
Proof.
  rewrite parse_unfold by discriminate. cbn zeta.
  change (code_is CHAR_FORWARD_SLASH (charCodeAt (slashes (S k)) 0)) with true.
  cbn iota. change (skipn (Z.to_nat 1) (slashes (S k))) with (slashes k).
  rewrite rev_slashes. rewrite <- (app_nil_r (slashes k)).
  rewrite parse_loop_trailing by reflexivity. reflexivity.
Qed.

(** [parse] on a single component, possibly followed by slashes. *)
Lemma parse_relative_single (b : jsstring) (k : nat) :
  b <> [] -> no_slash b = true ->
  parse (b ++ slashes k)
  = mkParsedPath [] [] b (snd (stem_ext true b)) (fst (stem_ext true b)).
Proof.
  intros Hne Hb.
  rewrite parse_unfold by (destruct b; [congruence | discriminate]). cbn zeta.
  rewrite (no_slash_head b _ Hne Hb). cbn iota.
  change (skipn (Z.to_nat 0) (b ++ slashes k)) with (b ++ slashes k).
  rewrite rev_app_distr, rev_slashes.
  rewrite parse_loop_trailing by reflexivity.
  rewrite len_app, len_slashes.
  rewrite parse_loop_component by (try assumption; lia).
  replace (len b + Z.of_nat k - 1 - Z.of_nat k + 1 - len b) with (len []) by (unfold len; simpl; lia).
  replace (len b + Z.of_nat k - 1 - Z.of_nat k + 1) with (len [] + len b) by (unfold len; simpl; lia).
  change (b ++ slashes k) with ([] ++ b ++ slashes k).
  rewrite (parse_finish_component [] b (slashes k) false 0 Hne);
    [reflexivity | reflexivity | now left].
Qed.

(** [parse] on a single component under the root. *)
Lemma parse_absolute_single (b : jsstring) (k : nat) :
  b <> [] -> no_slash b = true ->
  parse (slash ++ b ++ slashes k)
  = mkParsedPath slash slash b (snd (stem_ext false b)) (fst (stem_ext false b)).
Proof.
  intros Hne Hb.
  rewrite parse_unfold by discriminate. cbn zeta.
  change (code_is CHAR_FORWARD_SLASH (charCodeAt (slash ++ b ++ slashes k) 0)) with true.
  cbn iota. change (skipn (Z.to_nat 1) (slash ++ b ++ slashes k)) with (b ++ slashes k).
  rewrite rev_app_distr, rev_slashes.
  rewrite parse_loop_trailing by reflexivity.
  rewrite !len_app, len_slashes. change (len slash) with 1.
  rewrite parse_loop_component by (try assumption; lia).
  replace (1 + (len b + Z.of_nat k) - 1 - Z.of_nat k + 1 - len b) with (len slash)
    by (change (len slash) with 1; lia).
  replace (1 + (len b + Z.of_nat k) - 1 - Z.of_nat k + 1) with (len slash + len b)
    by (change (len slash) with 1; lia).
  rewrite (parse_finish_component slash b (slashes k) true 0 Hne);
    [reflexivity | reflexivity | right; change (len slash) with 1; lia].
Qed.

(** [parse] on a directory, a slash and a component. *)
Lemma parse_dir_base (d b : jsstring) (k : nat) :
  d <> [] -> b <> [] -> no_slash b = true ->
  parse (d ++ slash ++ b ++ slashes k)
  = mkParsedPath (root_of d) d b (snd (stem_ext true b)) (fst (stem_ext true b)).
Proof.
  intros Hd Hne Hb.
  rewrite parse_unfold by (destruct d; [congruence | discriminate]). cbn zeta.
  assert (Hroot : code_is CHAR_FORWARD_SLASH (charCodeAt (d ++ slash ++ b ++ slashes k) 0)
                  = code_is CHAR_FORWARD_SLASH (charCodeAt d 0))
    by (destruct d; [congruence | reflexivity]).
  rewrite Hroot. fold (root_of d).
  set (start := Z.to_nat (if code_is CHAR_FORWARD_SLASH (charCodeAt d 0) then 1 else 0)).
  assert (Hstart : (start <= length d)%nat).
  { subst start. destruct d; [congruence|]. simpl length.
    destruct (code_is _ _); simpl; lia. }
  assert (Hskip : skipn start (d ++ slash ++ b ++ slashes k)
                  = skipn start d ++ slash ++ b ++ slashes k).
  { rewrite skipn_app. replace (start - length d)%nat with 0%nat by lia. reflexivity. }
  rewrite Hskip.
  replace (rev (skipn start d ++ slash ++ b ++ slashes k))
    with (slashes k ++ rev b ++ slash ++ rev (skipn start d))
    by (rewrite !rev_app_distr, rev_slashes, <- !app_assoc; reflexivity).
  rewrite parse_loop_trailing by reflexivity.
  rewrite parse_loop_app by (now rewrite no_slash_rev).
  rewrite !len_app, len_slashes. change (len slash) with 1.
  replace (len (rev b)) with (len b) by (unfold len; now rewrite length_rev).
  pose proof (len_nonneg d) as Hld.
  rewrite parse_loop_component by (try assumption; lia).
  cbn [app slash parse_loop]. unfold parse_body at 1.
  rewrite Ascii.eqb_refl. cbn [matchedSlash negb startDot end_ preDotState].
  replace (len d + (1 + (len b + Z.of_nat k)) - 1 - Z.of_nat k + 1 - len b)
    with (len (d ++ slash)) by (rewrite len_app; change (len slash) with 1; lia).
  replace (len d + (1 + (len b + Z.of_nat k)) - 1 - Z.of_nat k - len b + 1)
    with (len d + 1) by lia.
  replace (len d + (1 + (len b + Z.of_nat k)) - 1 - Z.of_nat k + 1)
    with (len (d ++ slash) + len b) by (rewrite len_app; change (len slash) with 1; lia).
  replace (d ++ CHAR_FORWARD_SLASH :: b ++ slashes k) with ((d ++ slash) ++ b ++ slashes k)
    by (now rewrite <- app_assoc).
  assert (Hpart : (if (len d + 1 =? 0) && code_is CHAR_FORWARD_SLASH (charCodeAt d 0)
                   then 1 else len d + 1) = len (d ++ slash)).
  { rewrite len_app. change (len slash) with 1.
    destruct (Z.eqb_spec (len d + 1) 0); [lia | reflexivity]. }
  rewrite (parse_finish_component (d ++ slash) b (slashes k) _ (len d + 1) Hne Hpart)
    by (left; rewrite len_app; change (len slash) with 1; lia).
  assert (Hgt : (len d + 1 >? 0) = true) by (apply Z.gtb_lt; lia).
  rewrite Hgt.
  replace (len d + 1 - 1) with (len d) by lia.
  rewrite <- app_assoc, slice_prefix.
  replace (len d + 1 =? len (d ++ slash)) with true
    by (symmetry; apply Z.eqb_eq; rewrite len_app; change (len slash) with 1; lia).
  reflexivity.
Qed.

(* ================================================================== *)
(** * The shapes of a path *)

Lemma span_slashes (l : list ascii) :
  exists k rest, l = slashes k ++ rest
                 /\ code_is CHAR_FORWARD_SLASH (charCodeAt rest 0) = false.
Proof.
  induction l as [|c l (k & rest & -> & H)].
  - exists 0%nat, []. split; reflexivity.
  - destruct (Ascii.eqb c CHAR_FORWARD_SLASH) eqn:E.
    + apply Ascii.eqb_eq in E. subst c. exists (S k), rest. split; [reflexivity | exact H].
    + exists 0%nat, (c :: slashes k ++ rest). split; [reflexivity | exact E].
Qed.

Lemma span_component (l : list ascii) :
  exists b rest, l = b ++ rest /\ no_slash b = true
                 /\ code_is CHAR_FORWARD_SLASH (charCodeAt rest 0) = negb (len rest =? 0).
Proof.
  induction l as [|c l (b & rest & -> & Hb & H)].
  - exists [], []. repeat split.
  - destruct (Ascii.eqb c CHAR_FORWARD_SLASH) eqn:E.
    + exists [], (c :: b ++ rest). repeat split. simpl. exact E.
    + exists (c :: b), rest. split; [reflexivity|]. split; [|exact H].
      simpl. now rewrite E, Hb.
Qed.

Lemma path_shape (p : jsstring) : Shape p.
Proof.
  destruct (span_slashes (rev p)) as (k & rest & E & Hrest).
  assert (Ep : p = rev rest ++ slashes k).
  { rewrite <- (rev_involutive p), E, rev_app_distr, rev_slashes. reflexivity. }
  destruct (span_component rest) as (xb & rest' & E' & Hxb & Hrest').
  destruct rest as [|c rest0].
  - simpl in Ep. subst p. destruct k; [apply shape_empty | apply shape_slashes].
  - assert (Hne : xb <> []).
    { intros ->. simpl in E'. subst rest'. rewrite Hrest in Hrest'. discriminate. }
    assert (Hb : rev xb <> []).
    { intros H. apply Hne. rewrite <- (rev_involutive xb), H. reflexivity. }
    rewrite E', rev_app_distr, <- app_assoc in Ep.
    destruct rest' as [|c' r].
    + simpl in Ep. subst p. apply shape_relative; [assumption | now rewrite no_slash_rev].
    + simpl in Hrest'. apply Ascii.eqb_eq in Hrest'. subst c'.
      simpl in Ep. rewrite <- app_assoc in Ep.
      destruct (rev r) as [|x d'] eqn:Er.
      * subst p. apply shape_absolute; [assumption | now rewrite no_slash_rev].
      * subst p. apply (shape_nested (x :: d')); [discriminate | assumption|].
        now rewrite no_slash_rev.
Qed.

(* ================================================================== *)
(** * Path descriptors: construction and formatting *)

Lemma fullPath_cases (f : ParsedFile) :
  fullPath f
  = let d := if negb (len (dir f) =? 0) then dir f else root f in
    if len d =? 0 then base f
    else if str_eqb d (root f) then d ++ base f
    else d ++ slash ++ base f.
Proof.
  unfold fullPath, format, base.
  destruct (len (name f ++ ext f) =? 0) eqn:E; [|reflexivity].
  apply len_zero_iff in E. cbn [negb]. reflexivity.
Qed.

Lemma fullPath_in_dir (f : ParsedFile) :
  dir f <> [] -> dir f <> root f -> fullPath f = dir f ++ slash ++ base f.
Proof.
  intros Hd Hr. rewrite fullPath_cases. cbn zeta.
  destruct (len (dir f) =? 0) eqn:E; [apply len_zero_iff in E; contradiction|].
  cbn [negb]. rewrite E. apply str_eqb_neq in Hr. now rewrite Hr.
Qed.

Lemma fullPath_at_root (f : ParsedFile) :
  dir f <> [] -> dir f = root f -> fullPath f = dir f ++ base f.
Proof.
  intros Hd Hr. rewrite fullPath_cases. cbn zeta.
  destruct (len (dir f) =? 0) eqn:E; [apply len_zero_iff in E; contradiction|].
  cbn [negb]. rewrite E, <- Hr, str_eqb_refl. reflexivity.
Qed.

Lemma fullPath_bare (f : ParsedFile) :
  dir f = [] -> root f = [] -> fullPath f = base f.
Proof. intros Hd Hr. rewrite fullPath_cases, Hd, Hr. reflexivity. Qed.

Lemma fullPath_root_only (f : ParsedFile) :
  dir f = [] -> root f <> [] -> fullPath f = root f ++ base f.
Proof.
  intros Hd Hr. rewrite fullPath_cases, Hd. cbn.
  destruct (len (root f) =? 0) eqn:E; [apply len_zero_iff in E; contradiction|].
  now rewrite str_eqb_refl.
Qed.

Lemma base_component (first : bool) (rt d b : jsstring) : base (component first rt d b) = b.
Proof. apply stem_ext_app. Qed.

Lemma new_slashes (k : nat) :
  new_ParsedFile (slashes (S k)) = mkParsedFile slash slash [] [].
Proof. unfold new_ParsedFile. now rewrite parse_slashes. Qed.

Lemma new_relative (b : jsstring) (k : nat) :
  b <> [] -> no_slash b = true ->
  new_ParsedFile (b ++ slashes k) = component true [] [] b.
Proof. intros. unfold new_ParsedFile. now rewrite parse_relative_single. Qed.

Lemma new_absolute (b : jsstring) (k : nat) :
  b <> [] -> no_slash b = true ->
  new_ParsedFile (slash ++ b ++ slashes k) = component false slash slash b.
Proof. intros. unfold new_ParsedFile. now rewrite parse_absolute_single. Qed.

Lemma new_nested (d b : jsstring) (k : nat) :
  d <> [] -> b <> [] -> no_slash b = true ->
  new_ParsedFile (d ++ slash ++ b ++ slashes k) = component true (root_of d) d b.
Proof. intros. unfold new_ParsedFile. now rewrite parse_dir_base. Qed.

Lemma root_of_eq (d : jsstring) : d <> [] -> (d = root_of d <-> d = slash).
Proof.
  intros Hd. unfold root_of. destruct d as [|c d]; [congruence|]. simpl.
  destruct (Ascii.eqb c CHAR_FORWARD_SLASH) eqn:E.
  - apply Ascii.eqb_eq in E. subst c. reflexivity.
  - split; [discriminate|]. intros H. injection H as -> _. discriminate.
Qed.

Lemma ends_with_slash_slashes (x : jsstring) (k : nat) :
  ends_with_slash (x ++ slashes (S k)) = true.
Proof. unfold ends_with_slash. rewrite rev_app_distr, rev_slashes. reflexivity. Qed.

Lemma ends_with_slash_component (x b : jsstring) :
  b <> [] -> no_slash b = true -> ends_with_slash (x ++ b) = false.
Proof.
  intros Hne Hb. unfold ends_with_slash. rewrite rev_app_distr.
  apply no_slash_head; [|now rewrite no_slash_rev].
  intros H. apply Hne. rewrite <- (rev_involutive b), H. reflexivity.
Qed.

Lemma double_slash_name_component (b rest : jsstring) :
  b <> [] -> no_slash b = true -> double_slash_name (b ++ rest) = false.
Proof.
  destruct b as [|c b]; [congruence|]. intros _ H. simpl in H.
  apply andb_true_iff in H as [H _]. apply negb_true_iff in H.
  simpl. destruct (b ++ rest); [reflexivity|]. now rewrite H.
Qed.

Lemma no_slash_slash (x y : jsstring) : no_slash (x ++ slash ++ y) = false.
Proof. rewrite no_slash_app. simpl. now rewrite andb_false_r. Qed.

Lemma len_le_1 (p : jsstring) : (len p <=? 1) = true -> p = [] \/ exists c, p = [c].
Proof.
  intros H. apply Z.leb_le in H. unfold len in H.
  destruct p as [|c [|c' p]]; [now left | right; now exists c | simpl length in H; lia].
Qed.

Lemma well_formed_trailing (x : jsstring) (k : nat) :
  x <> [] -> well_formed (x ++ slashes (S k)) = false.
Proof.
  intros Hx. unfold well_formed. rewrite ends_with_slash_slashes. cbn [negb andb].
  rewrite orb_false_r. apply Z.leb_gt. rewrite len_app, len_slashes.
  assert (0 < len x) by (unfold len; destruct x; [congruence | simpl length; lia]). lia.
Qed.

(** The round trip holds exactly on the well-formed paths. *)
Lemma roundtrip_iff (p : jsstring) :
  fullPath (new_ParsedFile p) = p <-> well_formed p = true.
Proof.
  destruct (path_shape p) as [|k|b k Hne Hb|b k Hne Hb|d b k Hd Hne Hb].
  - split; reflexivity.
  - rewrite new_slashes. change (fullPath (mkParsedFile slash slash [] [])) with slash.
    destruct k as [|k].
    + split; reflexivity.
    + split; [discriminate|].
      change (slashes (S (S k))) with (slash ++ slashes (S k)).
      rewrite well_formed_trailing; discriminate.
  - rewrite new_relative by assumption.
    rewrite fullPath_bare, base_component by reflexivity.
    destruct k as [|k].
    + change (slashes 0) with (@nil ascii). rewrite app_nil_r. split; [|reflexivity].
      intros _. unfold well_formed.
      rewrite <- (app_nil_l b) at 2. rewrite ends_with_slash_component by assumption.
      rewrite <- (app_nil_r b) at 2. rewrite double_slash_name_component by assumption.
      now rewrite orb_true_r.
    + split.
      * intros H. rewrite <- (app_nil_r b) in H at 1. apply app_inv_head in H. discriminate.
      * rewrite well_formed_trailing by assumption. discriminate.
  - rewrite new_absolute by assumption.
    rewrite fullPath_at_root, base_component by (try reflexivity; discriminate).
    cbn [dir component].
    destruct k as [|k].
    + change (slashes 0) with (@nil ascii). rewrite app_nil_r. split; [|reflexivity].
      intros _. unfold well_formed.
      rewrite ends_with_slash_component by assumption.
      replace (double_slash_name (slash ++ b)) with false.
      * now rewrite orb_true_r.
      * destruct b as [|c b]; [congruence|]. simpl in Hb.
        apply andb_true_iff in Hb as [Hc _]. apply negb_true_iff in Hc.
        simpl. now rewrite Hc.
    + split.
      * intros H. apply app_inv_head in H. rewrite <- (app_nil_r b) in H at 1.
        apply app_inv_head in H. discriminate.
      * rewrite app_assoc, well_formed_trailing; discriminate.
  - rewrite new_nested by assumption.
    assert (Hwf_k : forall k', well_formed (d ++ slash ++ b ++ slashes (S k')) = false).
    { intros k'.
      replace (d ++ slash ++ b ++ slashes (S k')) with ((d ++ slash ++ b) ++ slashes (S k'))
        by (now rewrite <- !app_assoc).
      apply well_formed_trailing. destruct d; [congruence | discriminate]. }
    destruct (list_eq_dec ascii_dec d slash) as [Es|Es].
    + subst d. change (root_of slash) with slash.
      rewrite fullPath_at_root, base_component by (try reflexivity; discriminate).
      cbn [dir component]. split.
      * intros H. apply (f_equal (@length ascii)) in H.
        rewrite !length_app in H. simpl length in H. lia.
      * destruct k as [|k]; [|now rewrite Hwf_k].
        change (slashes 0) with (@nil ascii). rewrite app_nil_r.
        unfold well_formed.
        replace (double_slash_name (slash ++ slash ++ b)) with true
          by (simpl; now rewrite Hb).
        cbn [negb]. rewrite andb_false_r, orb_false_r.
        intros H. apply len_le_1 in H as [H|[c H]]; discriminate.
    + assert (Hr : d <> root_of d) by (intros H; apply root_of_eq in H; auto).
      rewrite fullPath_in_dir, base_component by assumption.
      cbn [dir component].
      destruct k as [|k].
      * change (slashes 0) with (@nil ascii). rewrite app_nil_r. split; [|reflexivity].
        intros _. unfold well_formed.
        replace (d ++ slash ++ b) with ((d ++ slash) ++ b) by (now rewrite <- app_assoc).
        rewrite ends_with_slash_component by assumption.
        replace (double_slash_name ((d ++ slash) ++ b)) with false.
        -- now rewrite orb_true_r.
        -- rewrite <- app_assoc.
           destruct d as [|c1 [|c2 d]]; [congruence| |].
           ++ simpl. destruct (Ascii.eqb c1 CHAR_FORWARD_SLASH) eqn:E; [|reflexivity].
              apply Ascii.eqb_eq in E. subst c1. now contradiction Es.
           ++ cbn [app double_slash_name]. rewrite no_slash_slash.
              now rewrite !andb_false_r.
      * rewrite Hwf_k. split; [|discriminate].
        intros H. exfalso.
        assert (E1 : ends_with_slash (d ++ slash ++ b) = false).
        { replace (d ++ slash ++ b) with ((d ++ slash) ++ b) by (now rewrite <- app_assoc).
          now apply ends_with_slash_component. }
        rewrite H in E1.
        replace (d ++ slash ++ b ++ slashes (S k)) with ((d ++ slash ++ b) ++ slashes (S k)) in E1
          by (now rewrite <- !app_assoc).
        rewrite ends_with_slash_slashes in E1. discriminate.
Qed.

(* ================================================================== *)
(** * Descriptors of listed files *)

Lemma valid_name_spec (n : jsstring) :
  valid_name n = true -> n <> [] /\ no_slash n = true /\ n <> js "..".
Proof.
  unfold valid_name. intros H.
  apply andb_true_iff in H as [H H3]. apply andb_true_iff in H as [H1 H2].
  apply negb_true_iff in H1, H3. repeat split.
  - intros ->. discriminate.
  - exact H2.
  - now apply str_eqb_neq.
Qed.

Lemma stem_ext_first (b : jsstring) : b <> js ".." -> stem_ext false b = stem_ext true b.
Proof.
  intros Hb. unfold stem_ext.
  destruct (last_dot b) as [[a t]|] eqn:E; [|reflexivity].
  destruct a as [|c a']; [reflexivity|].
  rewrite andb_false_r, andb_true_r.
  destruct (Ascii.eqb c CHAR_DOT && (len t =? 0) && (len a' =? 0)) eqn:Ec; [|reflexivity].
  exfalso. apply Hb. apply last_dot_Some in E.
  apply andb_true_iff in Ec as [Ec E3]. apply andb_true_iff in Ec as [E1 E2].
  apply Ascii.eqb_eq in E1. apply len_zero_iff in E2, E3. subst. reflexivity.
Qed.

Lemma normalize_nonempty (p : jsstring) : NodePath.normalize p <> [].
Proof.
  unfold NodePath.normalize.
  destruct (len p =? 0); [discriminate|].
  destruct (len (NodePath.normalizeString p _) =? 0) eqn:E.
  - destruct (code_is _ _); [discriminate|]. destruct (code_is _ _); discriminate.
  - assert (Hn : NodePath.normalizeString p
                   (negb (code_is CHAR_FORWARD_SLASH (charCodeAt p 0))) <> []).
    { intros H. rewrite H in E. discriminate. }
    destruct (code_is CHAR_FORWARD_SLASH (charCodeAt p 0)); [discriminate|].
    destruct (code_is _ _); [|exact Hn].
    intros H. apply app_eq_nil in H as [H _]. contradiction.
Qed.

Lemma join_nonempty (args : list jsstring) : NodePath.join args <> [].
Proof.
  unfold NodePath.join. destruct (NodePath.join_args args None);
    [apply normalize_nonempty | discriminate].
Qed.

Lemma describes_base (n : jsstring) (f : ParsedFile) : describes n f -> base f = n.
Proof. intros (_ & Hn & He). unfold base. rewrite Hn, He. apply stem_ext_app. Qed.

Lemma root_of_cases (d : jsstring) : root_of d = [] \/ root_of d = slash.
Proof. unfold root_of. destruct (code_is _ _); [now right | now left]. Qed.

(** Parsing the full path of such a descriptor again gives its name and
    extension back and, when it has a directory, this directory. *)
Lemma reparse (n : jsstring) (f : ParsedFile) :
  valid_name n = true -> describes n f ->
  exists rt d,
    new_ParsedFile (fullPath f) = mkParsedFile rt d (name f) (ext f)
    /\ (rt = [] \/ rt = slash)
    /\ (dir f <> [] -> d = dir f /\ rt = root_of (dir f)).
Proof.
  intros Hv Hf. pose proof (describes_base n f Hf) as Hbase.
  destruct Hf as (Hroot & Hn & He).
  apply valid_name_spec in Hv as (Hne & Hns & Hdd).
  assert (Habs : new_ParsedFile (slash ++ n) = mkParsedFile slash slash (name f) (ext f)).
  { rewrite <- (app_nil_r n). change (@nil ascii) with (slashes 0).
    rewrite new_absolute by assumption. unfold component.
    rewrite stem_ext_first by assumption. now rewrite Hn, He. }
  destruct (list_eq_dec ascii_dec (dir f) []) as [Ed|Ed].
  - destruct Hroot as [Er|Er].
    + rewrite fullPath_bare, Hbase by assumption.
      exists [], []. split; [|split; [now left | congruence]].
      rewrite <- (app_nil_r n). change (@nil ascii) with (slashes 0).
      rewrite new_relative by assumption. unfold component. now rewrite Hn, He.
    + rewrite fullPath_root_only, Hbase, Er by (congruence || (rewrite Er; discriminate)).
      exists slash, slash. split; [exact Habs | split; [now right | congruence]].
  - destruct (list_eq_dec ascii_dec (dir f) (root f)) as [Edr|Edr].
    + rewrite fullPath_at_root, Hbase by assumption.
      assert (Es : dir f = slash) by (destruct Hroot as [Er|Er]; congruence).
      rewrite Es. exists slash, slash.
      split; [exact Habs | split; [now right | intros _; now split]].
    + rewrite fullPath_in_dir, Hbase by assumption.
      exists (root_of (dir f)), (dir f). split; [|split; [apply root_of_cases | now split]].
      rewrite <- (app_nil_r n). change (@nil ascii) with (slashes 0).
      rewrite new_nested by assumption. unfold component. now rewrite Hn, He.
Qed.

Lemma new_listed (n : jsstring) :
  valid_name n = true -> new_ParsedFile n = component true [] [] n.
Proof.
  intros Hv. apply valid_name_spec in Hv as (Hne & Hns & _).
  rewrite <- (app_nil_r n) at 1. change (@nil ascii) with (slashes 0).
  now apply new_relative.
Qed.

Lemma describes_component (n rt d : jsstring) :
  rt = [] \/ rt = slash -> describes n (component true rt d n).
Proof. intros H. repeat split; assumption. Qed.

(** [withParentDirectory] keeps what the descriptor describes and sets the
    directory. *)
Lemma withParentDirectory_describes (n : jsstring) (f : ParsedFile) (d : jsstring) :
  valid_name n = true -> describes n f ->
  describes n (withParentDirectory f d)
  /\ dir (withParentDirectory f d) = NodePath.join [d; dir f].
Proof.
  intros Hv Hf. destruct (reparse n f Hv Hf) as (rt & d' & E & Hrt & _).
  unfold withParentDirectory. rewrite E. cbn [root dir name ext].
  destruct Hf as (_ & Hn & He). repeat split; assumption.
Qed.

(** The candidate built from the listed name [n] of the directory [d]. *)
Lemma withParentDirectory_listed (n d : jsstring) :
  valid_name n = true ->
  withParentDirectory (new_ParsedFile n) d = component true [] (NodePath.join [d; []]) n.
Proof.
  intros Hv. rewrite new_listed by assumption.
  unfold withParentDirectory.
  rewrite fullPath_bare, base_component by reflexivity.
  rewrite new_listed by assumption. reflexivity.
Qed.

Lemma fullPath_listed (n d : jsstring) :
  d <> [] -> fullPath (component true [] d n) = d ++ slash ++ n.
Proof.
  intros Hd. rewrite fullPath_in_dir, base_component; [reflexivity | exact Hd|].
  cbn [dir root component]. exact Hd.
Qed.

(** [withName] in a directory: the directory and the extension stay. *)
Lemma withName_describes (n : jsstring) (f : ParsedFile) (m : jsstring) :
  valid_name n = true -> describes n f -> dir f <> [] ->
  withName f m = mkParsedFile (root_of (dir f)) (dir f) m (ext f).
Proof.
  intros Hv Hf Hd. destruct (reparse n f Hv Hf) as (rt & d' & E & _ & Hdir).
  destruct (Hdir Hd) as [-> ->].
  unfold withName. rewrite E. reflexivity.
Qed.

Lemma relativeTo_describes (cwd n : jsstring) (f : ParsedFile) (d : jsstring) :
  valid_name n = true -> describes n f ->
  describes n (relativeTo cwd f d)
  /\ dir (relativeTo cwd f d) = NodePath.relative cwd d (dir f).
Proof.
  intros Hv Hf. destruct (reparse n f Hv Hf) as (rt & d' & E & Hrt & _).
  unfold relativeTo. rewrite E. cbn [root dir name ext].
  destruct Hf as (_ & Hn & He). repeat split; assumption.
Qed.

Lemma fullPath_under (f : ParsedFile) :
  dir f <> [] -> (root f = [] \/ root f = slash) -> base f <> [] ->
  under (dir f) (fullPath f).
Proof.
  intros Hd Hr Hb. exists (base f). split; [exact Hb|].
  destruct (list_eq_dec ascii_dec (dir f) (root f)) as [E|E].
  - right. rewrite fullPath_at_root by assumption.
    assert (Es : dir f = slash) by (destruct Hr; congruence).
    rewrite Es. now split.
  - left. now apply fullPath_in_dir.
Qed.

(* ================================================================== *)
(** * Properties of the shipped predicate *)

(** C6.  The shipped predicate holds exactly when the normalized source stem
    (the stem without the characters that are not ASCII letters or digits)
    starts with the normalized target stem.  For the source stem
    [Report_2024], normalized to [Report2024], the target [Report] matches
    and the target [Report2024_final] does not. *)
Theorem areSyncable_normalized_prefix :
  (forall sourceFile targetFile : ParsedFile,
      areSyncable sourceFile targetFile = true
      <-> exists rest,
          normalized (name sourceFile) = normalized (name targetFile) ++ rest)
  /\ normalized (js "Report_2024") = js "Report2024"
  /\ (forall r d e r' d' e' : jsstring,
         areSyncable (mkParsedFile r d (js "Report_2024") e)
           (mkParsedFile r' d' (js "Report") e') = true)
  /\ (forall r d e r' d' e' : jsstring,
         areSyncable (mkParsedFile r d (js "Report_2024") e)
           (mkParsedFile r' d' (js "Report2024_final") e') = false).
Proof.
  split; [exact areSyncable_spec|].
  split; [reflexivity|].
  split; intros; reflexivity.
Qed.

(** C10.  A target file whose stem holds no ASCII letter or digit has the
    empty normalized name, so the shipped predicate holds for it against
    every source file: in [syncDir] it passes the predicate filter of every
    source file of its directory, and it is among the candidates of every
    source file processed while it is not in [resolved]. *)
Theorem empty_normalized_target_matches (sourceFile target : ParsedFile) :
  Forall (fun c => isAsciiAlnum c = false) (name target) ->
  normalized (name target) = []
  /\ areSyncable sourceFile target = true
  /\ forall (targetDir : jsstring) (targetFiles resolved : list ParsedFile),
      In target targetFiles ->
      In (withParentDirectory target targetDir)
        (map (fun candidate => withParentDirectory candidate targetDir)
           (filter (fun candidate => areSyncable sourceFile candidate) targetFiles))
      /\ (existsb (fun file => equal file (withParentDirectory target targetDir)) resolved
          = false ->
          In (withParentDirectory target targetDir)
            (targetCandidates targetDir areSyncable targetFiles resolved sourceFile)).
Proof.
  intros Hstem. apply normalized_nil_iff in Hstem.
  assert (Hs : areSyncable sourceFile target = true).
  { apply areSyncable_spec. rewrite Hstem. now exists (normalized (name sourceFile)). }
  split; [exact Hstem|]. split; [exact Hs|].
  intros targetDir targetFiles resolved Hin.
  assert (Hmap : In (withParentDirectory target targetDir)
                   (map (fun candidate => withParentDirectory candidate targetDir)
                      (filter (fun candidate => areSyncable sourceFile candidate) targetFiles))).
  { apply (in_map (fun candidate => withParentDirectory candidate targetDir)).
    apply filter_In. now split. }
  split; [exact Hmap|].
  intros Hres. unfold targetCandidates. apply filter_In. split; [exact Hmap|].
  now rewrite Hres.
Qed.

Lemma empty_normalized_target_matches_witness :
  areSyncable (new_ParsedFile (js "notes.txt")) (new_ParsedFile (js "___.txt")) = true
  /\ In (withParentDirectory (new_ParsedFile (js "___.txt")) (js "tgt"))
       (targetCandidates (js "tgt") areSyncable
          [new_ParsedFile (js "a.txt"); new_ParsedFile (js "___.txt")] []
          (new_ParsedFile (js "notes.txt"))).
Proof.
  destruct (empty_normalized_target_matches
              (new_ParsedFile (js "notes.txt")) (new_ParsedFile (js "___.txt")))
    as (_ & Hs & Hc).
  - repeat constructor.
  - split; [exact Hs|].
    apply (Hc (js "tgt") [new_ParsedFile (js "a.txt"); new_ParsedFile (js "___.txt")] []).
    + right. now left.
    + reflexivity.
Defined.

(* ================================================================== *)
(** * Properties of the collision resolver *)




Lemma filter_renameCalls (postfix : jsstring) (toRename : list (ParsedFile * jsstring)) :
  filter isAction (renameCalls postfix toRename)
  = map (fun e => RenameFile (fst e) (snd e ++ js " " ++ postfix)) toRename.
Proof. induction toRename as [|e l IH]; simpl; [reflexivity | now rewrite IH]. Qed.

Lemma filter_copyCalls (postfix : jsstring) (toCopy : list (ParsedFile * ParsedFile)) :
  filter isAction (copyCalls postfix toCopy)
  = map (fun e => CopyFile (fst e) (withName (snd e) (name (snd e) ++ js " " ++ postfix)))
      toCopy.
Proof. induction toCopy as [|e l IH]; simpl; [reflexivity | now rewrite IH]. Qed.

Lemma resolutionCalls_perm (cwd sourceRoot targetRoot postfix : jsstring)
  (l : list ((ParsedFile * list ParsedFile) * option ParsedFile)) :
  Permutation
    (map (fun e => RenameFile (fst e) (snd e ++ js " " ++ postfix)) (renamesOf l)
     ++ map (fun e => CopyFile (fst e) (withName (snd e) (name (snd e) ++ js " " ++ postfix)))
          (copiesOf cwd sourceRoot targetRoot l))
    (map (resolutionCall cwd sourceRoot targetRoot postfix) l).
Proof.
  induction l as [|[e [file|]] l IH]; simpl.
  - constructor.
  - apply perm_skip. exact IH.
  - apply Permutation_sym. apply Permutation_cons_app. apply Permutation_sym. exact IH.
Qed.

(** The calls that [resolveCollisions] sets out to make: up to their
    order, the renames and copies of its two last loops are one call per
    key, which is either the rename of one of the candidates of the key or
    the postfixed copy of the source file.  Whether the run reaches them
    all is another matter: a call that throws ends it. *)
Theorem collision_totality
  (cwd sourceRoot targetRoot : jsstring)
  (collisions : list (ParsedFile * list ParsedFile)) (postfix : jsstring) :
  Permutation collisions (sortedCollisions collisions)
  /\ exists decisions : list (option ParsedFile),
      Forall2 (fun e d => match d with Some file => In file (snd e) | None => True end)
        (sortedCollisions collisions) decisions
      /\ Permutation
           (filter isAction (resolveCollisions cwd sourceRoot targetRoot collisions postfix))
           (map (resolutionCall cwd sourceRoot targetRoot postfix)
              (combine (sortedCollisions collisions) decisions)).
Proof.
  split; [apply (sort_perm (fun e : ParsedFile * list ParsedFile => stemLength (fst e)))|].
  destruct (resolveKey_fold cwd sourceRoot targetRoot (sortedCollisions collisions) [] [])
    as (decisions & HF & Hfold).
  exists decisions. split; [exact HF|].
  rewrite resolveCollisions_calls. unfold decideCollisions. rewrite Hfold. cbn [fst snd app].
  rewrite filter_app, filter_renameCalls, filter_copyCalls.
  apply resolutionCalls_perm.
Qed.

(* ================================================================== *)
(** * Properties of the path descriptor *)

Lemma last_dot_None (b : jsstring) :
  Forall (fun c => c <> CHAR_DOT) b -> last_dot b = None.
Proof.
  induction 1 as [|c b Hc Hb IH]; simpl; [reflexivity|].
  rewrite IH. destruct (Ascii.eqb c CHAR_DOT) eqn:E; [|reflexivity].
  apply Ascii.eqb_eq in E. contradiction.
Qed.

Lemma stem_ext_no_dot (first : bool) (b : jsstring) :
  Forall (fun c => c <> CHAR_DOT) b -> stem_ext first b = (b, []).
Proof. intros H. unfold stem_ext. now rewrite last_dot_None. Qed.

Lemma new_ParsedFile_no_dot (p : jsstring) :
  Forall (fun c => c <> CHAR_DOT) p ->
  ext (new_ParsedFile p) = [] /\ name (new_ParsedFile p) = base (new_ParsedFile p).
Proof.
  intros Hp. unfold base.
  destruct (path_shape p) as [|k|b k Hne Hb|b k Hne Hb|d b k Hd Hne Hb].
  - split; reflexivity.
  - rewrite new_slashes. split; reflexivity.
  - rewrite new_relative by assumption.
    apply Forall_app in Hp as [Hp _]. unfold component. cbn [ext name].
    rewrite stem_ext_no_dot by assumption. cbn [fst snd]. now rewrite app_nil_r.
  - rewrite new_absolute by assumption.
    apply Forall_app in Hp as [_ Hp]. apply Forall_app in Hp as [Hp _].
    unfold component. cbn [ext name].
    rewrite stem_ext_no_dot by assumption. cbn [fst snd]. now rewrite app_nil_r.
  - rewrite new_nested by assumption.
    apply Forall_app in Hp as [_ Hp]. apply Forall_app in Hp as [_ Hp].
    apply Forall_app in Hp as [Hp _].
    unfold component. cbn [ext name].
    rewrite stem_ext_no_dot by assumption. cbn [fst snd]. now rewrite app_nil_r.
Qed.

(** C8.  The constructor of [ParsedFile] decomposes every path string; a
    path without dot gets the empty extension and its whole last component
    as name.  The full path of the descriptor built from [p] is [p] exactly
    when [p] is well formed: empty, a single character, or a path that
    neither ends with a slash nor is [//name].  ([a/] comes back as [a],
    [//a] as [/a].) *)
Theorem ParsedFile_roundtrip :
  (forall p : jsstring, exists r d n e, new_ParsedFile p = mkParsedFile r d n e)
  /\ (forall p : jsstring,
         Forall (fun c => c <> CHAR_DOT) p ->
         ext (new_ParsedFile p) = [] /\ name (new_ParsedFile p) = base (new_ParsedFile p))
  /\ (forall p : jsstring, well_formed p = true -> fullPath (new_ParsedFile p) = p)
  /\ (forall p : jsstring, well_formed p = false -> fullPath (new_ParsedFile p) <> p)
  /\ fullPath (new_ParsedFile (js "a/")) = js "a"
  /\ fullPath (new_ParsedFile (js "//a")) = js "/a".
Proof.
  split; [|split; [|split; [|split; [|split]]]].
  - intros p. destruct (new_ParsedFile p) as [r d n e]. now exists r, d, n, e.
  - exact new_ParsedFile_no_dot.
  - intros p H. now apply roundtrip_iff.
  - intros p H E. apply roundtrip_iff in E. congruence.
  - reflexivity.
  - reflexivity.
Qed.

Lemma ParsedFile_roundtrip_witness :
  fullPath (new_ParsedFile (js "/home/user/photos/IMG_0001.jpeg"))
  = js "/home/user/photos/IMG_0001.jpeg"
  /\ ext (new_ParsedFile (js "docs/Makefile")) = []
  /\ fullPath (new_ParsedFile (js "docs/")) <> js "docs/".
Proof.
  destruct ParsedFile_roundtrip as (_ & Hext & Hwf & Hnot & _).
  split; [|split].
  - apply Hwf. reflexivity.
  - apply Hext. repeat constructor; discriminate.
  - apply Hnot. reflexivity.
Defined.

(* ================================================================== *)
(** * Properties of the directory matcher *)

Lemma stem_nonempty (first : bool) (b : jsstring) : b <> [] -> fst (stem_ext first b) <> [].
Proof.
  intros Hb. unfold stem_ext. destruct (last_dot b) as [[a t]|]; [|exact Hb].
  destruct a as [|c a']; [exact Hb|].
  destruct (_ && _); [exact Hb | discriminate].
Qed.

(** The full path of a descriptor in the directory [d]. *)
Lemma fullPath_placed (d m e : jsstring) :
  d <> [] ->
  fullPath (mkParsedFile (root_of d) d m e)
  = (if str_eqb d slash then d else d ++ slash) ++ m ++ e.
Proof.
  intros Hd. destruct (str_eqb d slash) eqn:E.
  - apply str_eqb_eq in E. subst d. now rewrite fullPath_at_root.
  - apply str_eqb_neq in E. rewrite fullPath_in_dir; cbn [dir root base name ext].
    + now rewrite <- app_assoc.
    + exact Hd.
    + intros H. apply root_of_eq in H; auto.
Qed.

(** What the shipped [renameFile] does to a candidate of [syncDir]: nothing
    when the candidate has the new stem already, and otherwise a rename
    inside the directory of the candidate, which keeps its extension. *)
Lemma renameFile_candidate (t targetDir m : jsstring) :
  valid_name t = true ->
  let c := withParentDirectory (new_ParsedFile t) targetDir in
  let d := NodePath.join [targetDir; []] in
  renameFile c m
  = if str_eqb (name (new_ParsedFile t)) m then []
    else [FsRename (d ++ slash ++ t)
            ((if str_eqb d slash then d else d ++ slash) ++ m ++ ext (new_ParsedFile t))].
Proof.
  intros Hv c d. subst c.
  rewrite withParentDirectory_listed, new_listed by assumption. fold d.
  assert (Hd : d <> []) by apply join_nonempty.
  unfold renameFile. cbn [name component].
  destruct (str_eqb (fst (stem_ext true t)) m); [reflexivity|]. cbn [negb].
  rewrite fullPath_listed by assumption.
  rewrite (withName_describes t) by
    (try assumption; apply describes_component; now left).
  cbn [dir ext component]. now rewrite fullPath_placed.
Qed.

(** What the shipped [copyFile] does to a source file of [syncDir]. *)
Lemma copyFile_source (n sourceDir targetDir : jsstring) :
  valid_name n = true ->
  copyFile (withParentDirectory (new_ParsedFile n) sourceDir)
    (withParentDirectory (new_ParsedFile n) targetDir)
  = [FsCopyFile (NodePath.join [sourceDir; []] ++ slash ++ n)
       (NodePath.join [targetDir; []] ++ slash ++ n)].
Proof.
  intros Hv. unfold copyFile.
  rewrite !withParentDirectory_listed by assumption.
  rewrite !fullPath_listed by apply join_nonempty. reflexivity.
Qed.

Lemma targetCandidates_In (targetDir : jsstring) (areSyncable : SyncPredicate)
  (targetFiles resolved : list ParsedFile) (sourceFile c : ParsedFile) :
  In c (targetCandidates targetDir areSyncable targetFiles resolved sourceFile)
  <-> (exists t, In t targetFiles /\ areSyncable sourceFile t = true
                 /\ c = withParentDirectory t targetDir)
      /\ forall file, In file resolved -> equal file c = false.
Proof.
  unfold targetCandidates. rewrite filter_In, in_map_iff. split.
  - intros [[t [E H]] Hr]. apply filter_In in H as [Hin Hp]. split.
    + exists t. auto.
    + intros file Hf. apply negb_true_iff in Hr.
      destruct (equal file c) eqn:Eq; [|reflexivity].
      assert (X : existsb (fun file => equal file c) resolved = true)
        by (apply existsb_exists; eauto).
      congruence.
  - intros [[t (Hin & Hp & E)] Hr]. split.
    + exists t. split; [auto|]. apply filter_In. auto.
    + apply negb_true_iff. destruct (existsb _ resolved) eqn:X; [|reflexivity].
      apply existsb_exists in X as [file [Hf Eq]]. rewrite (Hr file Hf) in Eq. discriminate.
Qed.

Lemma filter_map_swap {A B : Type} (g : A -> B) (f : B -> bool) (l : list A) :
  filter f (map g l) = map g (filter (fun x => f (g x)) l).
Proof.
  induction l as [|x l IH]; [reflexivity|]. cbn [map filter].
  destruct (f (g x)); cbn [map]; now rewrite IH.
Qed.

Lemma filter_filter_andb {A : Type} (f g : A -> bool) (l : list A) :
  filter f (filter g l) = filter (fun x => g x && f x) l.
Proof.
  induction l as [|x l IH]; [reflexivity|]. cbn [filter].
  destruct (g x); cbn [filter andb]; [destruct (f x)|]; now rewrite IH.
Qed.

(** The candidates in the order of the target listing. *)
Lemma targetCandidates_listing (targetDir : jsstring) (areSyncable : SyncPredicate)
  (targetFiles resolved : list ParsedFile) (sourceFile : ParsedFile) :
  targetCandidates targetDir areSyncable targetFiles resolved sourceFile
  = map (fun t => withParentDirectory t targetDir)
      (filter (fun t => areSyncable sourceFile t
                        && negb (existsb (fun file => equal file (withParentDirectory t targetDir))
                                   resolved))
         targetFiles).
Proof.
  unfold targetCandidates. now rewrite filter_map_swap, filter_filter_andb.
Qed.

(** C2.  [syncDir] runs [syncFile] on every source file, in listing order.
    The [candidates] of a source file are the target files that satisfy
    the predicate, moved to the target directory, and are not in
    [resolved]: a descriptor is a candidate exactly when it is such a
    target file and no resolved file has its full path, and the candidates
    come in the order of the target listing.  One candidate is appended to
    [resolved] and renamed to the source stem; no candidate makes the
    source file be copied into the target directory; two or more make no
    rename and no copy, and add to [collisions] an entry with the source
    file as key and all the candidates as value.  For listed names, the
    shipped rename stays in the directory of the candidate, takes the
    source stem and keeps the extension of the candidate (and does nothing
    when the candidate has the source stem already), and the shipped copy
    writes the source file under its own name into the target directory. *)
Theorem syncFile_cases
  (sourceDir targetDir : jsstring) (areSyncable : SyncPredicate)
  (targetFiles : list ParsedFile) (r : SyncResults) (log : list Call)
  (sourceFile : ParsedFile) :
  let candidates := targetCandidates targetDir areSyncable targetFiles (resolved r) sourceFile in
  let progress := OnProgress (fullPath (withParentDirectory sourceFile sourceDir)) in
  (forall (syncResults : option SyncResults) (input : DirInput),
      syncDir sourceDir targetDir areSyncable syncResults input
      = fold_left (syncFile sourceDir targetDir areSyncable (listFiles (target_entries input)))
          (listFiles (source_entries input))
          (match syncResults with
           | Some r0 => r0
           | None => {| resolved := []; collisions := [] |}
           end,
           if negb (target_exists input) then [MkdirSync targetDir] else []))
  /\ (forall c : ParsedFile,
         In c candidates
         <-> (exists t, In t targetFiles /\ areSyncable sourceFile t = true
                        /\ c = withParentDirectory t targetDir)
             /\ forall file, In file (resolved r) -> equal file c = false)
  /\ candidates
     = map (fun t => withParentDirectory t targetDir)
         (filter (fun t => areSyncable sourceFile t
                           && negb (existsb
                                      (fun file => equal file (withParentDirectory t targetDir))
                                      (resolved r)))
            targetFiles)
  /\ (forall c, candidates = [c] ->
         syncFile sourceDir targetDir areSyncable targetFiles (r, log) sourceFile
         = ({| resolved := resolved r ++ [c]; collisions := collisions r |},
            log ++ [RenameFile c (name sourceFile); progress]))
  /\ (candidates = [] ->
         syncFile sourceDir targetDir areSyncable targetFiles (r, log) sourceFile
         = (r, log ++ [CopyFile (withParentDirectory sourceFile sourceDir)
                         (withParentDirectory sourceFile targetDir); progress]))
  /\ (forall c1 c2 rest, candidates = c1 :: c2 :: rest ->
         syncFile sourceDir targetDir areSyncable targetFiles (r, log) sourceFile
         = ({| resolved := resolved r;
               collisions := collisions r
                             ++ [(withParentDirectory sourceFile sourceDir, candidates)] |},
            log ++ [progress]))
  /\ (forall t : jsstring,
         valid_name t = true ->
         let d := NodePath.join [targetDir; []] in
         perform (RenameFile (withParentDirectory (new_ParsedFile t) targetDir) (name sourceFile))
         = if str_eqb (name (new_ParsedFile t)) (name sourceFile) then []
           else [FsRename (d ++ slash ++ t)
                   ((if str_eqb d slash then d else d ++ slash)
                    ++ name sourceFile ++ ext (new_ParsedFile t))])
  /\ (forall n : jsstring,
         valid_name n = true -> sourceFile = new_ParsedFile n ->
         perform (CopyFile (withParentDirectory sourceFile sourceDir)
                    (withParentDirectory sourceFile targetDir))
         = [FsCopyFile (NodePath.join [sourceDir; []] ++ slash ++ n)
              (NodePath.join [targetDir; []] ++ slash ++ n)]).
Proof.
  intros candidates progress.
  split; [reflexivity|].
  split; [intros c; apply targetCandidates_In|].
  split; [apply targetCandidates_listing|].
  split; [|split; [|split; [|split]]].
  - intros c Hc. unfold syncFile. fold candidates. rewrite Hc. reflexivity.
  - intros Hc. unfold syncFile. fold candidates. rewrite Hc. reflexivity.
  - intros c1 c2 rest Hc. unfold syncFile. fold candidates. rewrite Hc. reflexivity.
  - intros t Ht d. cbn [perform]. now apply renameFile_candidate.
  - intros n Hn ->. cbn [perform]. now apply copyFile_source.
Qed.

Lemma syncFile_cases_witness :
  targetCandidates (js "tgt") areSyncable
    [new_ParsedFile (js "Rep.doc"); new_ParsedFile (js "Report.doc");
     new_ParsedFile (js "Report2024_final.doc")]
    [withParentDirectory (new_ParsedFile (js "Rep.doc")) (js "tgt")]
    (new_ParsedFile (js "Report_2024.doc"))
  = [withParentDirectory (new_ParsedFile (js "Report.doc")) (js "tgt")]
  /\ syncFile (js "src") (js "tgt") areSyncable
       [new_ParsedFile (js "Rep.doc"); new_ParsedFile (js "Report.doc");
        new_ParsedFile (js "Report2024_final.doc")]
       ({| resolved := [withParentDirectory (new_ParsedFile (js "Rep.doc")) (js "tgt")];
           collisions := [] |}, [])
       (new_ParsedFile (js "Report_2024.doc"))
     = ({| resolved := [withParentDirectory (new_ParsedFile (js "Rep.doc")) (js "tgt");
                        withParentDirectory (new_ParsedFile (js "Report.doc")) (js "tgt")];
           collisions := [] |},
        [RenameFile (withParentDirectory (new_ParsedFile (js "Report.doc")) (js "tgt"))
           (js "Report_2024");
         OnProgress (js "src/Report_2024.doc")])
  /\ perform (RenameFile (withParentDirectory (new_ParsedFile (js "Report.doc")) (js "tgt"))
                (name (new_ParsedFile (js "Report_2024.doc"))))
     = [FsRename (js "tgt/Report.doc") (js "tgt/Report_2024.doc")]
  /\ perform (CopyFile (withParentDirectory (new_ParsedFile (js "Report_2024.doc")) (js "src"))
                (withParentDirectory (new_ParsedFile (js "Report_2024.doc")) (js "tgt")))
     = [FsCopyFile (js "src/Report_2024.doc") (js "tgt/Report_2024.doc")].
Proof.
  destruct (syncFile_cases (js "src") (js "tgt") areSyncable
              [new_ParsedFile (js "Rep.doc"); new_ParsedFile (js "Report.doc");
               new_ParsedFile (js "Report2024_final.doc")]
              {| resolved := [withParentDirectory (new_ParsedFile (js "Rep.doc")) (js "tgt")];
                 collisions := [] |} []
              (new_ParsedFile (js "Report_2024.doc")))
    as (_ & _ & Hlist & Hone & _ & _ & Hren & Hcopy).
  split; [|split; [|split]].
  - cbn [resolved] in Hlist. rewrite Hlist. reflexivity.
  - apply Hone. reflexivity.
  - apply (Hren (js "Report.doc")); reflexivity.
  - apply (Hcopy (js "Report_2024.doc")); reflexivity.
Defined.

(* ================================================================== *)
(** * The fallback copy *)

(** The mirrored descriptor of a listed source file and its postfixed
    copy. *)
Lemma mirrored_describes (cwd sourceRoot targetRoot n : jsstring) (sourceFile : ParsedFile) :
  valid_name n = true -> describes n sourceFile ->
  let target := mirrored cwd sourceRoot targetRoot sourceFile in
  let d := NodePath.join [targetRoot; NodePath.relative cwd sourceRoot (dir sourceFile)] in
  describes n target /\ dir target = d
  /\ name target = name sourceFile
  /\ forall m, withName target m = mkParsedFile (root_of d) d m (ext sourceFile).
Proof.
  intros Hv Hs target d. subst target d. unfold mirrored.
  destruct (relativeTo_describes cwd n sourceFile sourceRoot Hv Hs) as [Hr Hrd].
  destruct (withParentDirectory_describes n _ targetRoot Hv Hr) as [Ht Htd].
  rewrite Hrd in Htd.
  split; [exact Ht|]. split; [exact Htd|].
  destruct Hs as (_ & Hsn & Hse). pose proof Ht as (_ & Htn & Hte).
  split; [congruence|].
  intros m. rewrite (withName_describes n) by
    (try assumption; rewrite Htd; apply join_nonempty).
  rewrite Htd. f_equal. congruence.
Qed.

Lemma unclaimed_all_claimed (toRename : list (ParsedFile * jsstring))
  (candidates : list ParsedFile) :
  (forall c, In c candidates -> exists f, In f (map fst toRename) /\ equal f c = true) ->
  unclaimed toRename candidates = [].
Proof.
  intros H. destruct (unclaimed toRename candidates) as [|c l] eqn:E; [reflexivity|].
  exfalso. assert (Hc : In c (unclaimed toRename candidates)) by (rewrite E; now left).
  apply unclaimed_In in Hc as [Hc Hn].
  destruct (H c Hc) as (f & Hf & Ef). rewrite (Hn f Hf) in Ef. discriminate.
Qed.

(** C5.  When every candidate of a key equals a file that was picked for
    rename before the key is visited, [resolveCollisions] copies the source
    file to its mirrored descriptor ([relativeTo(sourceRoot)], then
    [withParentDirectory(targetRoot)]) renamed to its stem, a space and the
    postfix.  For a key that describes a listed file, this stem is the
    source stem, the directory is [path.join(targetRoot,
    path.relative(sourceRoot, dir))] and the extension is that of the source
    file.  When two keys have the same single candidate, the key of longer
    stem gets the rename and the other one the postfixed copy, in either map
    order. *)
Theorem fallback_copy
  (cwd sourceRoot targetRoot : jsstring)
  (collisions : list (ParsedFile * list ParsedFile)) (postfix : jsstring) :
  (forall pre sourceFile candidates post toRename toCopy,
      sortedCollisions collisions = pre ++ (sourceFile, candidates) :: post ->
      fold_left (resolveKey cwd sourceRoot targetRoot) pre ([], []) = (toRename, toCopy) ->
      (forall c, In c candidates -> exists f, In f (map fst toRename) /\ equal f c = true) ->
      let target := withParentDirectory (relativeTo cwd sourceFile sourceRoot) targetRoot in
      In (CopyFile sourceFile (withName target (name target ++ js " " ++ postfix)))
        (resolveCollisions cwd sourceRoot targetRoot collisions postfix)
      /\ forall n, valid_name n = true -> describes n sourceFile ->
           let d := NodePath.join
                      [targetRoot; NodePath.relative cwd sourceRoot (dir sourceFile)] in
           withName target (name target ++ js " " ++ postfix)
           = mkParsedFile (root_of d) d (name sourceFile ++ js " " ++ postfix) (ext sourceFile)
           /\ fullPath (withName target (name target ++ js " " ++ postfix))
              = (if str_eqb d slash then d else d ++ slash)
                ++ (name sourceFile ++ js " " ++ postfix) ++ ext sourceFile)
  /\ (forall longer shorter c c' : ParsedFile,
         equal c c' = true ->
         (length (name shorter) < length (name longer))%nat ->
         let target := withParentDirectory (relativeTo cwd shorter sourceRoot) targetRoot in
         let calls :=
           [RenameFile c (name longer ++ js " " ++ postfix);
            OnProgress (fullPath c);
            CopyFile shorter (withName target (name target ++ js " " ++ postfix));
            OnProgress (fullPath shorter)] in
         resolveCollisions cwd sourceRoot targetRoot
           [(longer, [c]); (shorter, [c'])] postfix = calls
         /\ resolveCollisions cwd sourceRoot targetRoot
              [(shorter, [c']); (longer, [c])] postfix = calls).
Proof.
  split.
  - intros pre sourceFile candidates post toRename toCopy Hsplit Hpre Hall target.
    split.
    + destruct (decideCollisions_split cwd sourceRoot targetRoot _ _ _ _ Hsplit)
        as (moreRename & moreCopy & Hd).
      rewrite Hpre in Hd. cbn [resolveKey fst snd] in Hd.
      rewrite (proj2 (fileToRename_None toRename candidates)) in Hd
        by now apply unclaimed_all_claimed.
      cbn [fst snd] in Hd.
      rewrite resolveCollisions_calls, Hd. cbn [fst snd].
      apply in_or_app. right. apply (copyCalls_In postfix _ sourceFile target).
      apply in_or_app. left. apply in_or_app. right. now left.
    + intros n Hv Hs d.
      destruct (mirrored_describes cwd sourceRoot targetRoot n sourceFile Hv Hs)
        as (_ & _ & Hname & Hwith).
      unfold mirrored in Hname, Hwith. cbn zeta in Hname, Hwith.
      subst target d. rewrite Hwith, Hname. split; [reflexivity|].
      apply fullPath_placed. apply join_nonempty.
  - intros longer shorter c c' Heq Hlen target calls.
    assert (Hcmp : byNameLenDesc shorter longer = stemLength longer - stemLength shorter)
      by reflexivity.
    assert (Hcmp' : byNameLenDesc longer shorter = stemLength shorter - stemLength longer)
      by reflexivity.
    assert (Hlt : stemLength shorter < stemLength longer) by (unfold stemLength, len; lia).
    assert (Hs1 : sortedCollisions [(longer, [c]); (shorter, [c'])]
                  = [(longer, [c]); (shorter, [c'])]).
    { unfold sortedCollisions. cbn [sort sort_insert fst]. rewrite Hcmp'.
      destruct (Z.leb_spec (stemLength shorter - stemLength longer) 0); [reflexivity | lia]. }
    assert (Hs2 : sortedCollisions [(shorter, [c']); (longer, [c])]
                  = [(longer, [c]); (shorter, [c'])]).
    { unfold sortedCollisions. cbn [sort sort_insert fst]. rewrite Hcmp.
      destruct (Z.leb_spec (stemLength longer - stemLength shorter) 0); [lia | reflexivity]. }
    assert (Hdec : fold_left (resolveKey cwd sourceRoot targetRoot)
                     [(longer, [c]); (shorter, [c'])] ([], [])
                   = ([(c, name longer)], [(shorter, target)])).
    { assert (E2 : fileToRename [(c, name longer)] [c'] = None).
      { apply fileToRename_None. unfold unclaimed. cbn [map fst filter existsb].
        rewrite Heq. reflexivity. }
      assert (Step1 : resolveKey cwd sourceRoot targetRoot ([], []) (longer, [c])
                      = ([(c, name longer)], [])) by reflexivity.
      assert (Step2 : resolveKey cwd sourceRoot targetRoot ([(c, name longer)], [])
                        (shorter, [c'])
                      = ([(c, name longer)], [(shorter, target)])).
      { unfold resolveKey. cbn [fst snd]. rewrite E2. reflexivity. }
      cbn [fold_left]. rewrite Step1, Step2. reflexivity. }
    split; unfold resolveCollisions, decideCollisions; rewrite ?Hs1, ?Hs2, Hdec; reflexivity.
Qed.

Lemma fallback_copy_witness :
  resolveCollisions (js "/work") (js "src") (js "tgt")
    [(withParentDirectory (new_ParsedFile (js "ab.txt")) (js "src"),
      [withParentDirectory (new_ParsedFile (js "a.txt")) (js "tgt")]);
     (withParentDirectory (new_ParsedFile (js "abcd.txt")) (js "src"),
      [withParentDirectory (new_ParsedFile (js "a.txt")) (js "tgt")])]
    (js "dup")
  = [RenameFile (withParentDirectory (new_ParsedFile (js "a.txt")) (js "tgt")) (js "abcd dup");
     OnProgress (js "tgt/a.txt");
     CopyFile (withParentDirectory (new_ParsedFile (js "ab.txt")) (js "src"))
       (mkParsedFile [] (js "tgt") (js "ab dup") (js ".txt"));
     OnProgress (js "src/ab.txt")]
  /\ fullPath (withName
                 (withParentDirectory
                    (relativeTo (js "/work")
                       (withParentDirectory (new_ParsedFile (js "ab.txt")) (js "src/sub"))
                       (js "src"))
                    (js "tgt"))
                 (js "ab" ++ js " " ++ js "dup"))
     = js "tgt/sub/ab dup.txt".
Proof.
  destruct (fallback_copy (js "/work") (js "src") (js "tgt")
              [(withParentDirectory (new_ParsedFile (js "ab.txt")) (js "src/sub"),
                [withParentDirectory (new_ParsedFile (js "a.txt")) (js "tgt/sub")]);
               (withParentDirectory (new_ParsedFile (js "abcd.txt")) (js "src/sub"),
                [withParentDirectory (new_ParsedFile (js "a.txt")) (js "tgt/sub")])]
              (js "dup")) as [Hcopy Htwo].
  split.
  - apply (Htwo (withParentDirectory (new_ParsedFile (js "abcd.txt")) (js "src"))
             (withParentDirectory (new_ParsedFile (js "ab.txt")) (js "src"))
             (withParentDirectory (new_ParsedFile (js "a.txt")) (js "tgt"))
             (withParentDirectory (new_ParsedFile (js "a.txt")) (js "tgt")));
      [reflexivity | vm_compute; lia].
  - refine (proj2 (proj2 (Hcopy
              [(withParentDirectory (new_ParsedFile (js "abcd.txt")) (js "src/sub"),
                [withParentDirectory (new_ParsedFile (js "a.txt")) (js "tgt/sub")])]
              (withParentDirectory (new_ParsedFile (js "ab.txt")) (js "src/sub"))
              [withParentDirectory (new_ParsedFile (js "a.txt")) (js "tgt/sub")]
              []
              [(withParentDirectory (new_ParsedFile (js "a.txt")) (js "tgt/sub"), js "abcd")]
              [] eq_refl eq_refl _) (js "ab.txt") eq_refl _)).
    + intros c [<-|[]].
      exists (withParentDirectory (new_ParsedFile (js "a.txt")) (js "tgt/sub")).
      split; [now left | reflexivity].
    + repeat split; try reflexivity. now left.
Defined.

(* ================================================================== *)
(** * Where the program writes *)

Lemma listFiles_from_listing (entries : list Dirent) :
  valid_entries entries -> from_listing (listFiles entries).
Proof.
  intros H. unfold from_listing, listFiles. apply Forall_forall. intros f Hf.
  apply in_map_iff in Hf as (e & <- & He). apply filter_In in He as [He _].
  exists (dirent_name e). split; [|reflexivity].
  unfold valid_entries in H. rewrite Forall_forall in H. now apply H.
Qed.

Lemma listed_placed (d : jsstring) (f : ParsedFile) : listed_in d f -> placed_in d f.
Proof.
  intros (Hd & n & Hv & Hf). split; [exact Hd|]. split; [apply Hf|].
  rewrite (describes_base n f Hf). now apply valid_name_spec in Hv.
Qed.

Lemma placed_under (d : jsstring) (f : ParsedFile) :
  placed_in d f -> d <> [] -> under d (fullPath f).
Proof.
  intros (Hd & Hr & Hb) Hne. subst d. now apply fullPath_under.
Qed.

Lemma candidate_listed (n d : jsstring) :
  valid_name n = true ->
  listed_in (NodePath.join [d; []]) (withParentDirectory (new_ParsedFile n) d).
Proof.
  intros Hv. rewrite withParentDirectory_listed by assumption.
  split; [reflexivity|]. exists n. split; [exact Hv|].
  apply describes_component. now left.
Qed.

Lemma targetCandidates_listed (targetDir : jsstring) (areSyncable : SyncPredicate)
  (targetFiles resolved : list ParsedFile) (sourceFile : ParsedFile) :
  from_listing targetFiles ->
  Forall (listed_in (NodePath.join [targetDir; []]))
    (targetCandidates targetDir areSyncable targetFiles resolved sourceFile).
Proof.
  intros Ht. apply Forall_forall. intros c Hc.
  unfold targetCandidates in Hc. apply filter_In in Hc as [Hc _].
  apply in_map_iff in Hc as (t & <- & Hin). apply filter_In in Hin as [Hin _].
  unfold from_listing in Ht. rewrite Forall_forall in Ht.
  destruct (Ht t Hin) as (n & Hv & ->). now apply candidate_listed.
Qed.

Lemma withName_placed (d m : jsstring) (f : ParsedFile) :
  listed_in d f -> d <> [] -> m <> [] -> placed_in d (withName f m).
Proof.
  intros (Hd & n & Hv & Hf) Hne Hm. subst d.
  rewrite (withName_describes n) by assumption.
  split; [reflexivity|]. split; [apply root_of_cases|].
  unfold base. cbn [name ext]. intros H. apply app_eq_nil in H as [H _]. contradiction.
Qed.

(* ================================================================== *)
(** * Running [syncNames] on aligned trees *)














(* ================================================================== *)
(** * Claiming a target file *)

Lemma NoDup_snoc {A : Type} (l : list A) (x : A) : NoDup l -> ~ In x l -> NoDup (l ++ [x]).
Proof.
  intros Hl Hx. eapply Permutation_NoDup; [apply Permutation_cons_append|].
  now constructor.
Qed.

Lemma not_equal_not_In (c : ParsedFile) (files : list ParsedFile) :
  existsb (fun file => equal file c) files = false ->
  ~ In (fullPath c) (map fullPath files).
Proof.
  intros H Hin. apply in_map_iff in Hin as (f & Ef & Hf).
  assert (E : existsb (fun file => equal file c) files = true).
  { apply existsb_exists. exists f. split; [exact Hf|].
    unfold equal. now apply str_eqb_eq. }
  congruence.
Qed.

Lemma syncFile_resolved_distinct (sourceDir targetDir : jsstring)
  (areSyncable : SyncPredicate) (targetFiles : list ParsedFile)
  (acc : SyncResults * list Call) (sourceFile : ParsedFile) :
  NoDup (map fullPath (resolved (fst acc))) ->
  NoDup (map fullPath
           (resolved (fst (syncFile sourceDir targetDir areSyncable targetFiles acc
                             sourceFile)))).
Proof.
  destruct acc as [r log]. cbn [fst]. intros Hr. unfold syncFile.
  destruct (targetCandidates targetDir areSyncable targetFiles (resolved r) sourceFile)
    as [|c [|c2 rest]] eqn:E; cbn [length Nat.eqb Nat.ltb Nat.leb fst resolved];
    try exact Hr.
  rewrite map_app. cbn [map]. apply NoDup_snoc; [exact Hr|].
  apply not_equal_not_In.
  assert (Hc : In c (targetCandidates targetDir areSyncable targetFiles (resolved r) sourceFile))
    by (rewrite E; now left).
  unfold targetCandidates in Hc. apply filter_In in Hc as [_ Hc].
  now apply negb_true_iff in Hc.
Qed.

Lemma syncDir_resolved_distinct (sourceDir targetDir : jsstring)
  (areSyncable : SyncPredicate) (syncResults : option SyncResults) (input : DirInput) :
  match syncResults with
  | Some r => NoDup (map fullPath (resolved r))
  | None => True
  end ->
  NoDup (map fullPath
           (resolved (fst (syncDir sourceDir targetDir areSyncable syncResults input)))).
Proof.
  intros Hr. unfold syncDir.
  set (acc := (match syncResults with
               | Some r => r
               | None => {| resolved := []; collisions := [] |}
               end,
               if negb (target_exists input) then [MkdirSync targetDir] else [])).
  assert (Hacc : NoDup (map fullPath (resolved (fst acc))))
    by (subst acc; cbn [fst]; destruct syncResults; [exact Hr | constructor]).
  revert Hacc. generalize acc. clear acc Hr.
  induction (listFiles (source_entries input)) as [|s l IH]; intros acc Hacc.
  - exact Hacc.
  - cbn [fold_left]. apply IH. now apply syncFile_resolved_distinct.
Qed.

(** X1.  Within the walk, no target file is pushed to [resolved] twice: the
    full paths of the resolved files are pairwise different. *)
Theorem syncNames_resolved_distinct
  (cwd sourceRoot targetRoot : jsstring) (syncPredicate : SyncPredicate)
  (rootInput : DirInput) (klaw : list (jsstring * DirInput)) :
  NoDup (map fullPath
           (resolved (fst (syncNames cwd sourceRoot targetRoot syncPredicate
                             rootInput klaw)))).
Proof.
  unfold syncNames.
  pose proof (syncDir_resolved_distinct sourceRoot targetRoot syncPredicate None rootInput I)
    as Hacc.
  revert Hacc. generalize (syncDir sourceRoot targetRoot syncPredicate None rootInput).
  induction klaw as [|k klaw IH]; intros acc Hacc; [exact Hacc|].
  cbn [fold_left]. apply IH.
  pose proof (syncDir_resolved_distinct
                (NodePath.join [sourceRoot; NodePath.relative cwd sourceRoot (fst k)])
                (NodePath.join [targetRoot; NodePath.relative cwd sourceRoot (fst k)])
                syncPredicate (Some (fst acc)) (snd k) Hacc) as H.
  destruct (syncDir _ _ syncPredicate (Some (fst acc)) (snd k)) as [r calls].
  exact H.
Qed.

(** X2.  Within the resolution pass, no file is picked for rename twice:
    the full paths of the keys of [toRename] are pairwise different. *)
Theorem decideCollisions_picks_distinct
  (cwd sourceRoot targetRoot : jsstring) (collisions : list (ParsedFile * list ParsedFile)) :
  NoDup (map fullPath
           (map fst (fst (decideCollisions cwd sourceRoot targetRoot collisions)))).
Proof.
  unfold decideCollisions.
  assert (Hacc : NoDup (map fullPath
                          (map fst (fst (@nil (ParsedFile * jsstring),
                                         @nil (ParsedFile * ParsedFile))))))
    by constructor.
  revert Hacc. generalize (@nil (ParsedFile * jsstring), @nil (ParsedFile * ParsedFile)).
  induction (sortedCollisions collisions) as [|[s cands] l IH]; intros [toRename toCopy] Hacc.
  - exact Hacc.
  - cbn [fold_left]. apply IH. cbn [fst] in Hacc. unfold resolveKey. cbn [fst snd].
    destruct (fileToRename toRename cands) as [file|] eqn:E; cbn [fst]; [|exact Hacc].
    rewrite !map_app. cbn [map fst]. apply NoDup_snoc; [exact Hacc|].
    apply not_equal_not_In.
    destruct (fileToRename_In _ _ _ E) as [_ Hn].
    destruct (existsb _ _) eqn:Ex; [|reflexivity].
    apply existsb_exists in Ex as (f & Hf & Ef). rewrite (Hn f Hf) in Ef. discriminate.
Qed.

(** C1.  No target file should be claimed for two source files in a run;
    the program claims one twice on this input.  The source directory
    lists [abc.txt] and [ax.txt], the target directory [a___.txt] and
    [ab.txt].  [abc] matches both target files and becomes a collision;
    [ax] matches [a___.txt] alone, which is pushed to [resolved] and
    renamed to [ax].  The resolver does not read [resolved]: for the
    collision of [abc] it picks [a___.txt], the candidate of longest stem,
    and renames the same file once more. *)
Theorem double_claim_across_phases :
  let input :=
    mkDirInput [mkDirent (js "abc.txt") true; mkDirent (js "ax.txt") true] true
      [mkDirent (js "a___.txt") true; mkDirent (js "ab.txt") true] in
  let out := syncAndResolve (js "/work") (js "src") (js "tgt") (js "$collision$") input [] in
  let target := withParentDirectory (new_ParsedFile (js "a___.txt")) (js "tgt") in
  resolved (fst out) = [target]
  /\ collisions (fst out)
     = [(withParentDirectory (new_ParsedFile (js "abc.txt")) (js "src"),
         [target; withParentDirectory (new_ParsedFile (js "ab.txt")) (js "tgt")])]
  /\ snd out
     = [OnProgress (js "src/abc.txt");
        RenameFile target (js "ax");
        OnProgress (js "src/ax.txt");
        RenameFile target (js "abc $collision$");
        OnProgress (js "tgt/a___.txt")]
  /\ fs_writes (snd out)
     = [FsRename (js "tgt/a___.txt") (js "tgt/ax.txt");
        FsRename (js "tgt/a___.txt") (js "tgt/abc $collision$.txt")].
Proof. cbv zeta. repeat split; vm_compute; reflexivity. Qed.

(* ================================================================== *)
(** * The matching predicate as an order *)

Lemma prefix_comparable {A : Type} (x y rx ry : list A) :
  x ++ rx = y ++ ry -> (length x <= length y)%nat -> exists rest, y = x ++ rest.
Proof.
  revert y; induction x as [|a x IH]; intros y E L.
  - exists y. reflexivity.
  - destruct y as [|b y]; [simpl in L; lia|].
    simpl in E. injection E as -> E.
    destruct (IH y E) as [rest ->]; [simpl in L; lia|].
    exists rest. reflexivity.
Qed.

(** X3.  [areSyncable] is a preorder on descriptors that reads nothing but
    the stems: every file matches itself, matches chain, two files that
    match each other have the same normalized name, and root, directory and
    extension play no part. *)
Theorem areSyncable_preorder :
  (forall a : ParsedFile, areSyncable a a = true)
  /\ (forall a b c : ParsedFile,
         areSyncable a b = true -> areSyncable b c = true -> areSyncable a c = true)
  /\ (forall a b : ParsedFile,
         areSyncable a b = true -> areSyncable b a = true ->
         normalized (name a) = normalized (name b))
  /\ (forall a b a' b' : ParsedFile,
         name a = name a' -> name b = name b' -> areSyncable a b = areSyncable a' b').
Proof.
  repeat split.
  - intros a. apply areSyncable_spec. exists []. now rewrite app_nil_r.
  - intros a b c Hab Hbc.
    apply areSyncable_spec in Hab as [r1 E1]. apply areSyncable_spec in Hbc as [r2 E2].
    apply areSyncable_spec. exists (r2 ++ r1). now rewrite E1, E2, app_assoc.
  - intros a b Hab Hba.
    apply areSyncable_spec in Hab as [r1 E1]. apply areSyncable_spec in Hba as [r2 E2].
    assert (L : length (normalized (name a))
                = (length (normalized (name a)) + length r2 + length r1)%nat).
    { rewrite E1 at 1. rewrite E2 at 1. rewrite !length_app. lia. }
    destruct r1; [now rewrite app_nil_r in E1|simpl in L; lia].
  - intros a b a' b' Ea Eb. unfold areSyncable. now rewrite Ea, Eb.
Qed.

(** X4.  The targets that match one source file are nested: of two of
    them, the one whose normalized name is not the shorter matches the
    other when it is taken as the source. *)
Theorem candidates_nested (sourceFile t1 t2 : ParsedFile) :
  areSyncable sourceFile t1 = true -> areSyncable sourceFile t2 = true ->
  (length (normalized (name t1)) <= length (normalized (name t2)))%nat ->
  areSyncable t2 t1 = true.
Proof.
  intros H1 H2 L.
  apply areSyncable_spec in H1 as [r1 E1]. apply areSyncable_spec in H2 as [r2 E2].
  apply areSyncable_spec.
  apply (prefix_comparable _ _ r1 r2); [congruence|exact L].
Qed.

Lemma candidates_nested_witness :
  areSyncable (new_ParsedFile (js "Report_2024.doc")) (new_ParsedFile (js "Rep.doc")) = true
  /\ areSyncable (new_ParsedFile (js "Report 2.doc")) (new_ParsedFile (js "Rep.doc")) = true.
Proof.
  split; [reflexivity|].
  apply (candidates_nested (new_ParsedFile (js "Report_2024.doc"))); [reflexivity|reflexivity|].
  vm_compute. lia.
Defined.

(* ================================================================== *)
(** * The fields of a descriptor *)

Lemma last_dot_no_dot (b : jsstring) :
  last_dot b = None -> Forall (fun c => c <> CHAR_DOT) b.
Proof.
  induction b as [|c b IH]; intros H; [constructor|].
  simpl in H. destruct (last_dot b) as [[a t]|]; [discriminate|].
  destruct (Ascii.eqb_spec c CHAR_DOT) as [->|N]; [discriminate|].
  constructor; [exact N|now apply IH].
Qed.

Lemma last_dot_tail (b a t : jsstring) :
  last_dot b = Some (a, t) -> Forall (fun c => c <> CHAR_DOT) t.
Proof.
  revert a t; induction b as [|c b IH]; intros a t H; [discriminate|].
  simpl in H. destruct (last_dot b) as [[a' t']|] eqn:E.
  - injection H as <- <-. now apply (IH a').
  - destruct (Ascii.eqb c CHAR_DOT); [|discriminate].
    injection H as <- <-. now apply last_dot_no_dot.
Qed.

Lemma last_dot_app (m t : jsstring) :
  Forall (fun c => c <> CHAR_DOT) t -> last_dot (m ++ CHAR_DOT :: t) = Some (m, t).
Proof.
  intros Ht. induction m as [|c m IH].
  - simpl. now rewrite (last_dot_None t Ht).
  - simpl. simpl in IH. now rewrite IH.
Qed.

Lemma stem_ext_ext (first : bool) (b : jsstring) :
  snd (stem_ext first b) = []
  \/ exists t, snd (stem_ext first b) = CHAR_DOT :: t /\ Forall (fun c => c <> CHAR_DOT) t.
Proof.
  unfold stem_ext. destruct (last_dot b) as [[a t]|] eqn:E; [|now left].
  destruct a as [|c a']; [now left|].
  destruct (Ascii.eqb c CHAR_DOT && (len t =? 0) && (len a' =? 0) && first); [now left|].
  right. exists t. split; [reflexivity|]. now apply (last_dot_tail b (c :: a')).
Qed.

Lemma stem_ext_no_slash (first : bool) (b : jsstring) :
  no_slash b = true ->
  no_slash (fst (stem_ext first b)) = true /\ no_slash (snd (stem_ext first b)) = true.
Proof.
  intros H. rewrite <- (stem_ext_app first b), no_slash_app in H.
  now apply andb_true_iff in H.
Qed.

Lemma all_slashes_slashes (k : nat) : Forall (fun c => c = CHAR_FORWARD_SLASH) (slashes k).
Proof. induction k; simpl; constructor; auto. Qed.

Lemma not_all_slashes (x b y : jsstring) :
  b <> [] -> no_slash b = true -> ~ Forall (fun c => c = CHAR_FORWARD_SLASH) (x ++ b ++ y).
Proof.
  intros Hb Hn H. apply Forall_app in H as [_ H]. apply Forall_app in H as [H _].
  destruct b as [|c b]; [congruence|].
  inversion H as [|? ? Hc _]; subst. simpl in Hn. discriminate.
Qed.

Lemma root_of_app (d rest : jsstring) : d <> [] -> root_of (d ++ rest) = root_of d.
Proof. intros H. destruct d; [congruence|reflexivity]. Qed.

(** The fields that the constructor reads from [path.parse], for a path
    that ends in a component [b]. *)
Lemma component_fields (first : bool) (rt d b : jsstring) :
  b <> [] -> no_slash b = true ->
  let f := component first rt d b in
  base f = b
  /\ name f <> []
  /\ no_slash (name f) = true /\ no_slash (ext f) = true
  /\ (ext f = [] \/ exists t, ext f = CHAR_DOT :: t /\ Forall (fun c => c <> CHAR_DOT) t).
Proof.
  intros Hb Hn f. unfold f.
  split; [apply base_component|].
  split; [now apply stem_nonempty|].
  split; [now apply stem_ext_no_slash|].
  split; [now apply stem_ext_no_slash|].
  apply stem_ext_ext.
Qed.

(** X5.  What the constructor makes of any path: the root is the slash
    exactly for a path that starts with one, the [base] getter gives back
    the base of [path.parse] although the constructor does not store it,
    name and extension hold no slash, the extension is empty or one dot
    followed by characters that are not dots, and the name is empty only for
    a path made of slashes. *)
Theorem new_ParsedFile_fields (p : jsstring) :
  let f := new_ParsedFile p in
  root f = root_of p
  /\ base f = pp_base (parse p)
  /\ no_slash (name f) = true /\ no_slash (ext f) = true
  /\ (ext f = [] \/ exists t, ext f = CHAR_DOT :: t /\ Forall (fun c => c <> CHAR_DOT) t)
  /\ (name f = [] <-> Forall (fun c => c = CHAR_FORWARD_SLASH) p).
Proof.
  intros f. unfold f. clear f.
  destruct (path_shape p) as [|k|b k Hb Hn|b k Hb Hn|d b k Hd Hb Hn].
  - vm_compute. repeat split; auto.
  - rewrite new_slashes, parse_slashes. cbn [root base name ext pp_base app no_slash forallb].
    repeat split; auto. intros _. apply all_slashes_slashes.
  - rewrite (new_relative b k Hb Hn), (parse_relative_single b k Hb Hn).
    destruct (component_fields true [] [] b Hb Hn) as (B & N & S1 & S2 & X).
    cbn [pp_base]. repeat split; auto.
    + unfold root_of. now rewrite no_slash_head.
    + intros E. contradiction.
    + intros H. exfalso. revert H. now apply (not_all_slashes [] b (slashes k)).
  - rewrite (new_absolute b k Hb Hn), (parse_absolute_single b k Hb Hn).
    destruct (component_fields false slash slash b Hb Hn) as (B & N & S1 & S2 & X).
    cbn [pp_base]. repeat split; auto.
    + intros E. contradiction.
    + intros H. exfalso. revert H. now apply (not_all_slashes slash b (slashes k)).
  - rewrite (new_nested d b k Hd Hb Hn), (parse_dir_base d b k Hd Hb Hn).
    destruct (component_fields true (root_of d) d b Hb Hn) as (B & N & S1 & S2 & X).
    cbn [pp_base]. repeat split; auto.
    + cbn [component root]. now rewrite root_of_app.
    + intros E. contradiction.
    + intros H. exfalso. revert H.
      replace (d ++ slash ++ b ++ slashes k) with ((d ++ slash) ++ b ++ slashes k)
        by now rewrite <- app_assoc.
      now apply not_all_slashes.
Qed.

(* ================================================================== *)
(** * Renaming and listing again *)

Lemma stem_ext_dotted (m t : jsstring) :
  m <> [] -> Forall (fun c => c <> CHAR_DOT) t -> m ++ CHAR_DOT :: t <> js ".." ->
  stem_ext true (m ++ CHAR_DOT :: t) = (m, CHAR_DOT :: t).
Proof.
  intros Hm Ht Hpp. unfold stem_ext. rewrite (last_dot_app m t Ht).
  destruct m as [|c a']; [congruence|].
  destruct (Ascii.eqb_spec c CHAR_DOT) as [->|N]; [|reflexivity].
  destruct t as [|x t]; [|reflexivity].
  destruct a' as [|y a']; [|reflexivity].
  exfalso. apply Hpp. reflexivity.
Qed.

Lemma new_placed (d b : jsstring) :
  d <> [] -> valid_name b = true ->
  new_ParsedFile ((if str_eqb d slash then d else d ++ slash) ++ b)
  = component true (root_of d) d b.
Proof.
  intros Hd Hv. apply valid_name_spec in Hv as (Hb & Hn & Hpp).
  destruct (str_eqb d slash) eqn:E.
  - apply str_eqb_eq in E. subst d.
    replace (slash ++ b) with (slash ++ b ++ slashes 0) by (simpl; now rewrite app_nil_r).
    rewrite (new_absolute b 0 Hb Hn). unfold component. now rewrite (stem_ext_first b Hpp).
  - replace ((d ++ slash) ++ b) with (d ++ slash ++ b ++ slashes 0)
      by (simpl; now rewrite app_nil_r, <- app_assoc).
    apply (new_nested d b 0 Hd Hb Hn).
Qed.

(** X6.  A listed file of the directory [d] that is renamed to the stem
    [m], read again from its new path: the path parses into the component
    [m ++ ext].  When the file has an extension the descriptor is the
    renamed one, so renaming it to [m] once more writes nothing.  When it
    has none and [m] holds a dot after its first character, the part of [m]
    after its last dot is read as the extension, and the name is no longer
    [m]. *)
Theorem withName_reparse (d : jsstring) (f : ParsedFile) (m : jsstring) :
  d <> [] -> listed_in d f -> valid_name (m ++ ext f) = true ->
  let renamed := new_ParsedFile (fullPath (withName f m)) in
  renamed = component true (root_of d) d (m ++ ext f)
  /\ (m <> [] -> ext f <> [] -> renamed = withName f m /\ renameFile renamed m = [])
  /\ (ext f = [] ->
      forall a t, a <> [] -> last_dot m = Some (a, t) ->
      name renamed = a /\ ext renamed = CHAR_DOT :: t /\ name renamed <> m).
Proof.
  intros Hd [Hdir [n [Hv Hdesc]]] Hvm renamed.
  assert (Hw : withName f m = mkParsedFile (root_of d) d m (ext f)).
  { rewrite <- Hdir. apply (withName_describes n f m Hv Hdesc). now rewrite Hdir. }
  assert (Hr : renamed = component true (root_of d) d (m ++ ext f)).
  { unfold renamed. rewrite Hw, (fullPath_placed d m (ext f) Hd). now apply new_placed. }
  split; [exact Hr|]. split.
  - intros Hm He.
    assert (Hx : stem_ext true (m ++ ext f) = (m, ext f)).
    { destruct Hdesc as (_ & _ & Hext).
      destruct (stem_ext_ext true n) as [E|[t [E Ht]]]; [congruence|].
      rewrite Hext, E. apply stem_ext_dotted; auto.
      apply valid_name_spec in Hvm as (_ & _ & Hpp). now rewrite Hext, E in Hpp. }
    assert (Hrw : renamed = withName f m).
    { rewrite Hr, Hw. unfold component. now rewrite Hx. }
    split; [exact Hrw|].
    unfold renameFile. rewrite Hrw, Hw. cbn [name]. now rewrite str_eqb_refl.
  - intros He a t Ha Hl. rewrite He, app_nil_r in Hr, Hvm.
    apply valid_name_spec in Hvm as (_ & _ & Hpp).
    assert (Hx : stem_ext true m = (a, CHAR_DOT :: t)).
    { pose proof (last_dot_Some m a t Hl) as Em.
      rewrite Em. apply stem_ext_dotted; auto; [|now rewrite <- Em].
      now apply (last_dot_tail m a). }
    rewrite Hr. unfold component. cbn [name ext]. rewrite Hx. cbn [fst snd].
    repeat split. intros E. apply last_dot_Some in Hl. rewrite Hl in E.
    apply (f_equal (@length ascii)) in E. rewrite length_app in E. simpl in E. lia.
Qed.

Lemma withName_reparse_witness :
  new_ParsedFile (fullPath (withName (withParentDirectory (new_ParsedFile (js "v12"))
                                        (js "tgt")) (js "v1.2")))
  = mkParsedFile [] (js "tgt") (js "v1") (js ".2").
Proof.
  pose proof (withName_reparse (js "tgt")
                (withParentDirectory (new_ParsedFile (js "v12")) (js "tgt")) (js "v1.2")) as H.
  destruct H as (H & _).
  - discriminate.
  - apply (candidate_listed (js "v12") (js "tgt")). reflexivity.
  - reflexivity.
  - rewrite H. reflexivity.
Defined.

(* ================================================================== *)
(** * What one directory contributes *)

Lemma listFiles_kept (entries : list Dirent) (f : ParsedFile) :
  In f (listFiles entries) <-> kept entries f.
Proof.
  unfold listFiles, kept. rewrite in_map_iff. split.
  - intros [dirent [E H]]. apply filter_In in H as [Hin H].
    apply andb_true_iff in H as [Hf Hn]. apply negb_true_iff, str_eqb_neq in Hn.
    exists dirent. auto.
  - intros [dirent (Hin & Hf & Hn & E)]. exists dirent. split; [auto|].
    apply filter_In. split; [exact Hin|]. rewrite Hf. simpl.
    now apply negb_true_iff, str_eqb_neq.
Qed.

(** The three branches of the callback of [sourceFiles.forEach]. *)
Lemma syncFile_step (sourceDir targetDir : jsstring) (areSyncable : SyncPredicate)
  (targetFiles : list ParsedFile) (r : SyncResults) (log : list Call) (sourceFile : ParsedFile) :
  let candidates := targetCandidates targetDir areSyncable targetFiles (resolved r) sourceFile in
  exists newResolved newCollisions calls,
    syncFile sourceDir targetDir areSyncable targetFiles (r, log) sourceFile
    = ({| resolved := resolved r ++ newResolved;
          collisions := collisions r ++ newCollisions |},
       log ++ calls ++ [OnProgress (fullPath (withParentDirectory sourceFile sourceDir))])
    /\ ((exists c, candidates = [c] /\ newResolved = [c] /\ newCollisions = []
                   /\ calls = [RenameFile c (name sourceFile)])
        \/ ((2 <= length candidates)%nat /\ newResolved = []
            /\ newCollisions = [(withParentDirectory sourceFile sourceDir, candidates)]
            /\ calls = [])
        \/ (candidates = [] /\ newResolved = [] /\ newCollisions = []
            /\ calls = [CopyFile (withParentDirectory sourceFile sourceDir)
                          (withParentDirectory sourceFile targetDir)])).
Proof.
  intros candidates. unfold syncFile. fold candidates.
  destruct r as [res col]. cbn [resolved collisions].
  destruct candidates as [|c [|c' rest]] eqn:E.
  - exists [], [], [CopyFile (withParentDirectory sourceFile sourceDir)
                     (withParentDirectory sourceFile targetDir)].
    cbn. rewrite !app_nil_r. split; [reflexivity|]. right. right. auto.
  - exists [c], [], [RenameFile c (name sourceFile)].
    cbn. rewrite !app_nil_r. split; [reflexivity|]. left. exists c. auto.
  - exists [], [(withParentDirectory sourceFile sourceDir, c :: c' :: rest)], [].
    cbn. rewrite !app_nil_r. split; [reflexivity|]. right. left.
    repeat split; auto. lia.
Qed.

Lemma call_from_more (sourceDir targetDir : jsstring) (areSyncable : SyncPredicate)
  (sourceFiles sourceFiles' targetFiles resolved resolved' : list ParsedFile) (c : Call) :
  (forall s, In s sourceFiles -> In s sourceFiles') ->
  (forall f, In f resolved -> In f resolved') ->
  call_from sourceDir targetDir areSyncable sourceFiles targetFiles resolved c ->
  call_from sourceDir targetDir areSyncable sourceFiles' targetFiles resolved' c.
Proof.
  intros Hs Hr. destruct c as [p|file newName|a b|message]; simpl; auto.
  - intros (s & t & H1 & H2 & H3). exists s, t. auto.
  - intros (s & H1 & H2 & H3 & H4). exists s. repeat split; auto.
    intros t Ht Hp. destruct (H4 t Ht Hp) as [file [Hf Eq]]. exists file. auto.
  - intros (s & H1 & H2). exists s. auto.
Qed.

(** The loop of [syncDir]: what it adds to the results and to the log. *)
Lemma syncFile_fold_accounting (sourceDir targetDir : jsstring) (areSyncable : SyncPredicate)
  (targetFiles sourceFiles : list ParsedFile) :
  forall (r : SyncResults) (log : list Call),
  exists newResolved newCollisions calls,
    fold_left (syncFile sourceDir targetDir areSyncable targetFiles) sourceFiles (r, log)
    = ({| resolved := resolved r ++ newResolved;
          collisions := collisions r ++ newCollisions |},
       log ++ calls)
    /\ length (filter isRename calls) = length newResolved
    /\ (length newResolved + length newCollisions + length (filter isCopy calls)
        = length sourceFiles)%nat
    /\ length (filter isProgress calls) = length sourceFiles
    /\ filter isMkdir calls = []
    /\ Forall (fun e => (2 <= length (snd e))%nat) newCollisions
    /\ Forall (call_from sourceDir targetDir areSyncable sourceFiles targetFiles
                 (resolved r ++ newResolved)) calls.
Proof.
  induction sourceFiles as [|s sourceFiles IH]; intros r log.
  - exists [], [], []. destruct r. cbn. rewrite !app_nil_r. repeat split; auto.
  - cbn [fold_left].
    destruct (syncFile_step sourceDir targetDir areSyncable targetFiles r log s)
      as (nR & nC & calls & -> & Hcase).
    destruct (IH {| resolved := resolved r ++ nR; collisions := collisions r ++ nC |}
                (log ++ calls ++ [OnProgress (fullPath (withParentDirectory s sourceDir))]))
      as (nR' & nC' & calls' & -> & Hren & Hsum & Hprog & Hmk & Hpl & Hfrom).
    cbn [resolved collisions] in *.
    exists (nR ++ nR'), (nC ++ nC'),
      ((calls ++ [OnProgress (fullPath (withParentDirectory s sourceDir))]) ++ calls').
    rewrite <- !app_assoc. split; [reflexivity|].
    assert (Hp : call_from sourceDir targetDir areSyncable (s :: sourceFiles) targetFiles
                   (resolved r ++ nR ++ nR')
                   (OnProgress (fullPath (withParentDirectory s sourceDir)))).
    { exists s. split; [now left|reflexivity]. }
    assert (Hrest : Forall (call_from sourceDir targetDir areSyncable (s :: sourceFiles)
                              targetFiles (resolved r ++ nR ++ nR')) calls').
    { eapply Forall_impl; [|exact Hfrom]. intros c. apply call_from_more.
      - intros x Hx. now right.
      - intros f Hf. now rewrite app_assoc. }
    rewrite !filter_app, !length_app. cbn [filter isRename isCopy isProgress isMkdir app length].
    destruct Hcase as [(c & Hc & -> & -> & ->)|[(H2 & -> & -> & ->)|(Hc & -> & -> & ->)]];
      cbn [filter isRename isCopy isProgress isMkdir app length].
    + repeat split; try lia; auto.
      constructor; [|constructor; [exact Hp|exact Hrest]].
      assert (Hin : In c (targetCandidates targetDir areSyncable targetFiles (resolved r) s))
        by (rewrite Hc; now left).
      apply targetCandidates_In in Hin as [[t (Ht & Hpred & E)] _].
      exists s, t. repeat split; auto. now left.
    + repeat split; try lia; auto.
    + repeat split; try lia; auto.
      constructor; [|constructor; [exact Hp|exact Hrest]].
      exists s. repeat split; auto; [now left|].
      intros t Ht Hpred.
      destruct (existsb (fun file => equal file (withParentDirectory t targetDir)) (resolved r))
        eqn:X.
      * apply existsb_exists in X as [file [Hf Eq]]. exists file. split; [|exact Eq].
        apply in_or_app. now left.
      * exfalso.
        assert (Hin : In (withParentDirectory t targetDir)
                        (targetCandidates targetDir areSyncable targetFiles (resolved r) s)).
        { apply targetCandidates_In. split; [exists t; auto|].
          intros file Hf. destruct (equal file _) eqn:Eq; [|reflexivity].
          assert (Y : existsb (fun file => equal file (withParentDirectory t targetDir))
                        (resolved r) = true) by (apply existsb_exists; eauto).
          congruence. }
        rewrite Hc in Hin. contradiction.
Qed.

Lemma syncDir_contribution (sourceDir targetDir : jsstring) (areSyncable : SyncPredicate)
  (syncResults : option SyncResults) (input : DirInput) :
  exists newResolved newCollisions calls,
    syncDir sourceDir targetDir areSyncable syncResults input
    = ({| resolved := resolved (initialResults syncResults) ++ newResolved;
          collisions := collisions (initialResults syncResults) ++ newCollisions |},
       (if negb (target_exists input) then [MkdirSync targetDir] else []) ++ calls)
    /\ length (filter isRename calls) = length newResolved
    /\ (length newResolved + length newCollisions + length (filter isCopy calls)
        = length (listFiles (source_entries input)))%nat
    /\ length (filter isProgress calls) = length (listFiles (source_entries input))
    /\ filter isMkdir calls = []
    /\ Forall (fun e => (2 <= length (snd e))%nat) newCollisions
    /\ Forall (call_from sourceDir targetDir areSyncable (listFiles (source_entries input))
                 (listFiles (target_entries input))
                 (resolved (initialResults syncResults) ++ newResolved)) calls.
Proof.
  unfold syncDir. fold (initialResults syncResults).
  apply syncFile_fold_accounting.
Qed.

Lemma progress_messages_app (a b : list Call) :
  progress_messages (a ++ b) = progress_messages a ++ progress_messages b.
Proof. apply flat_map_app. Qed.

(** The loop of [syncDir] reports the source files in the order of the
    listing. *)
Lemma syncFile_fold_progress (sourceDir targetDir : jsstring) (areSyncable : SyncPredicate)
  (targetFiles sourceFiles : list ParsedFile) :
  forall (r : SyncResults) (log : list Call),
    progress_messages
      (snd (fold_left (syncFile sourceDir targetDir areSyncable targetFiles) sourceFiles
              (r, log)))
    = progress_messages log
      ++ map (fun s => fullPath (withParentDirectory s sourceDir)) sourceFiles.
Proof.
  induction sourceFiles as [|s sourceFiles IH]; intros r log.
  - cbn. now rewrite app_nil_r.
  - cbn [fold_left map].
    destruct (syncFile_step sourceDir targetDir areSyncable targetFiles r log s)
      as (nR & nC & calls & -> & Hcase).
    rewrite IH, !progress_messages_app, <- !app_assoc. f_equal.
    destruct Hcase as [(c & _ & _ & _ & ->)|[(_ & _ & _ & ->)|(_ & _ & _ & ->)]]; reflexivity.
Qed.

(** X7.  One call of [syncDir] only appends to [resolved] and to
    [collisions], and settles every listed source file in exactly one way:
    the renames are as many as the files it adds to [resolved], and renames,
    new collisions and copies add up to the number of source files.  Every
    new collision has at least two candidates.  The target directory is
    made exactly when it does not exist, before any other call, and the
    progress callback receives the source files one by one in the order of
    the listing. *)
Theorem syncDir_accounting (sourceDir targetDir : jsstring) (areSyncable : SyncPredicate)
  (syncResults : option SyncResults) (input : DirInput) :
  let out := syncDir sourceDir targetDir areSyncable syncResults input in
  let sourceFiles := listFiles (source_entries input) in
  exists newResolved newCollisions calls,
    resolved (fst out) = resolved (initialResults syncResults) ++ newResolved
    /\ collisions (fst out) = collisions (initialResults syncResults) ++ newCollisions
    /\ snd out = (if target_exists input then [] else [MkdirSync targetDir]) ++ calls
    /\ filter isMkdir calls = []
    /\ length (filter isRename calls) = length newResolved
    /\ (length newResolved + length newCollisions + length (filter isCopy calls)
        = length sourceFiles)%nat
    /\ Forall (fun e => (2 <= length (snd e))%nat) newCollisions
    /\ progress_messages (snd out)
       = map (fun s => fullPath (withParentDirectory s sourceDir)) sourceFiles.
Proof.
  intros out sourceFiles. unfold out, sourceFiles.
  assert (Hp : progress_messages
                 (snd (syncDir sourceDir targetDir areSyncable syncResults input))
               = map (fun s => fullPath (withParentDirectory s sourceDir))
                   (listFiles (source_entries input))).
  { unfold syncDir. fold (initialResults syncResults). rewrite syncFile_fold_progress.
    destruct (target_exists input); reflexivity. }
  destruct (syncDir_contribution sourceDir targetDir areSyncable syncResults input)
    as (nR & nC & calls & E & Hren & Hsum & Hprog & Hmk & Hpl & _).
  exists nR, nC, calls. rewrite Hp, E. cbn [fst snd resolved collisions].
  destruct (target_exists input); cbn [negb progress_messages flat_map app];
    repeat split; auto.
Qed.

(** X8.  Every call of [syncDir] comes from the entries it keeps, the
    regular files whose name is not [.DS_Store]: a rename touches a kept
    target entry that the predicate matches with a kept source entry and
    gives it the stem of that entry, a copy takes a kept source entry whose
    matches in the target listing are all among the resolved files, a
    progress message names a kept source entry, and the only directory made
    is the missing target directory. *)
Theorem syncDir_provenance (sourceDir targetDir : jsstring) (areSyncable : SyncPredicate)
  (syncResults : option SyncResults) (input : DirInput) :
  let out := syncDir sourceDir targetDir areSyncable syncResults input in
  (forall entries f, In f (listFiles entries) <-> kept entries f)
  /\ Forall (fun c =>
               match c with
               | MkdirSync p => p = targetDir /\ target_exists input = false
               | _ => call_from sourceDir targetDir areSyncable
                        (listFiles (source_entries input)) (listFiles (target_entries input))
                        (resolved (fst out)) c
               end) (snd out).
Proof.
  intros out. unfold out. split; [apply listFiles_kept|].
  destruct (syncDir_contribution sourceDir targetDir areSyncable syncResults input)
    as (nR & nC & calls & -> & _ & _ & _ & _ & _ & Hfrom).
  cbn [fst snd resolved]. apply Forall_app. split.
  - destruct (target_exists input); cbn; auto.
  - eapply Forall_impl; [|exact Hfrom]. intros [p|file newName|a b|message] H; auto.
    destruct H.
Qed.

Lemma syncNames_fold_accounting (cwd sourceRoot targetRoot : jsstring)
  (syncPredicate : SyncPredicate) (klaw : list (jsstring * DirInput)) :
  forall (acc : SyncResults * list Call) (n : nat),
    length (filter isRename (snd acc)) = length (resolved (fst acc)) ->
    (length (resolved (fst acc)) + length (collisions (fst acc))
     + length (filter isCopy (snd acc)) = n)%nat ->
    length (filter isProgress (snd acc)) = n ->
    Forall (fun e => (2 <= length (snd e))%nat) (collisions (fst acc)) ->
    let out :=
      fold_left
        (fun (acc : SyncResults * list Call) (d : jsstring * DirInput) =>
           let dir := NodePath.relative cwd sourceRoot (fst d) in
           let (r, calls) :=
             syncDir (NodePath.join [sourceRoot; dir]) (NodePath.join [targetRoot; dir])
               syncPredicate (Some (fst acc)) (snd d) in
           (r, snd acc ++ calls))
        klaw acc in
    let total :=
      (n + list_sum (map (fun k => length (listFiles (source_entries (snd k)))) klaw))%nat in
    length (filter isRename (snd out)) = length (resolved (fst out))
    /\ (length (resolved (fst out)) + length (collisions (fst out))
        + length (filter isCopy (snd out)) = total)%nat
    /\ length (filter isProgress (snd out)) = total
    /\ Forall (fun e => (2 <= length (snd e))%nat) (collisions (fst out)).
Proof.
  induction klaw as [|k klaw IH]; intros [r log] n Hren Hsum Hprog Hpl.
  - cbn [fold_left map list_sum fold_right]. rewrite Nat.add_0_r. auto.
  - cbn [fold_left map list_sum fold_right fst snd] in *.
    destruct (syncDir_contribution
                (NodePath.join [sourceRoot; NodePath.relative cwd sourceRoot (fst k)])
                (NodePath.join [targetRoot; NodePath.relative cwd sourceRoot (fst k)])
                syncPredicate (Some r) (snd k))
      as (nR & nC & calls & -> & Hren' & Hsum' & Hprog' & Hmk' & Hpl' & _).
    cbn [initialResults] in *.
    specialize (IH ({| resolved := resolved r ++ nR; collisions := collisions r ++ nC |},
                    log ++ (if negb (target_exists (snd k))
                            then [MkdirSync
                                    (NodePath.join
                                       [targetRoot; NodePath.relative cwd sourceRoot (fst k)])]
                            else []) ++ calls)
                  (n + length (listFiles (source_entries (snd k))))%nat).
    cbn [fst snd resolved collisions] in IH.
    rewrite Nat.add_assoc. apply IH.
    + rewrite !filter_app, !length_app.
      destruct (target_exists (snd k)); cbn; lia.
    + rewrite !filter_app, !length_app.
      destruct (target_exists (snd k)); cbn; lia.
    + rewrite !filter_app, !length_app.
      destruct (target_exists (snd k)); cbn; lia.
    + apply Forall_app. auto.
Qed.

(** X9.  Over the whole walk of [syncNames] every listed source file is
    settled in exactly one way: the files in [resolved] are as many as the
    renames, and resolved files, collisions and copies add up to the number
    of source files of all the directories.  The progress callback is called
    once for each of them, and every collision that reaches
    [resolveCollisions] has at least two candidates. *)
Theorem syncNames_accounting (cwd sourceRoot targetRoot : jsstring)
  (syncPredicate : SyncPredicate) (rootInput : DirInput) (klaw : list (jsstring * DirInput)) :
  let out := syncNames cwd sourceRoot targetRoot syncPredicate rootInput klaw in
  length (filter isRename (snd out)) = length (resolved (fst out))
  /\ (length (resolved (fst out)) + length (collisions (fst out))
      + length (filter isCopy (snd out)) = sourceFileCount rootInput klaw)%nat
  /\ length (filter isProgress (snd out)) = sourceFileCount rootInput klaw
  /\ Forall (fun e => (2 <= length (snd e))%nat) (collisions (fst out)).
Proof.
  intros out. unfold out, syncNames, sourceFileCount.
  destruct (syncDir_contribution sourceRoot targetRoot syncPredicate None rootInput)
    as (nR & nC & calls & E & Hren & Hsum & Hprog & Hmk & Hpl & _).
  cbn [initialResults resolved collisions app] in E.
  apply syncNames_fold_accounting; rewrite E; cbn [fst snd resolved collisions].
  - rewrite !filter_app, !length_app. destruct (target_exists rootInput); cbn; lia.
  - rewrite !filter_app, !length_app. destruct (target_exists rootInput); cbn; lia.
  - rewrite !filter_app, !length_app. destruct (target_exists rootInput); cbn; lia.
  - exact Hpl.
Qed.

(* ================================================================== *)
(** * The resolver after the walk *)

Lemma equal_trans (a b c : ParsedFile) : equal a b = true -> equal b c = true -> equal a c = true.
Proof. unfold equal. rewrite !str_eqb_eq. congruence. Qed.

Lemma equal_sym (a b : ParsedFile) : equal a b = equal b a.
Proof.
  unfold equal. destruct (str_eqb (fullPath a) (fullPath b)) eqn:E.
  - apply str_eqb_eq in E. rewrite E. symmetry. apply str_eqb_refl.
  - symmetry. apply str_eqb_neq. apply str_eqb_neq in E. congruence.
Qed.

Lemma two_in_list {A : Type} (l : list A) (x y : A) :
  In x l -> In y l -> x <> y -> (2 <= length l)%nat.
Proof.
  intros Hx Hy N. destruct l as [|a [|b l]]; simpl in *; try lia.
  destruct Hx as [<-|[]], Hy as [<-|[]]. congruence.
Qed.

Lemma claimed_twice (toRename : list (ParsedFile * jsstring)) (e : ParsedFile * list ParsedFile) :
  two_candidates e -> fileToRename toRename (snd e) = None -> (2 <= length toRename)%nat.
Proof.
  intros (c1 & c2 & H1 & H2 & N) E. apply fileToRename_None in E.
  assert (Hc : forall c, In c (snd e) ->
                 exists f, In f (map fst toRename) /\ equal f c = true).
  { intros c Hin.
    destruct (existsb (fun file => equal file c) (map fst toRename)) eqn:X.
    - apply existsb_exists in X. exact X.
    - exfalso. assert (Hu : In c (unclaimed toRename (snd e))).
      { apply unclaimed_In. split; [exact Hin|]. intros f Hf.
        destruct (equal f c) eqn:Eq; [|reflexivity].
        assert (Y : existsb (fun file => equal file c) (map fst toRename) = true)
          by (apply existsb_exists; eauto).
        congruence. }
      rewrite E in Hu. contradiction. }
  destruct (Hc c1 H1) as (f1 & Hf1 & E1). destruct (Hc c2 H2) as (f2 & Hf2 & E2).
  rewrite <- (length_map fst). apply (two_in_list _ f1 f2 Hf1 Hf2).
  intros ->. rewrite equal_sym in E1. rewrite (equal_trans c1 f2 c2 E1 E2) in N. discriminate.
Qed.

Lemma resolveKey_fold_counts (cwd sourceRoot targetRoot : jsstring)
  (entries : list (ParsedFile * list ParsedFile)) :
  Forall two_candidates entries ->
  forall acc : list (ParsedFile * jsstring) * list (ParsedFile * ParsedFile),
    (snd acc <> [] -> (2 <= length (fst acc))%nat) ->
    let out := fold_left (resolveKey cwd sourceRoot targetRoot) entries acc in
    (snd out <> [] -> (2 <= length (fst out))%nat)
    /\ (length (fst out) + length (snd out)
        = length (fst acc) + length (snd acc) + length entries)%nat.
Proof.
  induction 1 as [|e entries He _ IH]; intros [toRename toCopy] Hacc; cbn zeta.
  - cbn. split; [exact Hacc|lia].
  - cbn [fold_left].
    assert (Step : resolveKey cwd sourceRoot targetRoot (toRename, toCopy) e
                   = match fileToRename toRename (snd e) with
                     | Some file => (toRename ++ [(file, name (fst e))], toCopy)
                     | None =>
                         (toRename,
                          toCopy ++ [(fst e, withParentDirectory
                                               (relativeTo cwd (fst e) sourceRoot)
                                               targetRoot)])
                     end) by reflexivity.
    rewrite Step. clear Step. cbn [fst snd] in Hacc.
    destruct (fileToRename toRename (snd e)) as [file|] eqn:E.
    + specialize (IH (toRename ++ [(file, name (fst e))], toCopy)).
      cbn zeta in IH. cbn [fst snd] in IH. rewrite length_app in IH. cbn [length] in *.
      destruct IH as [H1 H2]; [intros H; specialize (Hacc H); lia|].
      split; [exact H1|]. rewrite H2. cbn [fst snd]. lia.
    + specialize (IH (toRename,
                      toCopy ++ [(fst e, withParentDirectory
                                           (relativeTo cwd (fst e) sourceRoot) targetRoot)])).
      cbn zeta in IH. cbn [fst snd] in IH. rewrite length_app in IH. cbn [length] in *.
      destruct IH as [H1 H2]; [intros _; now apply (claimed_twice toRename e)|].
      split; [exact H1|]. rewrite H2. cbn [fst snd]. lia.
Qed.

Lemma filter_isCopy_renameCalls (postfix : jsstring) (toRename : list (ParsedFile * jsstring)) :
  filter isCopy (renameCalls postfix toRename) = []
  /\ length (filter isRename (renameCalls postfix toRename)) = length toRename.
Proof. induction toRename as [|e l [IH1 IH2]]; cbn; auto. Qed.

Lemma filter_isCopy_copyCalls (postfix : jsstring) (toCopy : list (ParsedFile * ParsedFile)) :
  length (filter isCopy (copyCalls postfix toCopy)) = length toCopy
  /\ filter isRename (copyCalls postfix toCopy) = [].
Proof. induction toCopy as [|e l [IH1 IH2]]; cbn; auto. Qed.

Lemma candidate_path (n d : jsstring) :
  valid_name n = true ->
  fullPath (withParentDirectory (new_ParsedFile n) d) = NodePath.join [d; []] ++ slash ++ n.
Proof.
  intros Hv. rewrite (withParentDirectory_listed n d Hv).
  apply fullPath_listed, join_nonempty.
Qed.

Lemma NoDup_map_filter {A B : Type} (g : A -> B) (f : A -> bool) (l : list A) :
  NoDup (map g l) -> NoDup (map g (filter f l)).
Proof.
  induction l as [|x l IH]; intros H; [constructor|].
  inversion H as [|? ? Hn Hd]; subst. cbn [filter].
  destruct (f x); [|now apply IH].
  cbn [map]. constructor; [|now apply IH].
  intros Hin. apply Hn. apply in_map_iff in Hin as [y [E Hy]].
  apply filter_In in Hy as [Hy _]. apply in_map_iff. eauto.
Qed.

Lemma listFiles_listedNames_map (entries : list Dirent) :
  listFiles entries = map new_ParsedFile (listedNames entries).
Proof. unfold listFiles, listedNames. now rewrite map_map. Qed.

Lemma listedNames_valid_names (entries : list Dirent) :
  valid_entries entries -> Forall (fun n => valid_name n = true) (listedNames entries).
Proof.
  unfold valid_entries, listedNames. rewrite !Forall_forall. intros H n Hn.
  apply in_map_iff in Hn as [dirent [<- Hd]]. apply filter_In in Hd as [Hd _]. now apply H.
Qed.

Lemma candidates_distinct (targetDir : jsstring) (areSyncable : SyncPredicate)
  (entries : list Dirent) (resolved : list ParsedFile) (sourceFile : ParsedFile) :
  valid_entries entries -> NoDup (listedNames entries) ->
  NoDup (map fullPath
           (targetCandidates targetDir areSyncable (listFiles entries) resolved sourceFile)).
Proof.
  intros Hv Hd. unfold targetCandidates. apply NoDup_map_filter.
  rewrite map_map. apply NoDup_map_filter.
  rewrite listFiles_listedNames_map, map_map.
  pose proof (listedNames_valid_names entries Hv) as Hvn. rewrite Forall_forall in Hvn.
  apply NoDup_map_NoDup_ForallPairs; [|exact Hd].
  intros x y Hx Hy E.
  rewrite (candidate_path x targetDir (Hvn x Hx)), (candidate_path y targetDir (Hvn y Hy)) in E.
  apply app_inv_head in E. now apply app_inv_head in E.
Qed.

Lemma two_candidates_distinct (key : ParsedFile) (candidates : list ParsedFile) :
  (2 <= length candidates)%nat -> NoDup (map fullPath candidates) ->
  two_candidates (key, candidates).
Proof.
  intros L H. destruct candidates as [|c1 [|c2 rest]]; simpl in L; try lia.
  exists c1, c2. cbn [snd]. repeat split; [now left|right; now left|].
  unfold equal. apply str_eqb_neq. intros E.
  cbn [map] in H. inversion H as [|? ? Hn _]; subst. apply Hn. rewrite E. now left.
Qed.

Lemma syncFile_fold_two (sourceDir targetDir : jsstring) (areSyncable : SyncPredicate)
  (targetFiles sourceFiles : list ParsedFile) :
  (forall resolved sourceFile,
      NoDup (map fullPath
               (targetCandidates targetDir areSyncable targetFiles resolved sourceFile))) ->
  forall acc : SyncResults * list Call,
    Forall two_candidates (collisions (fst acc)) ->
    Forall two_candidates
      (collisions (fst (fold_left (syncFile sourceDir targetDir areSyncable targetFiles)
                          sourceFiles acc))).
Proof.
  intros Hd. induction sourceFiles as [|s sourceFiles IH]; intros [r log] H; [exact H|].
  cbn [fold_left]. apply IH.
  destruct (syncFile_step sourceDir targetDir areSyncable targetFiles r log s)
    as (nR & nC & calls & -> & Hcase).
  cbn [fst collisions] in *. apply Forall_app. split; [exact H|].
  destruct Hcase as [(c & _ & _ & -> & _)|[(H2 & _ & -> & _)|(_ & _ & -> & _)]];
    try constructor; [|constructor].
  now apply two_candidates_distinct.
Qed.

Lemma syncDir_two (sourceDir targetDir : jsstring) (areSyncable : SyncPredicate)
  (syncResults : option SyncResults) (input : DirInput) :
  distinct_targets input ->
  Forall two_candidates (collisions (initialResults syncResults)) ->
  Forall two_candidates
    (collisions (fst (syncDir sourceDir targetDir areSyncable syncResults input))).
Proof.
  intros [Hv Hd] H. unfold syncDir. fold (initialResults syncResults).
  apply syncFile_fold_two; [|exact H].
  intros res s. now apply candidates_distinct.
Qed.

Lemma syncNames_two (cwd sourceRoot targetRoot : jsstring) (syncPredicate : SyncPredicate)
  (rootInput : DirInput) (klaw : list (jsstring * DirInput)) :
  distinct_targets rootInput -> Forall (fun k => distinct_targets (snd k)) klaw ->
  Forall two_candidates
    (collisions (fst (syncNames cwd sourceRoot targetRoot syncPredicate rootInput klaw))).
Proof.
  intros Hroot Hklaw. unfold syncNames.
  assert (H0 : Forall two_candidates
                 (collisions (fst (syncDir sourceRoot targetRoot syncPredicate None rootInput))))
    by (apply syncDir_two; [exact Hroot|constructor]).
  revert H0. generalize (syncDir sourceRoot targetRoot syncPredicate None rootInput).
  induction Hklaw as [|k klaw Hk _ IH]; intros acc Hacc; [exact Hacc|].
  cbn [fold_left]. apply IH.
  pose proof (syncDir_two
                (NodePath.join [sourceRoot; NodePath.relative cwd sourceRoot (fst k)])
                (NodePath.join [targetRoot; NodePath.relative cwd sourceRoot (fst k)])
                syncPredicate (Some (fst acc)) (snd k) Hk Hacc) as H.
  destruct (syncDir _ _ _ _ _) as [r calls]. exact H.
Qed.

(** X10.  The resolver after the walk.  When no target listing holds a
    name twice, every collision that [syncNames] leaves has two candidates
    of different paths.  The first loop of [resolveCollisions], which
    writes nothing, then puts every key into exactly one of [toRename] and
    [toCopy], and it decides a fallback copy only after it has decided two
    renames at least: with one or two collisions [toCopy] stays empty and
    no copy is called. *)
Theorem resolver_copies_after_two_renames (cwd sourceRoot targetRoot : jsstring)
  (syncPredicate : SyncPredicate) (rootInput : DirInput) (klaw : list (jsstring * DirInput))
  (postfix : jsstring) :
  distinct_targets rootInput -> Forall (fun k => distinct_targets (snd k)) klaw ->
  let results := fst (syncNames cwd sourceRoot targetRoot syncPredicate rootInput klaw) in
  let decisions := decideCollisions cwd sourceRoot targetRoot (collisions results) in
  let calls := resolveCollisions cwd sourceRoot targetRoot (collisions results) postfix in
  Forall two_candidates (collisions results)
  /\ (length (fst decisions) + length (snd decisions) = length (collisions results))%nat
  /\ (snd decisions <> [] -> (2 <= length (fst decisions))%nat)
  /\ ((length (collisions results) <= 2)%nat -> snd decisions = [] /\ filter isCopy calls = []).
Proof.
  intros Hroot Hklaw results decisions calls.
  pose proof (syncNames_two cwd sourceRoot targetRoot syncPredicate rootInput klaw Hroot Hklaw)
    as Htwo. fold results in Htwo.
  assert (Hs : Forall two_candidates (sortedCollisions (collisions results))).
  { rewrite Forall_forall in *. intros e He. apply Htwo.
    eapply Permutation_in; [|exact He].
    apply Permutation_sym, (sort_perm (fun e => stemLength (fst e))). }
  destruct (resolveKey_fold_counts cwd sourceRoot targetRoot _ Hs ([], [])) as [Hcopy Hsum].
  { cbn. congruence. }
  fold (decideCollisions cwd sourceRoot targetRoot (collisions results)) in Hcopy, Hsum.
  fold decisions in Hcopy, Hsum. cbn [fst snd length] in Hsum.
  assert (Hl : length (sortedCollisions (collisions results)) = length (collisions results)).
  { apply Permutation_length, Permutation_sym, (sort_perm (fun e => stemLength (fst e))). }
  split; [exact Htwo|]. split; [lia|]. split; [exact Hcopy|].
  intros Hle.
  assert (He : snd decisions = []).
  { destruct (snd decisions) as [|c l] eqn:E; [reflexivity|].
    assert (N : c :: l <> []) by discriminate. specialize (Hcopy N). simpl in Hsum. lia. }
  split; [exact He|].
  unfold calls. rewrite resolveCollisions_calls. fold decisions. rewrite He, filter_app.
  destruct (filter_isCopy_renameCalls postfix (fst decisions)) as [-> _]. reflexivity.
Qed.

Lemma resolver_copies_after_two_renames_witness :
  filter isCopy
    (resolveCollisions (js "/work") (js "src") (js "tgt")
       (collisions
          (fst (syncNames (js "/work") (js "src") (js "tgt") areSyncable
                  (mkDirInput
                     [mkDirent (js "abc.txt") true; mkDirent (js "abd.txt") true]
                     true
                     [mkDirent (js "a.txt") true; mkDirent (js "ab.txt") true])
                  [])))
       (js "dup"))
  = [].
Proof.
  destruct (resolver_copies_after_two_renames (js "/work") (js "src") (js "tgt") areSyncable
              (mkDirInput [mkDirent (js "abc.txt") true; mkDirent (js "abd.txt") true] true
                 [mkDirent (js "a.txt") true; mkDirent (js "ab.txt") true])
              [] (js "dup")) as (_ & _ & _ & H).
  - split.
    + repeat constructor.
    + vm_compute. repeat constructor; simpl; intuition discriminate.
  - constructor.
  - apply H. vm_compute. lia.
Defined.

(* ================================================================== *)
(** * The order of the resolver *)

Lemma unclaimed_nil (candidates : list ParsedFile) : unclaimed [] candidates = candidates.
Proof.
  unfold unclaimed. cbn [map existsb negb].
  induction candidates as [|c l IH]; [reflexivity|]. cbn [filter]. now rewrite IH.
Qed.

(** X11.  The key that the resolver visits first, one of longest stem,
    is never copied when it has a candidate: the first call of
    [resolveCollisions] renames the candidate of longest stem of that key,
    whatever the other collisions are. *)
Theorem resolveCollisions_first_call (cwd sourceRoot targetRoot : jsstring)
  (collisions : list (ParsedFile * list ParsedFile)) (postfix : jsstring) :
  collisions <> [] -> Forall (fun e => snd e <> []) collisions ->
  exists sourceFile candidates file calls,
    In (sourceFile, candidates) collisions /\ In file candidates
    /\ Forall (fun e => (length (name (fst e)) <= length (name sourceFile))%nat) collisions
    /\ Forall (fun c => (length (name c) <= length (name file))%nat) candidates
    /\ resolveCollisions cwd sourceRoot targetRoot collisions postfix
       = RenameFile file (name sourceFile ++ js " " ++ postfix)
         :: OnProgress (fullPath file) :: calls.
Proof.
  intros Hne Hcands.
  set (key := fun e : ParsedFile * list ParsedFile => stemLength (fst e)).
  assert (Hperm : Permutation collisions (sortedCollisions collisions))
    by apply (sort_perm key).
  assert (Hsorted : StronglySorted (fun a b => key b <= key a) (sortedCollisions collisions))
    by apply (sort_sorted key).
  destruct (sortedCollisions collisions) as [|[sourceFile candidates] rest] eqn:Es.
  { apply Permutation_sym, Permutation_nil in Hperm. contradiction. }
  assert (Hin : In (sourceFile, candidates) collisions).
  { eapply Permutation_in; [apply Permutation_sym; exact Hperm|now left]. }
  assert (Hc : candidates <> []).
  { rewrite Forall_forall in Hcands. apply (Hcands _ Hin). }
  destruct (fileToRename [] candidates) as [file|] eqn:Ef.
  2:{ apply fileToRename_None in Ef. rewrite unclaimed_nil in Ef. contradiction. }
  exists sourceFile, candidates, file.
  destruct (resolveKey_fold_grows cwd sourceRoot targetRoot rest
              [(file, name sourceFile)] []) as (moreRename & moreCopy & Hfold).
  exists (renameCalls postfix moreRename ++ copyCalls postfix moreCopy).
  split; [exact Hin|]. split; [apply (fileToRename_In [] candidates file Ef)|]. split; [|split].
  - apply StronglySorted_inv in Hsorted as [_ Hall].
    rewrite Forall_forall in *. intros e He.
    apply (Permutation_in _ Hperm) in He. destruct He as [<-|He]; [cbn; lia|].
    specialize (Hall e He). unfold key, stemLength, len in Hall. cbn [fst] in Hall. lia.
  - destruct (fileToRename_first [] candidates file Ef) as (l1 & l2 & E & H1 & H2).
    rewrite unclaimed_nil in E. rewrite E. apply Forall_app. split.
    + eapply Forall_impl; [|exact H1]. cbn. intros; lia.
    + constructor; [lia|exact H2].
  - rewrite resolveCollisions_calls. unfold decideCollisions. rewrite Es.
    cbn [fold_left]. unfold resolveKey at 2 4. cbn [fst snd]. rewrite Ef.
    cbn [app]. rewrite Hfold. cbn [fst snd app renameCalls flat_map].
    reflexivity.
Qed.

Lemma resolveCollisions_first_call_witness :
  exists sourceFile candidates file calls,
    In (sourceFile, candidates)
      [(new_ParsedFile (js "src/ab.txt"),
        [new_ParsedFile (js "tgt/a.txt"); new_ParsedFile (js "tgt/ab.txt")])]
    /\ In file candidates
    /\ resolveCollisions (js "/work") (js "src") (js "tgt")
         [(new_ParsedFile (js "src/ab.txt"),
           [new_ParsedFile (js "tgt/a.txt"); new_ParsedFile (js "tgt/ab.txt")])]
         (js "dup")
       = RenameFile file (name sourceFile ++ js " " ++ js "dup")
         :: OnProgress (fullPath file) :: calls.
Proof.
  destruct (resolveCollisions_first_call (js "/work") (js "src") (js "tgt")
              [(new_ParsedFile (js "src/ab.txt"),
                [new_ParsedFile (js "tgt/a.txt"); new_ParsedFile (js "tgt/ab.txt")])]
              (js "dup"))
    as (sourceFile & candidates & file & calls & H1 & H2 & _ & _ & H3).
  - discriminate.
  - constructor; [discriminate|constructor].
  - exists sourceFile, candidates, file, calls. auto.
Defined.

Lemma sorted_perm_unique {A : Type} (key : A -> Z) (l : list A) :
  forall l' : list A,
    StronglySorted (fun a b => key b <= key a) l ->
    StronglySorted (fun a b => key b <= key a) l' ->
    Permutation l l' -> NoDup (map key l) -> l = l'.
Proof.
  induction l as [|a l IH]; intros l' Hs Hs' Hp Hd.
  - apply Permutation_nil in Hp. now subst.
  - destruct l' as [|b l'].
    { apply Permutation_sym, Permutation_nil in Hp. discriminate. }
    apply StronglySorted_inv in Hs as [Hs Ha]. apply StronglySorted_inv in Hs' as [Hs' Hb].
    inversion Hd as [|? ? Hn Hd']; subst.
    rewrite Forall_forall in Ha, Hb.
    assert (Hab : In b (a :: l)) by (eapply Permutation_in; [apply Permutation_sym; exact Hp|now left]).
    assert (Hba : In a (b :: l')) by (eapply Permutation_in; [exact Hp|now left]).
    assert (E : b = a).
    { destruct Hab as [E|Hab]; [now symmetry|].
      destruct Hba as [E|Hba]; [exact E|].
      exfalso. apply Hn. pose proof (Ha b Hab). pose proof (Hb a Hba).
      replace (key a) with (key b) by lia. now apply in_map. }
    subst b. f_equal. apply IH; auto. now apply Permutation_cons_inv in Hp.
Qed.

(** X12.  The collisions reach [resolveCollisions] in the insertion order
    of the map.  When no two keys have stems of the same length that order
    plays no part: the same collisions in another order give the same
    calls. *)
Theorem resolveCollisions_order_independent (cwd sourceRoot targetRoot : jsstring)
  (collisions collisions' : list (ParsedFile * list ParsedFile)) (postfix : jsstring) :
  Permutation collisions collisions' ->
  NoDup (map (fun e => stemLength (fst e)) collisions) ->
  resolveCollisions cwd sourceRoot targetRoot collisions postfix
  = resolveCollisions cwd sourceRoot targetRoot collisions' postfix.
Proof.
  intros Hp Hd.
  set (key := fun e : ParsedFile * list ParsedFile => stemLength (fst e)) in *.
  assert (E : sortedCollisions collisions = sortedCollisions collisions').
  { apply (sorted_perm_unique key).
    - apply (sort_sorted key).
    - apply (sort_sorted key).
    - eapply Permutation_trans; [apply Permutation_sym, (sort_perm key)|].
      eapply Permutation_trans; [exact Hp|apply (sort_perm key)].
    - eapply Permutation_NoDup; [|exact Hd].
      apply Permutation_map, (sort_perm key). }
  rewrite !resolveCollisions_calls. unfold decideCollisions. now rewrite E.
Qed.

Lemma resolveCollisions_order_independent_witness :
  resolveCollisions (js "/work") (js "src") (js "tgt")
    [(new_ParsedFile (js "src/ab.txt"), [new_ParsedFile (js "tgt/a.txt")]);
     (new_ParsedFile (js "src/abc.txt"), [new_ParsedFile (js "tgt/a.txt")])]
    (js "dup")
  = resolveCollisions (js "/work") (js "src") (js "tgt")
      [(new_ParsedFile (js "src/abc.txt"), [new_ParsedFile (js "tgt/a.txt")]);
       (new_ParsedFile (js "src/ab.txt"), [new_ParsedFile (js "tgt/a.txt")])]
      (js "dup").
Proof.
  apply resolveCollisions_order_independent.
  - apply perm_swap.
  - vm_compute. repeat constructor; simpl; intuition discriminate.
Defined.

(* ================================================================== *)
(** * The dry run *)

Lemma writes_of_app (a b : list Output) : writes_of (a ++ b) = writes_of a ++ writes_of b.
Proof. apply flat_map_app. Qed.

Lemma printed_of_app (a b : list Output) : printed_of (a ++ b) = printed_of a ++ printed_of b.
Proof. apply flat_map_app. Qed.

Lemma ticked_of_app (a b : list Output) : ticked_of (a ++ b) = ticked_of a ++ ticked_of b.
Proof. apply flat_map_app. Qed.

Lemma writes_of_Wrote (ws : list FsWrite) : writes_of (map Wrote ws) = ws.
Proof. induction ws as [|w ws IH]; [reflexivity|]. cbn. now f_equal. Qed.

Lemma printed_of_Wrote (ws : list FsWrite) : printed_of (map Wrote ws) = [].
Proof. induction ws as [|w ws IH]; [reflexivity|]. exact IH. Qed.

Lemma ticked_of_Wrote (ws : list FsWrite) : ticked_of (map Wrote ws) = [].
Proof. induction ws as [|w ws IH]; [reflexivity|]. exact IH. Qed.

(** One call under each binding of [renameFile] and [copyFile]. *)
Lemma run_call_outputs (dry withBar : bool) (c : Call) :
  writes_of (run_call dry withBar c)
  = (if dry then filter isFsMkdir (perform c) else perform c)
  /\ printed_of (run_call dry withBar c)
     = (if dry && negb withBar then flat_map report_line (perform c) else [])
  /\ ticked_of (run_call dry withBar c)
     = (if withBar then progress_messages [c] else []).
Proof.
  destruct c as [p|file newName|s t|message]; cbn [run_call perform].
  - destruct dry, withBar; repeat split; reflexivity.
  - unfold bound_renameFile, renameFileMock, renameFile.
    destruct dry, withBar; cbn [andb negb];
      destruct (negb (str_eqb (name file) newName)); repeat split; reflexivity.
  - unfold bound_copyFile, copyFileMock, copyFile.
    destruct dry, withBar; repeat split; reflexivity.
  - destruct dry, withBar; repeat split; reflexivity.
Qed.

Lemma run_outputs (dry withBar : bool) (log : list Call) :
  writes_of (run dry withBar log)
  = (if dry then filter isFsMkdir (fs_writes log) else fs_writes log)
  /\ printed_of (run dry withBar log)
     = (if dry && negb withBar then flat_map report_line (fs_writes log) else [])
  /\ ticked_of (run dry withBar log)
     = (if withBar then progress_messages log else []).
Proof.
  induction log as [|c log (IH1 & IH2 & IH3)].
  - destruct dry, withBar; repeat split; reflexivity.
  - unfold run, fs_writes, progress_messages in *. cbn [flat_map].
    rewrite writes_of_app, printed_of_app, ticked_of_app, IH1, IH2, IH3.
    destruct (run_call_outputs dry withBar c) as (-> & -> & ->).
    cbn [progress_messages flat_map]. rewrite app_nil_r.
    destruct dry, withBar; cbn [andb negb];
      rewrite ?filter_app, ?flat_map_app; repeat split; reflexivity.
Qed.

(** X13.  Under [--fake] the rebinding of [main] holds back the renames
    and the copies and nothing else: [syncDir] calls [fs.mkdirSync]
    itself, so the dry run makes exactly the directories of the real run.
    A dry run of [syncDir] on a target directory that does not exist
    creates it. *)
Theorem dry_run_writes (withBar : bool) (log : list Call) :
  writes_of (run true withBar log) = filter isFsMkdir (fs_writes log)
  /\ writes_of (run false withBar log) = fs_writes log
  /\ forall (sourceDir targetDir : jsstring) (areSyncable : SyncPredicate)
       (syncResults : option SyncResults) (input : DirInput),
       target_exists input = false ->
       In (FsMkdir targetDir)
         (writes_of (run true withBar
                       (snd (syncDir sourceDir targetDir areSyncable syncResults input)))).
Proof.
  split; [apply (run_outputs true withBar log)|].
  split; [apply (run_outputs false withBar log)|].
  intros sourceDir targetDir areSyncable syncResults input He.
  destruct (syncDir_contribution sourceDir targetDir areSyncable syncResults input)
    as (nR & nC & calls & -> & _).
  rewrite He. cbn [negb snd app]. now left.
Qed.

(** X14.  What the dry run shows.  Without the bar the mocks print one
    line for each rename and each copy that the shipped functions would
    make, with the same paths and in the same order, and no line for a
    rename to the stem that the file has already.  With the bar nothing is
    printed and every progress call is a tick; without it there is no
    tick. *)
Theorem dry_run_report (log : list Call) :
  printed_of (run true false log) = flat_map report_line (fs_writes log)
  /\ printed_of (run true true log) = []
  /\ (forall withBar, printed_of (run false withBar log) = [])
  /\ (forall dry, ticked_of (run dry true log) = progress_messages log)
  /\ (forall dry, ticked_of (run dry false log) = []).
Proof.
  split; [apply (run_outputs true false log)|].
  split; [apply (run_outputs true true log)|].
  split; [intros withBar; apply (run_outputs false withBar log)|].
  split; intros dry; [apply (run_outputs dry true log)|apply (run_outputs dry false log)].
Qed.

(* ================================================================== *)
(** * The command line *)

Section CommandLine.

Variable number : Type.
Variable numberToBoolean : number -> bool.
Variable number_0 : number.

(** X15.  How [applyArgv] ends.  A request for help prints the usage and
    exits with code 0 before anything else is read.  Otherwise a missing or
    falsy root is an error that exits with code 1, and the backup copy is
    attempted only once both roots are there, from the target root to the
    directory of [-b].  The call returns a configuration exactly when no
    help is asked, both roots are given and the backup, if asked, does not
    throw. *)
Theorem applyArgv_completion (argv : ParsedArgs number) (copySyncThrows : option (JsValue number)) :
  let out := applyArgv number numberToBoolean number_0 argv copySyncThrows in
  (wantsHelp numberToBoolean argv = true ->
   out = ([Console_log number [JsString usage]], Exits 0))
  /\ (wantsHelp numberToBoolean argv = false -> hasRoots numberToBoolean argv = false ->
      out = ([Console_error number (JsString provide_directories)], Exits 1))
  /\ (forall src dest,
         In (CopySync number src dest) (fst out)
         <-> wantsHelp numberToBoolean argv = false /\ hasRoots numberToBoolean argv = true
             /\ toBoolean number numberToBoolean (argv_b number argv) = true
             /\ src = argv_t number argv /\ dest = argv_b number argv)
  /\ ((exists config, snd out = Returns config)
      <-> wantsHelp numberToBoolean argv = false /\ hasRoots numberToBoolean argv = true
          /\ (toBoolean number numberToBoolean (argv_b number argv) = true ->
              copySyncThrows = None))
  /\ (forall code, snd out = Exits code ->
        (code = 0 /\ wantsHelp numberToBoolean argv = true)
        \/ (code = 1 /\ wantsHelp numberToBoolean argv = false)).
Proof.
  intros out. unfold out, applyArgv. fold (wantsHelp numberToBoolean argv).
  fold (hasRoots numberToBoolean argv).
  destruct (wantsHelp numberToBoolean argv) eqn:Eh;
    [|destruct (hasRoots numberToBoolean argv) eqn:Er;
      [destruct (toBoolean number numberToBoolean (argv_b number argv)) eqn:Eb;
       [destruct copySyncThrows as [error|]|]|]];
    unfold handleError; cbn [negb fst snd In];
    (split; [|split; [|split; [|split]]]).
  all: try (intros; congruence).
  all: try (intros src dest; split;
            [solve [intuition congruence]|solve [intuition (try discriminate)]]).
  all: try (split; [intros [c H]; discriminate H|solve [intuition discriminate]]).
  all: try (split; [solve [intuition (try discriminate)]|intros _; eexists; reflexivity]).
  all: try (intros code H; injection H as <-; solve [auto]).
  all: intros src dest; split;
    [intros [H|[H|[]]]; [injection H as <- <-; auto|discriminate H]
    |intros (_ & _ & _ & -> & ->); now left].
Qed.

(** X16.  The configuration that [applyArgv] returns.  The roots are the
    values of [-t] and [-s] and are truthy.  The collision postfix is the
    value of [-p] when it is truthy and [$collision$] otherwise, so it is
    never the empty string.  A run that is not a dry run always has the
    bar, and the delay is the value of [--delay] only when it is a
    number. *)
Theorem applyArgv_config (argv : ParsedArgs number) (copySyncThrows : option (JsValue number))
  (config : SyncConfig number) :
  snd (applyArgv number numberToBoolean number_0 argv copySyncThrows) = Returns config ->
  (targetRoot number config = argv_t number argv
   /\ sourceRoot number config = argv_s number argv
   /\ toBoolean number numberToBoolean (targetRoot number config) = true
   /\ toBoolean number numberToBoolean (sourceRoot number config) = true)
  /\ (collisionPostfix number config
      = (if toBoolean number numberToBoolean (argv_p number argv)
         then argv_p number argv else JsString (js "$collision$"))
      /\ toBoolean number numberToBoolean (collisionPostfix number config) = true
      /\ collisionPostfix number config <> JsString [])
  /\ (fake number config = toBoolean number numberToBoolean (argv_fake number argv)
      /\ withBar number config
         = (toBoolean number numberToBoolean (argv_bar number argv)
            || negb (toBoolean number numberToBoolean (argv_fake number argv)))
      /\ (fake number config = false -> withBar number config = true))
  /\ barDelay number config
     = match argv_delay number argv with
       | JsNumber x => x
       | _ => number_0
       end.
Proof.
  unfold applyArgv.
  destruct (toBoolean number numberToBoolean (argv_help number argv)
            || toBoolean number numberToBoolean (argv_h number argv)
            || includes_help number (argv__ number argv)); [discriminate|].
  destruct (toBoolean number numberToBoolean (argv_s number argv)) eqn:Es;
    [|discriminate].
  destruct (toBoolean number numberToBoolean (argv_t number argv)) eqn:Et;
    [|discriminate].
  cbn [andb negb].
  assert (Hp : toBoolean number numberToBoolean
                 (if toBoolean number numberToBoolean (argv_p number argv)
                  then argv_p number argv else JsString (js "$collision$")) = true).
  { destruct (toBoolean number numberToBoolean (argv_p number argv)) eqn:Ep;
      [exact Ep|reflexivity]. }
  intros H.
  assert (E : config
              = {| targetRoot := argv_t number argv;
                   sourceRoot := argv_s number argv;
                   collisionPostfix :=
                     if toBoolean number numberToBoolean (argv_p number argv)
                     then argv_p number argv else JsString (js "$collision$");
                   withBar :=
                     negb (negb (toBoolean number numberToBoolean (argv_bar number argv)))
                     || negb (negb (negb (toBoolean number numberToBoolean
                                            (argv_fake number argv))));
                   fake := negb (negb (toBoolean number numberToBoolean
                                         (argv_fake number argv)));
                   barDelay := match argv_delay number argv with
                               | JsNumber x => x
                               | _ => number_0
                               end |}).
  { destruct (toBoolean number numberToBoolean (argv_b number argv)).
    - destruct copySyncThrows; [discriminate H|]. cbn [snd] in H. now injection H.
    - cbn [snd] in H. now injection H. }
  subst config. cbn [targetRoot sourceRoot collisionPostfix withBar fake barDelay].
  rewrite !negb_involutive.
  repeat split; auto.
  - intros E. rewrite E in Hp. discriminate Hp.
  - intros E. rewrite E. now rewrite orb_true_r.
Qed.

End CommandLine.

Lemma applyArgv_config_witness :
  exists config,
    snd (applyArgv Z (fun x => negb (x =? 0)) 0
           (mkParsedArgs Z JsUndefined JsUndefined []
              (JsString (js "tgt")) (JsString (js "src")) (JsString [])
              JsUndefined (JsBoolean true) JsUndefined (JsString (js "5")))
           None)
    = Returns config
    /\ collisionPostfix Z config = JsString (js "$collision$")
    /\ withBar Z config = false
    /\ barDelay Z config = 0.
Proof.
  eexists. split; [reflexivity|].
  pose proof (applyArgv_config Z (fun x => negb (x =? 0)) 0
                (mkParsedArgs Z JsUndefined JsUndefined []
                   (JsString (js "tgt")) (JsString (js "src")) (JsString [])
                   JsUndefined (JsBoolean true) JsUndefined (JsString (js "5")))
                None _ eq_refl) as (_ & (Hp & _) & (_ & Hb & _) & Hd).
  split; [exact Hp|split; [exact Hb|exact Hd]].
Defined.

(* ================================================================== *)
(** * Equality of descriptors *)

(** X17.  [equal] compares the full paths and nothing else.  It is an
    equivalence, two descriptors built from well-formed paths are equal
    exactly when the paths are the same string, and descriptors that split
    the same base name differently are equal. *)
Theorem equal_paths :
  (forall a : ParsedFile, equal a a = true)
  /\ (forall a b : ParsedFile, equal a b = equal b a)
  /\ (forall a b c : ParsedFile, equal a b = true -> equal b c = true -> equal a c = true)
  /\ (forall p q : jsstring,
         well_formed p = true -> well_formed q = true ->
         (equal (new_ParsedFile p) (new_ParsedFile q) = true <-> p = q))
  /\ (forall r d n e : jsstring,
         equal (mkParsedFile r d (n ++ e) []) (mkParsedFile r d n e) = true).
Proof.
  split; [intros a; apply str_eqb_refl|].
  split; [apply equal_sym|].
  split; [apply equal_trans|].
  split.
  - intros p q Hp Hq. unfold equal. rewrite str_eqb_eq.
    apply roundtrip_iff in Hp, Hq. rewrite Hp, Hq. reflexivity.
  - intros r d n e. unfold equal. apply str_eqb_eq.
    rewrite !fullPath_cases. unfold base. cbn [root dir name ext]. now rewrite app_nil_r.
Qed.

(* ================================================================== *)
(** * The order of the listing and the next run *)

Lemma targetCandidates_single (targetDir : jsstring) (areSyncable : SyncPredicate)
  (targetFiles resolved : list ParsedFile) (sourceFile t : ParsedFile) :
  filter (fun candidate => areSyncable sourceFile candidate) targetFiles = [t] ->
  targetCandidates targetDir areSyncable targetFiles resolved sourceFile
  = if existsb (fun file => equal file (withParentDirectory t targetDir)) resolved
    then [] else [withParentDirectory t targetDir].
Proof.
  intros H. unfold targetCandidates. rewrite H. cbn [map filter].
  destruct (existsb _ resolved); reflexivity.
Qed.

Lemma syncFile_fold_mono (sourceDir targetDir : jsstring) (areSyncable : SyncPredicate)
  (targetFiles sourceFiles : list ParsedFile) (acc : SyncResults * list Call) :
  let out := fold_left (syncFile sourceDir targetDir areSyncable targetFiles) sourceFiles acc in
  (forall c, In c (snd acc) -> In c (snd out))
  /\ (forall f, In f (resolved (fst acc)) -> In f (resolved (fst out))).
Proof.
  destruct acc as [r log].
  destruct (syncFile_fold_accounting sourceDir targetDir areSyncable targetFiles sourceFiles
              r log) as (nR & nC & calls & E & _).
  cbn zeta. rewrite E. cbn [fst snd resolved].
  split; intros x Hx; apply in_or_app; now left.
Qed.

Lemma syncFile_free (sourceDir targetDir : jsstring) (areSyncable : SyncPredicate)
  (targetFiles : list ParsedFile) (acc : SyncResults * list Call) (sourceFile t : ParsedFile) :
  filter (fun candidate => areSyncable sourceFile candidate) targetFiles = [t] ->
  existsb (fun file => equal file (withParentDirectory t targetDir)) (resolved (fst acc))
  = false ->
  let out := syncFile sourceDir targetDir areSyncable targetFiles acc sourceFile in
  In (RenameFile (withParentDirectory t targetDir) (name sourceFile)) (snd out)
  /\ In (withParentDirectory t targetDir) (resolved (fst out)).
Proof.
  intros H Hfree. destruct acc as [r log]. cbn [fst] in Hfree.
  destruct (syncFile_step sourceDir targetDir areSyncable targetFiles r log sourceFile)
    as (nR & nC & calls & E & Hcase).
  rewrite (targetCandidates_single _ _ _ _ _ t H), Hfree in Hcase.
  cbn zeta. rewrite E. cbn [fst snd resolved].
  destruct Hcase as [(c & Hc & -> & -> & ->)|[(L & _)|(Hc & _)]];
    [|simpl in L; lia|discriminate Hc].
  injection Hc as <-. split.
  - apply in_or_app. right. now left.
  - apply in_or_app. right. now left.
Qed.

Lemma syncFile_taken (sourceDir targetDir : jsstring) (areSyncable : SyncPredicate)
  (targetFiles : list ParsedFile) (acc : SyncResults * list Call) (sourceFile t : ParsedFile) :
  filter (fun candidate => areSyncable sourceFile candidate) targetFiles = [t] ->
  In (withParentDirectory t targetDir) (resolved (fst acc)) ->
  In (CopyFile (withParentDirectory sourceFile sourceDir)
        (withParentDirectory sourceFile targetDir))
    (snd (syncFile sourceDir targetDir areSyncable targetFiles acc sourceFile)).
Proof.
  intros H Hin. destruct acc as [r log]. cbn [fst] in Hin.
  destruct (syncFile_step sourceDir targetDir areSyncable targetFiles r log sourceFile)
    as (nR & nC & calls & E & Hcase).
  assert (Htaken : existsb (fun file => equal file (withParentDirectory t targetDir))
                     (resolved r) = true).
  { apply existsb_exists. exists (withParentDirectory t targetDir).
    split; [exact Hin|apply str_eqb_refl]. }
  rewrite (targetCandidates_single _ _ _ _ _ t H), Htaken in Hcase.
  rewrite E. cbn [snd].
  destruct Hcase as [(c & Hc & _)|[(L & _)|(_ & _ & _ & ->)]];
    [discriminate Hc|simpl in L; lia|].
  apply in_or_app. right. now left.
Qed.

Lemma syncFile_fold_keeps_free (sourceDir targetDir : jsstring) (areSyncable : SyncPredicate)
  (targetFiles sourceFiles : list ParsedFile) (c : ParsedFile) :
  (forall s0 t0, In s0 sourceFiles -> In t0 targetFiles -> areSyncable s0 t0 = true ->
                 equal (withParentDirectory t0 targetDir) c = false) ->
  forall acc : SyncResults * list Call,
    existsb (fun file => equal file c) (resolved (fst acc)) = false ->
    existsb (fun file => equal file c)
      (resolved (fst (fold_left (syncFile sourceDir targetDir areSyncable targetFiles)
                        sourceFiles acc))) = false.
Proof.
  induction sourceFiles as [|s sourceFiles IH]; intros Hmiss [r log] Hfree; [exact Hfree|].
  cbn [fold_left]. apply IH.
  { intros s0 t0 Hs0. apply Hmiss. now right. }
  destruct (syncFile_step sourceDir targetDir areSyncable targetFiles r log s)
    as (nR & nC & calls & -> & Hcase).
  cbn [fst resolved] in *. rewrite existsb_app, Hfree. cbn [orb].
  destruct Hcase as [(c' & Hc & -> & _)|[(_ & -> & _)|(_ & -> & _)]]; try reflexivity.
  cbn [existsb]. rewrite orb_false_r.
  assert (Hin : In c' (targetCandidates targetDir areSyncable targetFiles (resolved r) s))
    by (rewrite Hc; now left).
  apply targetCandidates_In in Hin as [[t0 (Ht0 & Hp & ->)] _].
  apply (Hmiss s t0); auto. now left.
Qed.

(** X18.  The loop of [syncDir] serves the source files in the order of
    the listing.  Take two source files that each match one target file
    only, the same for both, which is not resolved when [syncDir] starts and
    which no source file listed before the two matches.  Then the one that
    is listed first gets it: the target file is renamed to its stem, and the
    other source file is copied. *)
Theorem syncDir_first_come_first_served (sourceDir targetDir : jsstring)
  (areSyncable : SyncPredicate) (syncResults : option SyncResults) (input : DirInput)
  (s1 s2 t : ParsedFile) (before between after : list ParsedFile) :
  listFiles (source_entries input) = before ++ s1 :: between ++ s2 :: after ->
  filter (fun candidate => areSyncable s1 candidate) (listFiles (target_entries input)) = [t] ->
  filter (fun candidate => areSyncable s2 candidate) (listFiles (target_entries input)) = [t] ->
  existsb (fun file => equal file (withParentDirectory t targetDir))
    (resolved (initialResults syncResults)) = false ->
  (forall s0 t0, In s0 before -> In t0 (listFiles (target_entries input)) ->
                 areSyncable s0 t0 = true ->
                 equal (withParentDirectory t0 targetDir) (withParentDirectory t targetDir)
                 = false) ->
  let out := syncDir sourceDir targetDir areSyncable syncResults input in
  In (RenameFile (withParentDirectory t targetDir) (name s1)) (snd out)
  /\ In (CopyFile (withParentDirectory s2 sourceDir) (withParentDirectory s2 targetDir))
       (snd out)
  /\ In (withParentDirectory t targetDir) (resolved (fst out)).
Proof.
  intros Hlist H1 H2 Hfree Hbefore out. unfold out, syncDir.
  fold (initialResults syncResults). rewrite Hlist.
  set (targetFiles := listFiles (target_entries input)) in *.
  set (step := syncFile sourceDir targetDir areSyncable targetFiles).
  rewrite fold_left_app. cbn [fold_left]. rewrite fold_left_app. cbn [fold_left].
  set (st := (initialResults syncResults,
              if negb (target_exists input) then [MkdirSync targetDir] else [])).
  pose proof (syncFile_fold_keeps_free sourceDir targetDir areSyncable targetFiles before
                (withParentDirectory t targetDir) Hbefore st Hfree) as Hfree0.
  fold step in Hfree0. set (st0 := fold_left step before st) in *.
  destruct (syncFile_free sourceDir targetDir areSyncable targetFiles st0 s1 t H1 Hfree0)
    as [Hren Hres].
  fold step in Hren, Hres. set (st1 := step st0 s1) in *.
  destruct (syncFile_fold_mono sourceDir targetDir areSyncable targetFiles between st1)
    as [Hlog2 Hres2].
  fold step in Hlog2, Hres2. set (st2 := fold_left step between st1) in *.
  pose proof (syncFile_taken sourceDir targetDir areSyncable targetFiles st2 s2 t H2
                (Hres2 _ Hres)) as Hcopy.
  destruct (syncFile_fold_mono sourceDir targetDir areSyncable targetFiles [s2] st2)
    as [Hlog3 Hres3].
  fold step in Hcopy, Hlog3, Hres3. cbn [fold_left] in Hlog3, Hres3.
  set (st3 := step st2 s2) in *.
  destruct (syncFile_fold_mono sourceDir targetDir areSyncable targetFiles after st3)
    as [Hlog4 Hres4].
  fold step in Hlog4, Hres4.
  repeat split; auto.
Qed.

Lemma syncDir_first_come_first_served_witness :
  let out :=
    syncDir (js "src") (js "tgt") areSyncable None
      (mkDirInput
         [mkDirent (js "b.txt") true; mkDirent (js "ab.txt") true; mkDirent (js "ac.txt") true]
         true
         [mkDirent (js "a.txt") true; mkDirent (js "b.txt") true]) in
  In (RenameFile (withParentDirectory (new_ParsedFile (js "a.txt")) (js "tgt")) (js "ab"))
    (snd out)
  /\ In (CopyFile (withParentDirectory (new_ParsedFile (js "ac.txt")) (js "src"))
           (withParentDirectory (new_ParsedFile (js "ac.txt")) (js "tgt")))
       (snd out).
Proof.
  intros out.
  destruct (syncDir_first_come_first_served (js "src") (js "tgt") areSyncable None
              (mkDirInput
                 [mkDirent (js "b.txt") true; mkDirent (js "ab.txt") true;
                  mkDirent (js "ac.txt") true]
                 true
                 [mkDirent (js "a.txt") true; mkDirent (js "b.txt") true])
              (new_ParsedFile (js "ab.txt")) (new_ParsedFile (js "ac.txt"))
              (new_ParsedFile (js "a.txt")) [new_ParsedFile (js "b.txt")] [] [])
    as (H1 & H2 & _); try reflexivity.
  - intros s0 t0 [<-|[]] [<-|[<-|[]]] Hp; [discriminate Hp|reflexivity].
  - split; [exact H1|exact H2].
Defined.

Lemma normalized_app (a b : jsstring) : normalized (a ++ b) = normalized a ++ normalized b.
Proof. apply filter_app. Qed.

Lemma new_listed_fields (m e : jsstring) :
  valid_name (m ++ e) = true -> stem_ext true (m ++ e) = (m, e) ->
  name (new_ParsedFile (m ++ e)) = m /\ ext (new_ParsedFile (m ++ e)) = e.
Proof.
  intros Hv Hx. rewrite (new_listed _ Hv). unfold component. cbn [name ext].
  now rewrite Hx.
Qed.

(** X19.  The next run after a collision.  The resolver renames the
    picked file to the stem of the source file, a space and the postfix,
    and keeps its extension [e].  When the file has an extension, or has
    none and neither the stem nor the postfix holds a dot, a later listing
    reads that stem back, and [areSyncable] rejects the file for that source
    file as soon as the postfix holds a letter or a digit, as the default
    postfix does.  A file without extension that is renamed to a name with
    a dot is read back with another stem and may match again. *)
Theorem postfixed_name_never_matches (sourceFile : ParsedFile) (postfix e : jsstring) :
  let newName := name sourceFile ++ js " " ++ postfix in
  normalized postfix <> [] ->
  valid_name (newName ++ e) = true ->
  ((exists t, e = CHAR_DOT :: t /\ Forall (fun c => c <> CHAR_DOT) t)
   \/ (e = [] /\ Forall (fun c => c <> CHAR_DOT) newName)) ->
  name (new_ParsedFile (newName ++ e)) = newName
  /\ areSyncable sourceFile (new_ParsedFile (newName ++ e)) = false.
Proof.
  intros newName Hp Hv He.
  assert (Hne : newName <> []).
  { unfold newName. destruct (name sourceFile); discriminate. }
  assert (Hx : stem_ext true (newName ++ e) = (newName, e)).
  { destruct He as [[t [-> Ht]]|[-> Hd]].
    - apply stem_ext_dotted; auto. now apply valid_name_spec in Hv.
    - rewrite app_nil_r. now apply stem_ext_no_dot. }
  destruct (new_listed_fields newName e Hv Hx) as [Hn _].
  split; [exact Hn|].
  destruct (areSyncable sourceFile (new_ParsedFile (newName ++ e))) eqn:E; [|reflexivity].
  exfalso. apply areSyncable_spec in E as [rest E].
  rewrite Hn in E. unfold newName in E. rewrite !normalized_app in E.
  apply (f_equal (@length ascii)) in E. rewrite !length_app in E.
  destruct (normalized postfix); [congruence|]. simpl in E. lia.
Qed.

Lemma postfixed_name_never_matches_witness :
  normalized (js "$collision$") = js "collision"
  /\ areSyncable (new_ParsedFile (js "abc.txt")) (new_ParsedFile (js "abc $collision$.txt"))
     = false
  /\ areSyncable (new_ParsedFile (js "a.b.c")) (new_ParsedFile (js "a.b $collision$")) = true.
Proof.
  split; [reflexivity|]. split; [|reflexivity].
  apply (postfixed_name_never_matches (new_ParsedFile (js "abc.txt")) (js "$collision$")
           (js ".txt")).
  - discriminate.
  - reflexivity.
  - left. exists (js "txt"). split; [reflexivity|].
    repeat constructor; discriminate.
Defined.

(* ================================================================== *)
(** * Copies and the files of the target *)

Lemma withParentDirectory_name (n d : jsstring) :
  valid_name n = true ->
  name (withParentDirectory (new_ParsedFile n) d) = name (new_ParsedFile n).
Proof.
  intros Hv. rewrite (withParentDirectory_listed n d Hv), (new_listed n Hv). reflexivity.
Qed.

(** X20.  With the predicate of [main], [syncDir] does not copy a source
    file over a target file that nobody claimed: when it copies the source
    file [n] although the target listing holds a file [n] too, that target
    file is in [resolved], claimed for a source file that came earlier. *)
Theorem syncDir_copy_spares_unclaimed (sourceDir targetDir : jsstring)
  (syncResults : option SyncResults) (input : DirInput) (n : jsstring) :
  valid_input input ->
  In n (listedNames (source_entries input)) ->
  In n (listedNames (target_entries input)) ->
  let out := syncDir sourceDir targetDir areSyncable syncResults input in
  In (CopyFile (withParentDirectory (new_ParsedFile n) sourceDir)
        (withParentDirectory (new_ParsedFile n) targetDir)) (snd out) ->
  exists file, In file (resolved (fst out))
               /\ fullPath file = NodePath.join [targetDir; []] ++ slash ++ n.
Proof.
  intros [Hvs Hvt] Hs Ht out Hcopy. unfold out in *. clear out.
  pose proof (listedNames_valid_names _ Hvs) as Hvs'. rewrite Forall_forall in Hvs'.
  pose proof (Hvs' n Hs) as Hv.
  destruct (syncDir_contribution sourceDir targetDir areSyncable syncResults input)
    as (nR & nC & calls & E & _ & _ & _ & _ & _ & Hfrom).
  rewrite E in *. cbn [fst snd resolved] in *.
  apply in_app_or in Hcopy as [Hmk|Hcopy].
  { destruct (negb (target_exists input)); [destruct Hmk as [Hmk|[]]; discriminate Hmk|].
    destruct Hmk. }
  rewrite Forall_forall in Hfrom. specialize (Hfrom _ Hcopy).
  destruct Hfrom as (s & Hin & Es & _ & Hall).
  rewrite listFiles_listedNames_map in Hin. apply in_map_iff in Hin as [m [<- Hm]].
  pose proof (Hvs' m Hm) as Hvm.
  assert (Hname : name (new_ParsedFile m) = name (new_ParsedFile n)).
  { rewrite <- (withParentDirectory_name m sourceDir Hvm),
      <- (withParentDirectory_name n sourceDir Hv). now rewrite Es. }
  destruct (Hall (new_ParsedFile n)) as [file [Hfile Eq]].
  - rewrite listFiles_listedNames_map. now apply in_map.
  - unfold areSyncable. rewrite Hname. apply startsWith_spec. exists []. now rewrite app_nil_r.
  - exists file. split; [exact Hfile|].
    unfold equal in Eq. apply str_eqb_eq in Eq. rewrite Eq. now apply candidate_path.
Qed.

Lemma syncDir_copy_spares_unclaimed_witness :
  exists file,
    In file
      (resolved
         (fst (syncDir (js "src") (js "tgt") areSyncable None
                 (mkDirInput [mkDirent (js "a.md") true; mkDirent (js "a.txt") true] true
                    [mkDirent (js "a.txt") true]))))
    /\ fullPath file = js "tgt/a.txt".
Proof.
  apply (syncDir_copy_spares_unclaimed (js "src") (js "tgt") None
           (mkDirInput [mkDirent (js "a.md") true; mkDirent (js "a.txt") true] true
              [mkDirent (js "a.txt") true]) (js "a.txt")).
  - split; repeat constructor.
  - right. now left.
  - now left.
  - vm_compute. right. right. now left.
Defined.

(* ================================================================== *)
(** * A collision that is never settled *)

(** C4.  Every key of the collisions map should get its rename or its
    copy; on this input the run gives neither to any key.  The source
    directory lists [abc.txt], [ax.txt] and [zz1.txt], the target directory
    [a___.txt], [ab.txt], [z.txt] and [zz.txt].  The walk records the
    collisions of [abc] and of [zz1] and renames [a___.txt] to [ax.txt].
    The resolver decides a rename for each key, [a___.txt] for [abc] and
    [zz.txt] for [zz1], and sets out with the first: [a___.txt] is there
    no more, [fs.renameSync] throws, and the loop over [toRename] is left
    before it reaches [zz1]. *)
Theorem collision_key_dropped :
  let input :=
    mkDirInput
      [mkDirent (js "abc.txt") true; mkDirent (js "ax.txt") true; mkDirent (js "zz1.txt") true]
      true
      [mkDirent (js "a___.txt") true; mkDirent (js "ab.txt") true;
       mkDirent (js "z.txt") true; mkDirent (js "zz.txt") true] in
  let files :=
    [js "src/abc.txt"; js "src/ax.txt"; js "src/zz1.txt";
     js "tgt/a___.txt"; js "tgt/ab.txt"; js "tgt/z.txt"; js "tgt/zz.txt"] in
  let walk := syncNames (js "/work") (js "src") (js "tgt") areSyncable input [] in
  let a___ := withParentDirectory (new_ParsedFile (js "a___.txt")) (js "tgt") in
  let zz := withParentDirectory (new_ParsedFile (js "zz.txt")) (js "tgt") in
  map (fun e => fullPath (fst e)) (collisions (fst walk)) = [js "src/abc.txt"; js "src/zz1.txt"]
  /\ snd walk
     = [OnProgress (js "src/abc.txt");
        RenameFile a___ (js "ax"); OnProgress (js "src/ax.txt");
        OnProgress (js "src/zz1.txt")]
  /\ resolveCollisions (js "/work") (js "src") (js "tgt") (collisions (fst walk))
       (js "$collision$")
     = [RenameFile a___ (js "abc $collision$"); OnProgress (js "tgt/a___.txt");
        RenameFile zz (js "zz1 $collision$"); OnProgress (js "tgt/zz.txt")]
  /\ execute files
       (snd (syncAndResolve (js "/work") (js "src") (js "tgt") (js "$collision$") input []))
     = (snd walk,
        [js "tgt/ax.txt"; js "src/abc.txt"; js "src/ax.txt"; js "src/zz1.txt";
         js "tgt/ab.txt"; js "tgt/z.txt"; js "tgt/zz.txt"],
        Thrown (RenameFile a___ (js "abc $collision$"))).
Proof.
  vm_compute. repeat split; reflexivity.
Qed.

(* ================================================================== *)
(** * Paths by components *)

Lemma split_slash_nonempty (s : jsstring) : split_slash s <> [].
Proof.
  destruct s as [|c s]; cbn; [discriminate|].
  destruct (Ascii.eqb c CHAR_FORWARD_SLASH); [discriminate|].
  destruct (split_slash s); discriminate.
Qed.

Lemma split_slash_no_slash (c : jsstring) : no_slash c = true -> split_slash c = [c].
Proof.
  induction c as [|x c IH]; intros H; [reflexivity|].
  cbn in H. apply andb_true_iff in H as [Hx Hc]. apply negb_true_iff in Hx.
  cbn. rewrite Hx, (IH Hc). reflexivity.
Qed.

Lemma split_slash_app (c rest : jsstring) :
  no_slash c = true -> split_slash (c ++ slash ++ rest) = c :: split_slash rest.
Proof.
  induction c as [|x c IH]; intros H; [reflexivity|].
  cbn in H. apply andb_true_iff in H as [Hx Hc]. apply negb_true_iff in Hx.
  cbn [app]. cbn [split_slash]. rewrite Hx. cbn [app] in IH. rewrite (IH Hc). reflexivity.
Qed.

Lemma split_slash_components (s : jsstring) : Forall (fun c => no_slash c = true) (split_slash s).
Proof.
  induction s as [|x s IH]; [repeat constructor|].
  cbn. destruct (Ascii.eqb x CHAR_FORWARD_SLASH) eqn:E; [constructor; auto|].
  destruct (split_slash s) as [|h t]; [repeat constructor; cbn; now rewrite E|].
  inversion IH; subst. constructor; [cbn; now rewrite E|assumption].
Qed.

Lemma split_slash_concat (a b : jsstring) :
  split_slash (a ++ slash ++ b) = split_slash a ++ split_slash b.
Proof.
  induction a as [|x a IH]; [reflexivity|].
  cbn [app]. cbn [split_slash]. cbn [app] in IH. rewrite IH.
  destruct (Ascii.eqb x CHAR_FORWARD_SLASH); [reflexivity|].
  destruct (split_slash a) as [|h t] eqn:E; [now apply split_slash_nonempty in E|].
  reflexivity.
Qed.

Lemma join_split_slash (s : jsstring) : join_slash (split_slash s) = s.
Proof.
  induction s as [|x s IH]; [reflexivity|].
  cbn [split_slash]. destruct (Ascii.eqb_spec x CHAR_FORWARD_SLASH) as [->|N].
  - destruct (split_slash s) as [|h t] eqn:E; [now apply split_slash_nonempty in E|].
    cbn [join_slash app]. cbn [join_slash] in IH. now rewrite IH.
  - destruct (split_slash s) as [|h t] eqn:E; [now apply split_slash_nonempty in E|].
    destruct t; cbn [join_slash app] in *; now rewrite IH.
Qed.

Lemma split_join_slash (cs : list jsstring) :
  cs <> [] -> Forall (fun c => no_slash c = true) cs -> split_slash (join_slash cs) = cs.
Proof.
  induction cs as [|c cs IH]; intros Hne H; [congruence|].
  inversion H; subst. destruct cs as [|c' cs].
  - cbn. now apply split_slash_no_slash.
  - cbn [join_slash]. rewrite split_slash_app by assumption. f_equal.
    apply IH; [discriminate|assumption].
Qed.

Lemma segment_spec (c : jsstring) :
  segment c = true <-> c <> [] /\ no_slash c = true /\ c <> js "." /\ c <> js "..".
Proof.
  unfold segment. rewrite !andb_true_iff, !negb_true_iff, !str_eqb_neq.
  split.
  - intros [[[H1 H2] H3] H4]. repeat split; auto.
    intros ->. discriminate.
  - intros (H1 & H2 & H3 & H4). repeat split; auto.
    destruct c; [congruence|reflexivity].
Qed.

(** A component is empty, a segment, or one of [.] and [..]. *)
Lemma component_cases (c : jsstring) :
  no_slash c = true -> c = [] \/ c = js "." \/ c = js ".." \/ segment c = true.
Proof.
  intros H. destruct c as [|x c]; [now left|]. right.
  destruct (str_eqb (x :: c) (js ".")) eqn:E1; [left; now apply str_eqb_eq|].
  destruct (str_eqb (x :: c) (js "..")) eqn:E2; [right; left; now apply str_eqb_eq|].
  right. right. unfold segment. now rewrite H, E1, E2.
Qed.

(* ================================================================== *)
(** * [normalizeString], component by component *)

Lemma charCodeAt_middle (pre post : jsstring) (x : ascii) :
  charCodeAt (pre ++ x :: post) (len pre) = Some x.
Proof.
  unfold charCodeAt, len. destruct (Z.ltb_spec (Z.of_nat (length pre)) 0); [lia|].
  rewrite Nat2Z.id. rewrite nth_error_app2 by lia. now rewrite Nat.sub_diag.
Qed.

Lemma len_cons (x : ascii) (s : jsstring) : len (x :: s) = 1 + len s.
Proof. unfold len. cbn [length]. lia. Qed.

(** The iterations over the characters of a component. *)
Lemma norm_loop_component (allow : bool) (c : jsstring) :
  no_slash c = true ->
  forall (pre post : jsstring) (m : nat) (r : jsstring) (l s d : Z) (x : ascii),
    norm_loop (pre ++ c ++ post) allow (length c + m) (len pre)
      {| res := r; lastSegmentLength := l; lastSlash := s; dots := d; code := x |}
    = norm_loop (pre ++ c ++ post) allow m (len pre + len c)
        {| res := r; lastSegmentLength := l; lastSlash := s;
           dots := dots_after d c; code := code_after x c |}.
Proof.
  induction c as [|y c IH]; intros Hn pre post m r l s d x.
  - cbn [length Nat.add app dots_after code_after fold_left]. unfold len at 2. cbn [length].
    now rewrite Z.add_0_r.
  - cbn in Hn. apply andb_true_iff in Hn as [Hy Hc]. apply negb_true_iff in Hy.
    cbn [length Nat.add norm_loop].
    assert (Hb : norm_body (pre ++ (y :: c) ++ post) allow (len pre)
                   {| res := r; lastSegmentLength := l; lastSlash := s; dots := d; code := x |}
                 = Continue {| res := r; lastSegmentLength := l; lastSlash := s;
                               dots := (if Ascii.eqb y CHAR_DOT && negb (d =? -1)
                                        then d + 1 else -1);
                               code := y |}).
    { unfold norm_body. cbn [app]. rewrite charCodeAt_middle.
      assert (Hlt : (len pre <? len (pre ++ y :: c ++ post)) = true).
      { apply Z.ltb_lt. rewrite len_app, len_cons. pose proof (len_nonneg (c ++ post)). lia. }
      rewrite Hlt. unfold isPosixPathSeparator. rewrite Hy. cbn [dots res lastSegmentLength lastSlash].
      destruct (Ascii.eqb y CHAR_DOT && negb (d =? -1)); reflexivity. }
    rewrite Hb.
    replace (pre ++ (y :: c) ++ post) with ((pre ++ [y]) ++ c ++ post)
      by (rewrite <- app_assoc; reflexivity).
    replace (len pre + 1) with (len (pre ++ [y])) by (rewrite len_app; reflexivity).
    rewrite (IH Hc). f_equal.
    rewrite len_app, !len_cons. unfold len. cbn [length]. lia.
Qed.

Lemma dots_after_minus (c : jsstring) : dots_after (-1) c = -1.
Proof.
  induction c as [|x c IH]; [reflexivity|]. unfold dots_after in *. cbn [fold_left].
  rewrite andb_false_r. exact IH.
Qed.

Lemma dots_after_count (c : jsstring) (d : Z) :
  0 <= d ->
  dots_after d c = (if forallb (fun x => Ascii.eqb x CHAR_DOT) c then d + len c else -1).
Proof.
  revert d. induction c as [|x c IH]; intros d Hd.
  - cbn. unfold len. cbn. lia.
  - unfold dots_after in *. cbn [fold_left forallb].
    destruct (Ascii.eqb x CHAR_DOT) eqn:E; cbn [andb].
    + destruct (Z.eqb_spec d (-1)); [lia|]. cbn [negb].
      rewrite IH by lia. rewrite len_cons. destruct (forallb _ c); [lia|reflexivity].
    + apply dots_after_minus.
Qed.

Lemma all_dots_1 (c : jsstring) :
  forallb (fun x => Ascii.eqb x CHAR_DOT) c = true -> len c = 1 -> c = js ".".
Proof.
  destruct c as [|x [|y c]]; unfold len; cbn [length]; intros H L; try lia.
  cbn in H. rewrite andb_true_r in H. apply Ascii.eqb_eq in H. now subst.
Qed.

Lemma all_dots_2 (c : jsstring) :
  forallb (fun x => Ascii.eqb x CHAR_DOT) c = true -> len c = 2 -> c = js "..".
Proof.
  destruct c as [|x [|y [|z c]]]; unfold len; cbn [length]; intros H L; try lia.
  cbn in H. rewrite andb_true_r in H. apply andb_true_iff in H as [H1 H2].
  apply Ascii.eqb_eq in H1, H2. now subst.
Qed.

(** [dots] tells [.] and [..] from the segments. *)
Lemma dots_after_segment (c : jsstring) :
  segment c = true -> dots_after 0 c <> 1 /\ dots_after 0 c <> 2.
Proof.
  intros H. apply segment_spec in H as (Hne & _ & H1 & H2).
  rewrite dots_after_count by lia.
  destruct (forallb _ c) eqn:E; [|lia].
  split; intros L; [apply H1|apply H2]; [apply all_dots_1|apply all_dots_2]; auto; lia.
Qed.

Lemma norm_body_separator (path : jsstring) (allow : bool) (i : Z) (st : NormState) :
  i < len path -> charCodeAt path i = Some CHAR_FORWARD_SLASH ->
  norm_body path allow i st = on_separator path allow i st.
Proof.
  intros Hlt Hc. unfold norm_body, on_separator.
  apply Z.ltb_lt in Hlt. rewrite Hlt, Hc. reflexivity.
Qed.

Lemma norm_body_end (path : jsstring) (allow : bool) (st : NormState) :
  isPosixPathSeparator (code st) = false ->
  norm_body path allow (len path) st = on_separator path allow (len path) st.
Proof.
  intros Hc. unfold norm_body, on_separator.
  rewrite Z.ltb_irrefl, Hc. reflexivity.
Qed.

Lemma norm_body_break (path : jsstring) (allow : bool) (st : NormState) :
  isPosixPathSeparator (code st) = true ->
  norm_body path allow (len path) st = Break st.
Proof.
  intros Hc. unfold norm_body. rewrite Z.ltb_irrefl, Hc. reflexivity.
Qed.

(** ** The string of the components kept *)

Lemma join_slash_snoc (cs : list jsstring) (t : jsstring) :
  cs <> [] -> join_slash (cs ++ [t]) = join_slash cs ++ slash ++ t.
Proof.
  induction cs as [|c cs IH]; intros H; [congruence|].
  destruct cs as [|c' cs]; [reflexivity|].
  cbn [app join_slash] in *. rewrite IH by discriminate. now rewrite <- !app_assoc.
Qed.

Lemma render_one (t : jsstring) : render [t] = t.
Proof. reflexivity. Qed.

Lemma render_cons (t : jsstring) (kept : list jsstring) :
  kept <> [] -> render (t :: kept) = render kept ++ slash ++ t.
Proof.
  intros H. unfold render. cbn [rev]. apply join_slash_snoc.
  intros E. apply H. destruct kept; [reflexivity|].
  cbn in E. now apply app_eq_nil in E as [_ E].
Qed.

Lemma render_nonempty (kept : list jsstring) :
  kept_ok kept -> kept <> [] -> render kept <> [].
Proof.
  intros Hok Hne. destruct kept as [|t kept]; [congruence|].
  inversion Hok as [|? ? [_ Ht] _]; subst.
  destruct kept as [|t' kept].
  - now rewrite render_one.
  - rewrite render_cons by discriminate. intros E.
    apply app_eq_nil in E as [_ E]. discriminate.
Qed.

Lemma lastIndexOf_from_no_slash (t : jsstring) (i f : Z) :
  no_slash t = true -> lastIndexOf_from t CHAR_FORWARD_SLASH i f = f.
Proof.
  revert i f. induction t as [|x t IH]; intros i f H; [reflexivity|].
  cbn in H. apply andb_true_iff in H as [Hx Ht]. apply negb_true_iff in Hx.
  cbn [lastIndexOf_from]. rewrite Hx. now apply IH.
Qed.

Lemma lastIndexOf_from_app (a s : jsstring) (c : ascii) (i f : Z) :
  lastIndexOf_from (a ++ s) c i f
  = lastIndexOf_from s c (i + len a) (lastIndexOf_from a c i f).
Proof.
  revert i f. induction a as [|x a IH]; intros i f.
  - cbn. unfold len. cbn. now rewrite Z.add_0_r.
  - cbn [app lastIndexOf_from]. rewrite IH. f_equal. rewrite len_cons. lia.
Qed.

Lemma lastIndexOf_no_slash (t : jsstring) :
  no_slash t = true -> lastIndexOf t CHAR_FORWARD_SLASH = -1.
Proof. apply lastIndexOf_from_no_slash. Qed.

Lemma lastIndexOf_last_slash (a t : jsstring) :
  no_slash t = true -> lastIndexOf (a ++ slash ++ t) CHAR_FORWARD_SLASH = len a.
Proof.
  intros H. unfold lastIndexOf. rewrite lastIndexOf_from_app.
  cbn [app slash lastIndexOf_from]. rewrite Ascii.eqb_refl.
  rewrite lastIndexOf_from_no_slash by assumption. lia.
Qed.

Lemma render_no_slash_top (t : jsstring) (kept : list jsstring) :
  kept_ok (t :: kept) ->
  lastIndexOf (render (t :: kept)) CHAR_FORWARD_SLASH
  = (if len (render kept) =? 0 then -1 else len (render kept))
  /\ len (render (t :: kept)) - 1 - lastIndexOf (render (t :: kept)) CHAR_FORWARD_SLASH = len t.
Proof.
  intros Hok. inversion Hok as [|? ? [Ht Hne] Hk]; subst.
  destruct kept as [|t' kept].
  - rewrite render_one. cbn [render rev join_slash]. unfold len at 1. cbn [length Z.of_nat Z.eqb].
    rewrite lastIndexOf_no_slash by assumption. split; [reflexivity|lia].
  - rewrite render_cons by discriminate.
    rewrite lastIndexOf_last_slash by assumption.
    assert (Hr : render (t' :: kept) <> []) by (apply render_nonempty; [assumption|discriminate]).
    destruct (Z.eqb_spec (len (render (t' :: kept))) 0) as [E|E].
    { exfalso. apply Hr. apply len_zero_iff. now apply Z.eqb_eq. }
    split; [reflexivity|]. rewrite !len_app. unfold slash, len at 2. cbn [length]. lia.
Qed.

Lemma render_suffix (t : jsstring) (kept : list jsstring) :
  exists a, render (t :: kept) = a ++ t.
Proof.
  destruct kept as [|t' kept].
  - exists []. reflexivity.
  - exists (render (t' :: kept) ++ slash). rewrite render_cons by discriminate.
    now rewrite <- app_assoc.
Qed.

(** The test of [normalizeString] for a last segment [..]. *)
Lemma last_segment_test (a t : jsstring) :
  t <> [] ->
  (len (a ++ t) <? 2)
  || negb (len t =? 2)
  || negb (code_is CHAR_DOT (charCodeAt (a ++ t) (len (a ++ t) - 1)))
  || negb (code_is CHAR_DOT (charCodeAt (a ++ t) (len (a ++ t) - 2)))
  = negb (str_eqb t (js "..")).
Proof.
  intros Hne. destruct t as [|p [|q [|z t]]]; [congruence| | |].
  - cbn [str_eqb js list_ascii_of_string]. rewrite andb_false_r. cbn [negb].
    unfold len at 2. cbn [length Z.of_nat Pos.of_succ_nat Z.eqb negb].
    now rewrite orb_true_r.
  - assert (L : len (a ++ [p; q]) = len a + 2).
    { rewrite len_app. unfold len at 2. cbn [length]. lia. }
    rewrite L. replace (len a + 2 - 1) with (len (a ++ [p])) by (rewrite len_app; unfold len at 2; cbn; lia).
    replace (len a + 2 - 2) with (len a) by lia.
    replace (a ++ [p; q]) with ((a ++ [p]) ++ [q]) at 1 by now rewrite <- app_assoc.
    rewrite charCodeAt_middle. rewrite (charCodeAt_middle a [q] p).
    pose proof (len_nonneg a). destruct (Z.ltb_spec (len a + 2) 2); [lia|].
    unfold len at 1. cbn [length Z.of_nat Pos.of_succ_nat Pos.succ Z.eqb Pos.eqb negb orb code_is].
    cbn [str_eqb js list_ascii_of_string].
    unfold CHAR_DOT. rewrite andb_true_r.
    destruct (Ascii.eqb p "."), (Ascii.eqb q "."); reflexivity.
  - cbn [str_eqb js list_ascii_of_string]. rewrite !andb_false_r. cbn [negb].
    unfold len at 2. cbn [length].
    destruct (Z.eqb_spec (Z.of_nat (S (S (S (length t))))) 2); [lia|].
    cbn [negb]. now rewrite orb_true_r.
Qed.

Lemma len_render_two (t t' : jsstring) (kept : list jsstring) :
  kept_ok (t :: t' :: kept) -> 2 < len (render (t :: t' :: kept)).
Proof.
  intros Hok. inversion Hok as [|? ? [_ Ht] Hk]; subst.
  rewrite render_cons by discriminate.
  assert (Hr : render (t' :: kept) <> []) by (apply render_nonempty; [assumption|discriminate]).
  rewrite !len_app. unfold slash, len at 2. cbn [length].
  destruct (render (t' :: kept)); [congruence|]. destruct t; [congruence|].
  rewrite !len_cons. pose proof (len_nonneg j). pose proof (len_nonneg t). lia.
Qed.

Lemma slice_all_prefix (a b : jsstring) : slice (a ++ b) 0 (len a) = a.
Proof. apply slice_prefix. Qed.

Lemma kept_ok_step (allow : bool) (kept : list jsstring) (c : jsstring) :
  kept_ok kept -> no_slash c = true -> kept_ok (norm_step allow kept c).
Proof.
  intros Hok Hc. unfold norm_step.
  destruct (len c =? 0) eqn:E0; cbn [orb]; [assumption|].
  assert (Hne : c <> []) by (intros ->; discriminate).
  destruct (str_eqb c (js ".")); [assumption|].
  destruct (str_eqb c (js "..")).
  - destruct kept as [|t kept'].
    + destruct allow; [repeat constructor; auto|constructor].
    + destruct (str_eqb t (js "..")).
      * destruct allow; [constructor; auto|assumption].
      * now inversion Hok.
  - constructor; auto.
Qed.

Lemma norm_step_dotdot (allow : bool) (kept : list jsstring) :
  norm_step allow kept (js "..")
  = match kept with
    | t :: kept' =>
        if str_eqb t (js "..") then (if allow then js ".." :: kept else kept) else kept'
    | [] => if allow then [js ".."] else []
    end.
Proof. reflexivity. Qed.

Lemma norm_step_segment (allow : bool) (kept : list jsstring) (c : jsstring) :
  segment c = true -> norm_step allow kept c = c :: kept.
Proof.
  intros H. unfold segment in H. apply andb_true_iff in H as [H H2].
  apply andb_true_iff in H as [H H1]. apply andb_true_iff in H as [H0 _].
  apply negb_true_iff in H0, H1, H2. unfold norm_step. now rewrite H0, H1, H2.
Qed.

(** The branch for [..]. *)
Lemma on_separator_dotdot (path : jsstring) (allow : bool) (i s : Z) (kept : list jsstring)
  (x : ascii) :
  kept_ok kept -> s <> i - 1 ->
  on_separator path allow i
    {| res := render kept; lastSegmentLength := toplen kept; lastSlash := s;
       dots := 2; code := x |}
  = Continue {| res := render (norm_step allow kept (js ".."));
                lastSegmentLength := toplen (norm_step allow kept (js ".."));
                lastSlash := i; dots := 0; code := CHAR_FORWARD_SLASH |}.
Proof.
  intros Hok Hs. rewrite norm_step_dotdot.
  unfold on_separator. cbn [res lastSegmentLength lastSlash dots].
  destruct (Z.eqb_spec s (i - 1)); [contradiction|].
  change (2 =? 1) with false. change (2 =? 2) with true. cbn [orb].
  unfold norm_next.
  destruct kept as [|t kept'].
  - (* nothing kept *)
    change (render []) with (@nil ascii). change (toplen []) with 0.
    change (len []) with 0. cbn [Z.ltb Z.compare orb Z.gtb Z.eqb negb app].
    destruct allow; reflexivity.
  - inversion Hok as [|? ? [Ht Hne] Hk]; subst.
    destruct (render_suffix t kept') as [a Ea].
    cbn [toplen].
    assert (Htest : (len (render (t :: kept')) <? 2)
                    || negb (len t =? 2)
                    || negb (code_is CHAR_DOT
                               (charCodeAt (render (t :: kept'))
                                  (len (render (t :: kept')) - 1)))
                    || negb (code_is CHAR_DOT
                               (charCodeAt (render (t :: kept'))
                                  (len (render (t :: kept')) - 2)))
                    = negb (str_eqb t (js ".."))).
    { rewrite Ea. now apply last_segment_test. }
    rewrite Htest.
    destruct (str_eqb t (js "..")) eqn:Et; cbn [negb].
    + (* the last segment is [..] *)
      assert (Hpos : (len (render (t :: kept')) >? 0) = true).
      { apply Z.gtb_lt. rewrite Ea, len_app. pose proof (len_nonneg a).
        destruct t; [congruence|]. rewrite len_cons. pose proof (len_nonneg t). lia. }
      rewrite Hpos. destruct allow; [|reflexivity].
      rewrite (render_cons (js "..")) by discriminate. reflexivity.
    + (* the last segment is dropped *)
      destruct kept' as [|t' kept''].
      * rewrite render_one. change (render []) with (@nil ascii). change (toplen []) with 0.
        rewrite lastIndexOf_no_slash by assumption. cbn [Z.eqb].
        destruct (len t >? 2); [reflexivity|].
        destruct (Z.eqb_spec (len t) 0) as [E|E]; [|reflexivity].
        exfalso. apply Hne. apply len_zero_iff. now apply Z.eqb_eq.
      * pose proof (len_render_two t t' kept'' Hok) as L.
        apply Z.gtb_lt in L. rewrite L.
        destruct (render_no_slash_top t (t' :: kept'') Hok) as [Hl _].
        rewrite Hl.
        assert (Hr : render (t' :: kept'') <> [])
          by (apply render_nonempty; [assumption|discriminate]).
        destruct (Z.eqb_spec (len (render (t' :: kept''))) 0) as [E|E].
        { exfalso. apply Hr. apply len_zero_iff. now apply Z.eqb_eq. }
        destruct (Z.eqb_spec (len (render (t' :: kept''))) (-1)) as [E1|E1].
        { pose proof (len_nonneg (render (t' :: kept''))). lia. }
        rewrite (render_cons t) by discriminate.
        rewrite slice_all_prefix.
        destruct (render_no_slash_top t' kept'' Hk) as [_ Hl'].
        rewrite Hl'. reflexivity.
Qed.

Lemma len_pos_iff (s : jsstring) : (len s >? 0) = negb (len s =? 0).
Proof.
  pose proof (len_nonneg s).
  destruct (Z.gtb_spec (len s) 0), (Z.eqb_spec (len s) 0); try reflexivity; lia.
Qed.

(** One iteration on a separator, after the characters of the component
    [c]. *)
Lemma on_separator_step (path : jsstring) (allow : bool) (s : Z) (kept : list jsstring)
  (c : jsstring) (x : ascii) :
  kept_ok kept -> no_slash c = true ->
  slice path (s + 1) (s + 1 + len c) = c ->
  on_separator path allow (s + 1 + len c)
    {| res := render kept; lastSegmentLength := toplen kept; lastSlash := s;
       dots := dots_after 0 c; code := x |}
  = Continue {| res := render (norm_step allow kept c);
                lastSegmentLength := toplen (norm_step allow kept c);
                lastSlash := s + 1 + len c; dots := 0; code := CHAR_FORWARD_SLASH |}.
Proof.
  intros Hok Hc Hslice.
  destruct (component_cases c Hc) as [->|[->|[->|Hseg]]].
  - unfold on_separator. cbn [res lastSegmentLength lastSlash dots].
    change (len []) with 0.
    replace (s =? s + 1 + 0 - 1) with true by (symmetry; apply Z.eqb_eq; lia).
    reflexivity.
  - unfold on_separator. cbn [res lastSegmentLength lastSlash dots].
    change (dots_after 0 (js ".")) with 1. change (1 =? 1) with true.
    rewrite orb_true_r. reflexivity.
  - change (dots_after 0 (js "..")) with 2.
    apply on_separator_dotdot; [assumption|].
    change (len (js "..")) with 2. lia.
  - rewrite (norm_step_segment allow kept c Hseg).
    destruct (dots_after_segment c Hseg) as [D1 D2].
    apply segment_spec in Hseg as (Hne & _ & _ & _).
    assert (Hl : 0 < len c).
    { destruct c; [congruence|]. rewrite len_cons. pose proof (len_nonneg c). lia. }
    unfold on_separator. cbn [res lastSegmentLength lastSlash dots].
    destruct (Z.eqb_spec s (s + 1 + len c - 1)); [lia|].
    destruct (Z.eqb_spec (dots_after 0 c) 1); [contradiction|].
    destruct (Z.eqb_spec (dots_after 0 c) 2); [contradiction|].
    cbn [orb]. rewrite Hslice. unfold norm_next. cbn [toplen].
    replace (s + 1 + len c - s - 1) with (len c) by lia.
    rewrite len_pos_iff.
    destruct kept as [|t kept'].
    + reflexivity.
    + assert (Hr : render (t :: kept') <> [])
        by (apply render_nonempty; [assumption|discriminate]).
      destruct (Z.eqb_spec (len (render (t :: kept'))) 0) as [E|E].
      { exfalso. apply Hr. apply len_zero_iff. now apply Z.eqb_eq. }
      cbn [negb]. rewrite (render_cons c) by discriminate. reflexivity.
Qed.

Lemma slice_component (pre c post : jsstring) :
  slice (pre ++ c ++ post) (len pre - 1 + 1) (len pre - 1 + 1 + len c) = c.
Proof.
  replace (len pre - 1 + 1) with (len pre) by lia. apply slice_middle.
Qed.

Lemma slice_component_end (pre c : jsstring) :
  slice (pre ++ c) (len pre - 1 + 1) (len pre - 1 + 1 + len c) = c.
Proof.
  pose proof (slice_component pre c []) as H. now rewrite app_nil_r in H.
Qed.

Lemma first_component (rest : jsstring) :
  exists c, no_slash c = true /\ (rest = c \/ exists rest', rest = c ++ slash ++ rest').
Proof.
  induction rest as [|x rest (c & Hc & IH)].
  - exists []. split; [reflexivity|now left].
  - destruct (Ascii.eqb_spec x CHAR_FORWARD_SLASH) as [->|N].
    + exists []. split; [reflexivity|]. right. exists rest. reflexivity.
    + exists (x :: c). split.
      * unfold no_slash in *. cbn [forallb]. rewrite Hc.
        apply Ascii.eqb_neq in N. now rewrite N.
      * destruct IH as [->|[rest' ->]]; [now left|right; exists rest'; reflexivity].
Qed.

Lemma code_after_no_slash (x : ascii) (c : jsstring) :
  c <> [] -> no_slash c = true -> isPosixPathSeparator (code_after x c) = false.
Proof.
  revert x. induction c as [|y c IH]; intros x Hne H; [congruence|].
  cbn in H. apply andb_true_iff in H as [Hy Hc]. apply negb_true_iff in Hy.
  unfold code_after. cbn [fold_left]. destruct c as [|z c]; [exact Hy|].
  apply IH; [discriminate|assumption].
Qed.

(** [normalizeString] goes through the components of the path and keeps
    them as [norm_step] says. *)
Lemma norm_loop_components (allow : bool) (n : nat) :
  forall (rest pre : jsstring) (kept : list jsstring) (x : ascii),
    (length rest <= n)%nat -> kept_ok kept ->
    res (norm_loop (pre ++ rest) allow (S (length rest)) (len pre)
           {| res := render kept; lastSegmentLength := toplen kept;
              lastSlash := len pre - 1; dots := 0; code := x |})
    = render (norm_components allow kept rest).
Proof.
  induction n as [|n IH]; intros rest pre kept x Hlen Hok;
    destruct (first_component rest) as (c & Hc & [->|[rest' ->]]).
  - (* the last component, empty *)
    destruct c; [|cbn in Hlen; lia].
    rewrite app_nil_r. cbn [length norm_loop].
    unfold norm_components. cbn [split_slash fold_left].
    destruct (isPosixPathSeparator x) eqn:Ex.
    + rewrite norm_body_break by exact Ex. reflexivity.
    + rewrite norm_body_end by exact Ex.
      pose proof (on_separator_step pre allow (len pre - 1) kept [] x Hok eq_refl) as H.
      pose proof (slice_component_end pre []) as Hs. rewrite app_nil_r in Hs.
      specialize (H Hs).
      change (len []) with 0 in H. change (dots_after 0 []) with 0 in H.
      replace (len pre - 1 + 1 + 0) with (len pre) in H by lia.
      rewrite H. reflexivity.
  - exfalso. rewrite !length_app in Hlen. cbn in Hlen. lia.
  - (* the last component *)
    replace (S (length c)) with (length c + 1)%nat by lia.
    replace (pre ++ c) with (pre ++ c ++ []) by now rewrite app_nil_r.
    rewrite (norm_loop_component allow c Hc pre [] 1).
    cbn [norm_loop]. rewrite app_nil_r.
    unfold norm_components. rewrite (split_slash_no_slash c Hc). cbn [fold_left].
    replace (len pre + len c) with (len (pre ++ c)) by apply len_app.
    assert (Hstep : on_separator (pre ++ c) allow (len (pre ++ c))
                      {| res := render kept; lastSegmentLength := toplen kept;
                         lastSlash := len pre - 1; dots := dots_after 0 c;
                         code := code_after x c |}
                    = Continue {| res := render (norm_step allow kept c);
                                  lastSegmentLength := toplen (norm_step allow kept c);
                                  lastSlash := len (pre ++ c); dots := 0;
                                  code := CHAR_FORWARD_SLASH |}).
    { pose proof (on_separator_step (pre ++ c) allow (len pre - 1) kept c (code_after x c)
                    Hok Hc (slice_component_end pre c)) as H.
      replace (len pre - 1 + 1 + len c) with (len (pre ++ c)) in H
        by (rewrite len_app; lia).
      exact H. }
    destruct c as [|y c'].
    + destruct (isPosixPathSeparator x) eqn:Ex.
      * rewrite norm_body_break by exact Ex. reflexivity.
      * rewrite norm_body_end by exact Ex. rewrite Hstep. reflexivity.
    + rewrite norm_body_end by (apply code_after_no_slash; [discriminate|exact Hc]).
      rewrite Hstep. reflexivity.
  - (* a component and a separator *)
    replace (S (length (c ++ slash ++ rest'))) with (length c + S (S (length rest')))%nat
      by (rewrite !length_app; cbn; lia).
    rewrite (norm_loop_component allow c Hc pre (slash ++ rest')).
    cbn [norm_loop].
    assert (Hlt : len pre + len c < len (pre ++ c ++ slash ++ rest')).
    { rewrite !len_app. change (len slash) with 1.
      pose proof (len_nonneg rest'). lia. }
    assert (Hch : charCodeAt (pre ++ c ++ slash ++ rest') (len pre + len c)
                  = Some CHAR_FORWARD_SLASH).
    { replace (pre ++ c ++ slash ++ rest') with ((pre ++ c) ++ CHAR_FORWARD_SLASH :: rest')
        by now rewrite <- app_assoc.
      rewrite <- len_app. apply charCodeAt_middle. }
    rewrite (norm_body_separator _ _ _ _ Hlt Hch).
    pose proof (on_separator_step (pre ++ c ++ slash ++ rest') allow (len pre - 1) kept c
                  (code_after x c) Hok Hc (slice_component pre c (slash ++ rest'))) as H.
    replace (len pre - 1 + 1 + len c) with (len pre + len c) in H by lia.
    rewrite H.
    unfold norm_components. rewrite (split_slash_app c rest' Hc). cbn [fold_left].
    replace (pre ++ c ++ slash ++ rest') with ((pre ++ c ++ slash) ++ rest')
      by now rewrite <- !app_assoc.
    replace (len pre + len c + 1) with (len (pre ++ c ++ slash))
      by (rewrite !len_app; change (len slash) with 1; lia).
    replace (len pre + len c) with (len (pre ++ c ++ slash) - 1)
      by (rewrite !len_app; change (len slash) with 1; lia).
    apply IH.
    + rewrite !length_app in Hlen. cbn in Hlen. lia.
    + now apply kept_ok_step.
Qed.

(** [normalizeString] by components. *)
Lemma normalizeString_components (path : jsstring) (allow : bool) :
  normalizeString path allow = render (norm_components allow [] path).
Proof.
  unfold normalizeString.
  apply (norm_loop_components allow (length path) path [] [] zero); [lia|constructor].
Qed.

(* ================================================================== *)
(** * The components kept *)

Lemma segment_no_slash (c : jsstring) : segment c = true -> no_slash c = true /\ c <> [].
Proof. intros H. apply segment_spec in H as (H1 & H2 & _). auto. Qed.

Lemma fold_segments (allow : bool) (segs kept : list jsstring) :
  forallb segment segs = true ->
  fold_left (norm_step allow) segs kept = rev segs ++ kept.
Proof.
  revert kept. induction segs as [|c segs IH]; intros kept H; [reflexivity|].
  cbn in H. apply andb_true_iff in H as [Hc Hs].
  cbn [fold_left rev]. rewrite (norm_step_segment allow kept c Hc), (IH _ Hs).
  now rewrite <- app_assoc.
Qed.

Lemma norm_components_descending (allow : bool) (kept : list jsstring) (r : jsstring) :
  descending r = true -> norm_components allow kept r = rev (split_slash r) ++ kept.
Proof. apply fold_segments. Qed.

Lemma norm_step_empty (allow : bool) (kept : list jsstring) : norm_step allow kept [] = kept.
Proof. reflexivity. Qed.

Lemma norm_step_dot (allow : bool) (kept : list jsstring) : norm_step allow kept (js ".") = kept.
Proof. reflexivity. Qed.

Lemma normal_nil (allow : bool) : normal allow [].
Proof. exists [], 0%nat. repeat split; auto. Qed.

Lemma normal_step (allow : bool) (kept : list jsstring) (c : jsstring) :
  no_slash c = true -> normal allow kept -> normal allow (norm_step allow kept c).
Proof.
  intros Hc (segs & k & -> & Hs & Hk).
  destruct (component_cases c Hc) as [->|[->|[->|Hseg]]].
  - rewrite norm_step_empty. exists segs, k. auto.
  - rewrite norm_step_dot. exists segs, k. auto.
  - rewrite norm_step_dotdot. destruct segs as [|t segs']; cbn [app].
    + destruct k as [|k]; cbn [repeat].
      * destruct allow; [exists [], 1%nat; repeat split; auto|apply normal_nil].
      * destruct Hk as [Hk | ->]; [discriminate|].
        change (str_eqb (js "..") (js "..")) with true. cbn iota.
        exists [], (S (S k)). repeat split; auto.
    + cbn in Hs. apply andb_true_iff in Hs as [Ht Hs].
      assert (Et : str_eqb t (js "..") = false).
      { apply str_eqb_neq. intros ->. discriminate Ht. }
      rewrite Et. exists segs', k. auto.
  - rewrite (norm_step_segment _ _ _ Hseg). exists (c :: segs), k.
    repeat split; auto. cbn. now rewrite Hseg, Hs.
Qed.

Lemma normal_fold (allow : bool) (cs kept : list jsstring) :
  Forall (fun c => no_slash c = true) cs -> normal allow kept ->
  normal allow (fold_left (norm_step allow) cs kept).
Proof.
  revert kept. induction cs as [|c cs IH]; intros kept H Hn; [exact Hn|].
  inversion H; subst. cbn [fold_left]. apply IH; [assumption|]. now apply normal_step.
Qed.

Lemma normal_components (allow : bool) (kept : list jsstring) (p : jsstring) :
  normal allow kept -> normal allow (norm_components allow kept p).
Proof. apply normal_fold, split_slash_components. Qed.

Lemma normal_kept_ok (allow : bool) (kept : list jsstring) : normal allow kept -> kept_ok kept.
Proof.
  intros (segs & k & -> & Hs & _). apply Forall_app. split.
  - rewrite forallb_forall in Hs. apply Forall_forall. intros c Hc.
    now apply segment_no_slash, Hs.
  - apply Forall_forall. intros c Hc. apply repeat_spec in Hc. subst. split; [reflexivity|discriminate].
Qed.

Lemma fold_dotdots (k : nat) (j : nat) :
  fold_left (norm_step true) (repeat (js "..") k) (repeat (js "..") j)
  = repeat (js "..") (k + j).
Proof.
  revert j. induction k as [|k IH]; intros j; [reflexivity|].
  cbn [repeat fold_left]. rewrite norm_step_dotdot.
  replace (match repeat (js "..") j with
           | [] => [js ".."]
           | t :: kept' =>
               if str_eqb t (js "..") then js ".." :: repeat (js "..") j else kept'
           end) with (repeat (js "..") (S j)).
  - rewrite IH. f_equal. lia.
  - destruct j; reflexivity.
Qed.

Lemma rev_repeat {A : Type} (x : A) (k : nat) : rev (repeat x k) = repeat x k.
Proof.
  induction k as [|k IH]; [reflexivity|].
  cbn [repeat rev]. rewrite IH. symmetry. apply (repeat_cons k x).
Qed.

(** Going through the components kept gives them back. *)
Lemma normal_fixed (allow : bool) (kept : list jsstring) :
  normal allow kept -> fold_left (norm_step allow) (rev kept) [] = kept.
Proof.
  intros (segs & k & -> & Hs & Hk).
  rewrite rev_app_distr, rev_repeat, fold_left_app.
  assert (Hd : fold_left (norm_step allow) (repeat (js "..") k) [] = repeat (js "..") k).
  { destruct Hk as [-> | ->]; [reflexivity|].
    pose proof (fold_dotdots k 0) as H. rewrite Nat.add_0_r in H. exact H. }
  rewrite Hd, fold_segments.
  - now rewrite rev_involutive.
  - rewrite forallb_forall in *. intros c Hc. apply Hs. now apply in_rev.
Qed.

(** A path that may rise above its start, normalized and then taken from a
    place that it may not leave, ends where the path itself ends. *)
Lemma fold_normalized (cs : list jsstring) :
  Forall (fun c => no_slash c = true) cs ->
  forall start : list jsstring,
    fold_left (norm_step false) (rev (fold_left (norm_step true) cs [])) start
    = fold_left (norm_step false) cs start.
Proof.
  induction cs as [|c cs IH] using rev_ind; intros H start; [reflexivity|].
  apply Forall_app in H as [Hcs Hc]. inversion Hc as [|? ? Hc' _]; subst.
  rewrite !fold_left_app. cbn [fold_left]. rewrite <- (IH Hcs).
  pose proof (normal_fold true cs [] Hcs (normal_nil true)) as (segs & k & E & Hs & _).
  set (M := fold_left (norm_step true) cs []) in *.
  destruct (component_cases c Hc') as [->|[->|[->|Hseg]]].
  - now rewrite !norm_step_empty.
  - now rewrite !norm_step_dot.
  - rewrite (norm_step_dotdot true M).
    destruct M as [|t M'].
    + reflexivity.
    + destruct (str_eqb t (js "..")) eqn:Et.
      * cbn [rev]. now rewrite fold_left_app.
      * destruct segs as [|t' segs'].
        { cbn [app] in E. destruct k; [discriminate|]. cbn [repeat] in E.
          injection E as -> _. vm_compute in Et. discriminate Et. }
        cbn [app] in E. injection E as E1 _. subst t'.
        cbn in Hs. apply andb_true_iff in Hs as [Ht _].
        cbn [rev]. rewrite fold_left_app. cbn [fold_left].
        rewrite (norm_step_segment false _ t Ht), norm_step_dotdot, Et. reflexivity.
  - rewrite (norm_step_segment true M c Hseg). cbn [rev].
    now rewrite fold_left_app.
Qed.

(* ================================================================== *)
(** * [normalize], [join] and [resolve] by components *)

Lemma norm_components_nil (allow : bool) (kept : list jsstring) :
  norm_components allow kept [] = kept.
Proof. reflexivity. Qed.

Lemma norm_components_concat (allow : bool) (kept : list jsstring) (a b : jsstring) :
  norm_components allow kept (a ++ slash ++ b)
  = norm_components allow (norm_components allow kept a) b.
Proof. unfold norm_components. now rewrite split_slash_concat, fold_left_app. Qed.

Lemma norm_components_slash (allow : bool) (kept : list jsstring) (b : jsstring) :
  norm_components allow kept (slash ++ b) = norm_components allow kept b.
Proof. apply (norm_components_concat allow kept [] b). Qed.

Lemma norm_components_trailing (allow : bool) (kept : list jsstring) (a : jsstring) :
  norm_components allow kept (a ++ slash) = norm_components allow kept a.
Proof.
  pose proof (norm_components_concat allow kept a []) as H.
  now rewrite app_nil_r, norm_components_nil in H.
Qed.

Lemma norm_components_render (allow : bool) (start kept : list jsstring) :
  kept_ok kept ->
  norm_components allow start (render kept) = fold_left (norm_step allow) (rev kept) start.
Proof.
  intros Hok. destruct kept as [|t kept]; [reflexivity|].
  unfold norm_components, render. rewrite split_join_slash; [reflexivity| |].
  - intros E. apply (f_equal (@length jsstring)) in E. rewrite length_rev in E. discriminate.
  - apply Forall_rev. eapply Forall_impl; [|exact Hok]. now intros c [H _].
Qed.

Lemma isAbsolute_app (a b : jsstring) : a <> [] -> isAbsolute (a ++ b) = isAbsolute a.
Proof. intros H. destruct a; [congruence|reflexivity]. Qed.

(** ** Descending paths *)

Lemma descending_nonempty (r : jsstring) : descending r = true -> r <> [].
Proof. intros H ->. discriminate. Qed.

Lemma descending_relative (r rest : jsstring) :
  descending r = true -> isAbsolute (r ++ rest) = false.
Proof.
  intros H. destruct r as [|x r]; [discriminate|].
  unfold isAbsolute, charCodeAt. cbn.
  destruct (Ascii.eqb_spec x CHAR_FORWARD_SLASH) as [->|N]; [discriminate H|reflexivity].
Qed.

Lemma descending_app (r n : jsstring) :
  descending r = true -> segment n = true -> descending (r ++ slash ++ n) = true.
Proof.
  intros Hr Hn. unfold descending in *. rewrite split_slash_concat, forallb_app, Hr.
  apply segment_no_slash in Hn as Hs. destruct Hs as [Hs _].
  rewrite (split_slash_no_slash n Hs). cbn. now rewrite Hn.
Qed.

Lemma descending_segment (n : jsstring) : segment n = true -> descending n = true.
Proof.
  intros Hn. unfold descending. apply segment_no_slash in Hn as Hs. destruct Hs as [Hs _].
  rewrite (split_slash_no_slash n Hs). cbn. now rewrite Hn.
Qed.

(** ** The string of the components *)

Lemma join_slash_app (a b : list jsstring) :
  a <> [] -> b <> [] -> join_slash (a ++ b) = join_slash a ++ slash ++ join_slash b.
Proof.
  intros Ha Hb. induction a as [|c a IH]; [congruence|].
  destruct a as [|c' a].
  - cbn [app join_slash]. destruct b; [congruence|reflexivity].
  - cbn [app join_slash] in *. rewrite IH by discriminate. now rewrite <- !app_assoc.
Qed.

Lemma render_descending (r : jsstring) (kept : list jsstring) :
  render (rev (split_slash r) ++ kept)
  = if len (render kept) =? 0 then
      match kept with [] => r | _ => render kept ++ slash ++ r end
    else render kept ++ slash ++ r.
Proof.
  unfold render. rewrite rev_app_distr, rev_involutive.
  destruct kept as [|t kept].
  - cbn [rev app join_slash]. change (len []) with 0. cbn. apply join_split_slash.
  - rewrite join_slash_app.
    + rewrite join_split_slash. now destruct (len _ =? 0).
    + intros E. apply (f_equal (@length jsstring)) in E. rewrite length_rev in E. discriminate.
    + apply split_slash_nonempty.
Qed.

Lemma render_descending_ok (r : jsstring) (kept : list jsstring) :
  kept_ok kept ->
  render (rev (split_slash r) ++ kept)
  = match kept with [] => r | _ => render kept ++ slash ++ r end.
Proof.
  intros Hok. rewrite render_descending. destruct kept as [|t kept]; [reflexivity|].
  now destruct (len _ =? 0).
Qed.

Lemma render_nil_iff (kept : list jsstring) : kept_ok kept -> (render kept = [] <-> kept = []).
Proof.
  intros Hok. split; [|now intros ->].
  intros E. destruct kept as [|t kept]; [reflexivity|].
  exfalso. revert E. apply render_nonempty; [assumption|discriminate].
Qed.

(** [normalize] by components. *)
Lemma normalize_components (p : jsstring) :
  p <> [] ->
  normalize p
  = let kept := norm_components (negb (isAbsolute p)) [] p in
    let trailingSeparator := code_is CHAR_FORWARD_SLASH (charCodeAt p (len p - 1)) in
    match kept with
    | [] => if isAbsolute p then js "/" else if trailingSeparator then js "./" else js "."
    | _ =>
        (if isAbsolute p then js "/" else [])
        ++ render kept ++ (if trailingSeparator then js "/" else [])
    end.
Proof.
  intros Hne. unfold normalize. fold (isAbsolute p).
  destruct (Z.eqb_spec (len p) 0) as [E|_].
  { exfalso. apply Hne, len_zero_iff. now apply Z.eqb_eq. }
  rewrite normalizeString_components. cbn zeta.
  pose proof (normal_kept_ok _ _ (normal_components (negb (isAbsolute p)) [] p
                                    (normal_nil _))) as Hok.
  destruct (norm_components (negb (isAbsolute p)) [] p) as [|t kept] eqn:Ek.
  - reflexivity.
  - assert (Hr : render (t :: kept) <> []) by (apply render_nonempty; [assumption|discriminate]).
    destruct (Z.eqb_spec (len (render (t :: kept))) 0) as [E|_].
    { exfalso. apply Hr, len_zero_iff. now apply Z.eqb_eq. }
    destruct (code_is _ (charCodeAt p (len p - 1))), (isAbsolute p);
      cbn [app]; rewrite ?app_nil_r; reflexivity.
Qed.

Lemma len_cons_nonzero (x : ascii) (s : jsstring) : (len (x :: s) =? 0) = false.
Proof.
  rewrite len_cons. pose proof (len_nonneg s).
  destruct (Z.eqb_spec (1 + len s) 0); [lia|reflexivity].
Qed.

Lemma join_two (a b : jsstring) :
  b <> [] ->
  join [a; b] = normalize (match a with [] => b | _ => a ++ slash ++ b end).
Proof.
  intros Hb. unfold join. cbn [join_args]. rewrite !len_pos_iff.
  destruct b as [|y b]; [congruence|]. rewrite (len_cons_nonzero y b).
  destruct a as [|x a].
  - reflexivity.
  - rewrite (len_cons_nonzero x a). reflexivity.
Qed.

Lemma join_one (a : jsstring) : a <> [] -> join [a; []] = normalize a.
Proof.
  intros Ha. unfold join. cbn [join_args]. rewrite !len_pos_iff.
  destruct a as [|x a]; [congruence|]. rewrite (len_cons_nonzero x a). reflexivity.
Qed.

Lemma normal_descending (allow : bool) (r : jsstring) (kept : list jsstring) :
  descending r = true -> normal allow kept -> normal allow (rev (split_slash r) ++ kept).
Proof.
  intros Hr Hn. rewrite <- (norm_components_descending allow kept r Hr).
  now apply normal_components.
Qed.

(* ================================================================== *)
(** * The absolute path of a path *)

Lemma absolute_components_normal (cwd p : jsstring) : normal false (absolute_components cwd p).
Proof.
  unfold absolute_components. destruct (isAbsolute p).
  - apply normal_components, normal_nil.
  - apply normal_components, normal_components, normal_nil.
Qed.

Lemma absolute_components_ok (cwd p : jsstring) : kept_ok (absolute_components cwd p).
Proof. eapply normal_kept_ok, absolute_components_normal. Qed.

Lemma resolve_loop_one (cwd p : jsstring) :
  isAbsolute cwd = true ->
  resolve_loop [p; cwd] [] false
  = if isAbsolute p then (p ++ slash, true)
    else (cwd ++ slash ++ match p with [] => [] | _ => p ++ slash end, true).
Proof.
  intros Hc. destruct cwd as [|y cwd]; [discriminate|].
  cbn [resolve_loop]. destruct p as [|x p].
  - change (len [] =? 0) with true. cbn iota.
    rewrite (len_cons_nonzero y cwd). fold (isAbsolute (y :: cwd)). rewrite Hc.
    reflexivity.
  - rewrite (len_cons_nonzero x p). fold (isAbsolute (x :: p)).
    destruct (isAbsolute (x :: p)); [reflexivity|].
    rewrite (len_cons_nonzero y cwd). fold (isAbsolute (y :: cwd)). rewrite Hc.
    reflexivity.
Qed.

(** [path.resolve] of one path, from an absolute working directory. *)
Lemma resolve_components (cwd p : jsstring) :
  isAbsolute cwd = true ->
  resolve cwd [p] = slash ++ render (absolute_components cwd p).
Proof.
  intros Hc. unfold resolve, absolute_components. cbn [rev app].
  rewrite (resolve_loop_one cwd p Hc).
  destruct (isAbsolute p) eqn:Ep; cbn [negb]; rewrite normalizeString_components.
  - now rewrite norm_components_trailing.
  - rewrite norm_components_concat. destruct p as [|x p]; [reflexivity|].
    now rewrite norm_components_trailing.
Qed.

Lemma render_relative (kept : list jsstring) (rest : jsstring) :
  kept_ok kept -> kept <> [] -> isAbsolute (render kept ++ rest) = false.
Proof.
  intros Hk Hne. unfold render.
  assert (Hr : Forall (fun c => no_slash c = true /\ c <> []) (rev kept))
    by now apply Forall_rev.
  destruct (rev kept) as [|h t] eqn:E.
  { apply (f_equal (@rev jsstring)) in E. rewrite rev_involutive in E. contradiction. }
  pose proof (Forall_inv Hr) as [Hh Hh']. destruct h as [|x h]; [congruence|].
  cbn in Hh. apply andb_true_iff in Hh as [Hx _]. apply negb_true_iff in Hx.
  destruct t; cbn [join_slash app]; unfold isAbsolute, charCodeAt; cbn; now rewrite Hx.
Qed.

(** Normalizing a path does not change its absolute path. *)
Lemma absolute_components_normalize (cwd p : jsstring) :
  p <> [] -> absolute_components cwd (normalize p) = absolute_components cwd p.
Proof.
  intros Hp. rewrite (normalize_components p Hp). cbn zeta.
  set (trail := code_is CHAR_FORWARD_SLASH (charCodeAt p (len p - 1))).
  unfold absolute_components at 2.
  destruct (isAbsolute p) eqn:Ep; cbn [negb].
  - pose proof (normal_components false [] p (normal_nil false)) as Hn.
    destruct (norm_components false [] p) as [|t kept] eqn:E; [reflexivity|].
    rewrite <- E in *. unfold absolute_components.
    change (js "/") with slash. rewrite isAbsolute_app by discriminate.
    change (isAbsolute slash) with true. cbn iota.
    rewrite norm_components_slash.
    assert (Ht : norm_components false [] (render (norm_components false [] p)
                                            ++ (if trail then slash else []))
                 = norm_components false [] (render (norm_components false [] p))).
    { destruct trail; [apply norm_components_trailing | now rewrite app_nil_r]. }
    rewrite Ht, norm_components_render by (eapply normal_kept_ok; exact Hn).
    now apply normal_fixed.
  - pose proof (normal_components true [] p (normal_nil true)) as Hn.
    pose proof (fold_normalized (split_slash p) (split_slash_components p)
                  (norm_components false [] cwd)) as Hf.
    fold (norm_components true [] p) in Hf.
    fold (norm_components false (norm_components false [] cwd) p) in Hf.
    rewrite <- Hf.
    destruct (norm_components true [] p) as [|t kept] eqn:E.
    + destruct trail; reflexivity.
    + rewrite <- E in *. unfold absolute_components. cbn [app].
      assert (Hok : kept_ok (norm_components true [] p)) by (eapply normal_kept_ok; exact Hn).
      rewrite render_relative by (try assumption; rewrite E; discriminate).
      assert (Ht : norm_components false (norm_components false [] cwd)
                     (render (norm_components true [] p) ++ (if trail then js "/" else []))
                   = norm_components false (norm_components false [] cwd)
                       (render (norm_components true [] p))).
      { destruct trail; [apply norm_components_trailing | now rewrite app_nil_r]. }
      rewrite Ht. now apply norm_components_render.
Qed.

Lemma absolute_components_join_empty (cwd d : jsstring) :
  absolute_components cwd (join [d; []]) = absolute_components cwd d.
Proof.
  destruct d as [|x d]; [reflexivity|].
  rewrite join_one by discriminate. now apply absolute_components_normalize.
Qed.

Lemma absolute_components_descending (cwd rootDir r : jsstring) :
  descending r = true ->
  absolute_components cwd
    (match rootDir with [] => r | _ => rootDir ++ slash ++ r end)
  = rev (split_slash r) ++ absolute_components cwd rootDir.
Proof.
  intros Hr. unfold absolute_components. destruct rootDir as [|x rootDir].
  - pose proof (descending_relative r [] Hr) as Ha. rewrite app_nil_r in Ha. rewrite Ha.
    change (isAbsolute []) with false. cbn iota. rewrite norm_components_nil.
    now apply norm_components_descending.
  - rewrite isAbsolute_app by discriminate.
    destruct (isAbsolute (x :: rootDir)); rewrite norm_components_concat;
      now apply norm_components_descending.
Qed.

Lemma absolute_components_join (cwd rootDir r : jsstring) :
  descending r = true ->
  absolute_components cwd (join [rootDir; r])
  = rev (split_slash r) ++ absolute_components cwd rootDir.
Proof.
  intros Hr. pose proof (descending_nonempty r Hr) as Hne.
  rewrite (join_two rootDir r Hne), absolute_components_normalize.
  - now apply absolute_components_descending.
  - destruct rootDir; [exact Hne | discriminate].
Qed.

Lemma split_slash_segment (n : jsstring) : segment n = true -> split_slash n = [n].
Proof. intros H. apply split_slash_no_slash. now apply segment_no_slash. Qed.

Lemma absolute_components_child (cwd d n : jsstring) :
  segment n = true -> d <> [] ->
  absolute_components cwd (d ++ slash ++ n) = n :: absolute_components cwd d.
Proof.
  intros Hn Hd. destruct d as [|x d]; [congruence|].
  rewrite (absolute_components_descending cwd (x :: d) n) by now apply descending_segment.
  now rewrite split_slash_segment.
Qed.

Lemma absolute_components_root_child (cwd n : jsstring) :
  segment n = true -> absolute_components cwd (slash ++ n) = [n].
Proof.
  intros Hn. unfold absolute_components. change (isAbsolute (slash ++ n)) with true.
  cbn iota. rewrite norm_components_slash, norm_components_descending
    by now apply descending_segment.
  now rewrite split_slash_segment.
Qed.

(** ** Below a directory *)

Lemma extend_render (kept : list jsstring) (r : jsstring) :
  kept_ok kept ->
  extend (slash ++ render kept) r = slash ++ render (rev (split_slash r) ++ kept).
Proof.
  intros Hk. rewrite render_descending_ok by assumption. unfold extend.
  destruct kept as [|t kept]; [reflexivity|].
  pose proof (render_nonempty (t :: kept) Hk ltac:(discriminate)) as Hne.
  destruct (render (t :: kept)) as [|x rest] eqn:E; [congruence|].
  cbn [slash app str_eqb]. rewrite andb_false_r.
  cbn [app]. do 2 f_equal. now rewrite <- app_assoc.
Qed.

Lemma resolve_join (cwd rootDir r : jsstring) :
  isAbsolute cwd = true -> descending r = true ->
  resolve cwd [join [rootDir; r]] = extend (resolve cwd [rootDir]) r.
Proof.
  intros Hc Hr. rewrite !resolve_components by assumption.
  rewrite absolute_components_join by assumption.
  symmetry. apply extend_render, absolute_components_ok.
Qed.

Lemma resolve_join_empty (cwd d : jsstring) :
  isAbsolute cwd = true -> resolve cwd [join [d; []]] = resolve cwd [d].
Proof.
  intros Hc. rewrite !resolve_components by assumption.
  now rewrite absolute_components_join_empty.
Qed.

Lemma resolve_child (cwd d n : jsstring) :
  isAbsolute cwd = true -> segment n = true -> d <> [] ->
  resolve cwd [d ++ slash ++ n] = extend (resolve cwd [d]) n.
Proof.
  intros Hc Hn Hd. rewrite !resolve_components by assumption.
  rewrite absolute_components_child by assumption.
  rewrite extend_render by apply absolute_components_ok.
  now rewrite split_slash_segment.
Qed.

Lemma resolve_root_child (cwd n : jsstring) :
  isAbsolute cwd = true -> segment n = true ->
  resolve cwd [slash ++ n] = extend (resolve cwd [slash]) n.
Proof.
  intros Hc Hn. rewrite !resolve_components by assumption.
  rewrite absolute_components_root_child by assumption.
  rewrite extend_render by apply absolute_components_ok.
  now rewrite split_slash_segment.
Qed.

Lemma resolve_absolute (cwd p : jsstring) :
  isAbsolute cwd = true -> exists rest, resolve cwd [p] = slash ++ rest.
Proof. intros Hc. rewrite resolve_components by assumption. eauto. Qed.

Lemma extend_extend (R r n : jsstring) :
  descending r = true -> extend (extend R r) n = extend R (r ++ slash ++ n).
Proof.
  intros Hr. pose proof (descending_nonempty r Hr) as Hne.
  unfold extend at 1 3.
  assert (E : str_eqb (extend R r) slash = false).
  { apply str_eqb_neq. unfold extend. intros H.
    apply (f_equal (@length ascii)) in H. rewrite !length_app in H.
    destruct r; [congruence|]. destruct (str_eqb R slash) eqn:ER.
    - apply str_eqb_eq in ER. subst R. cbn in H. lia.
    - rewrite length_app in H. cbn in H. lia. }
  rewrite E. unfold extend. now rewrite <- !app_assoc.
Qed.
(* ================================================================== *)
(** * [path.relative] from a directory to a path below it *)

Lemma relative_common_prefix (X : jsstring) :
  forall (done rest : jsstring) (sep : Z),
    fst (relative_common (slash ++ done ++ X) (slash ++ done ++ X ++ rest)
           (length X) (len done) sep)
    = len done + len X.
Proof.
  induction X as [|x X IH]; intros done rest sep.
  - cbn [length relative_common fst]. change (len []) with 0. lia.
  - cbn [length relative_common].
    assert (H1 : charCodeAt (slash ++ done ++ x :: X) (1 + len done) = Some x).
    { replace (1 + len done) with (len (slash ++ done)) by (rewrite len_app; reflexivity).
      rewrite app_assoc. apply charCodeAt_middle. }
    assert (H2 : charCodeAt (slash ++ done ++ (x :: X) ++ rest) (1 + len done) = Some x).
    { replace (1 + len done) with (len (slash ++ done)) by (rewrite len_app; reflexivity).
      rewrite app_assoc. apply (charCodeAt_middle (slash ++ done) (X ++ rest)). }
    rewrite H1, H2. cbn [code_is]. rewrite Ascii.eqb_refl. cbn [negb].
    specialize (IH (done ++ [x]) rest
                  (if Ascii.eqb x CHAR_FORWARD_SLASH then len done else sep)).
    rewrite <- !app_assoc in IH. cbn [app] in IH.
    rewrite len_app in IH. change (len [x]) with 1 in IH.
    cbn [app]. rewrite IH. rewrite len_cons. lia.
Qed.

Lemma slice_rest (a b : jsstring) : slice (a ++ b) (len a) (len (a ++ b)) = b.
Proof.
  pose proof (slice_middle a b []) as H. rewrite app_nil_r in H. now rewrite len_app.
Qed.

Lemma extend_longer (R r : jsstring) : r <> [] -> extend R r <> R.
Proof.
  intros Hr H. apply (f_equal (@length ascii)) in H. unfold extend in H.
  destruct r; [congruence|]. destruct (str_eqb R slash); rewrite !length_app in H; cbn in H; lia.
Qed.

Lemma descending_first (r : jsstring) :
  descending r = true ->
  exists x rest, r = x :: rest /\ Ascii.eqb x CHAR_FORWARD_SLASH = false.
Proof.
  intros Hr. pose proof (descending_relative r [] Hr) as Ha. rewrite app_nil_r in Ha.
  destruct r as [|x rest]; [discriminate|]. exists x, rest. split; [reflexivity|exact Ha].
Qed.

Lemma relative_same (cwd from to : jsstring) :
  resolve cwd [to] = resolve cwd [from] -> relative cwd from to = [].
Proof.
  intros H. unfold relative. destruct (str_eqb from to); [reflexivity|].
  cbv zeta. now rewrite H, str_eqb_refl.
Qed.

Lemma relative_below (cwd from to r : jsstring) :
  isAbsolute cwd = true -> descending r = true ->
  resolve cwd [to] = extend (resolve cwd [from]) r ->
  relative cwd from to = r.
Proof.
  intros Hc Hr HT. pose proof (descending_nonempty r Hr) as Hne.
  destruct (resolve_absolute cwd from Hc) as [X HF].
  assert (Hraw : str_eqb from to = false).
  { apply str_eqb_neq. intros ->. symmetry in HT. revert HT. now apply extend_longer. }
  assert (Hres : str_eqb (resolve cwd [from]) (resolve cwd [to]) = false).
  { apply str_eqb_neq. intros E. rewrite <- E in HT. symmetry in HT. revert HT.
    now apply extend_longer. }
  unfold relative. rewrite Hraw. cbv zeta. rewrite Hres. rewrite HT, HF.
  destruct (descending_first r Hr) as (x & r' & -> & Hx).
  destruct X as [|y X].
  - change (extend (slash ++ []) (x :: r')) with (slash ++ x :: r').
    change (len (slash ++ []) - 1) with 0.
    replace (len (slash ++ x :: r') - 1) with (len (x :: r'))
      by (rewrite len_app; change (len slash) with 1; lia).
    pose proof (len_nonneg r') as Hl. rewrite len_cons.
    destruct (Z.ltb_spec 0 (1 + len r')) as [_|]; [|lia].
    cbn [Z.to_nat relative_common].
    change (0 =? 0) with true. cbn [andb].
    destruct (Z.gtb_spec (1 + len r') 0) as [_|]; [|lia].
    cbn [Z.add]. change (charCodeAt (slash ++ x :: r') 1) with (Some x).
    cbn [code_is]. rewrite Hx.
    change 1 with (len slash). apply slice_rest.
  - assert (E : extend (slash ++ y :: X) (x :: r') = slash ++ (y :: X) ++ slash ++ x :: r').
    { unfold extend. cbn [slash app str_eqb]. rewrite andb_false_r. cbn [app].
      do 2 f_equal. now rewrite <- app_assoc. }
    rewrite E. clear E.
    set (T := slash ++ (y :: X) ++ slash ++ x :: r').
    set (F := slash ++ y :: X).
    assert (HlF : len F - 1 = len (y :: X))
      by (unfold F; rewrite len_app; change (len slash) with 1; lia).
    assert (HlT : len T - 1 = len (y :: X) + 1 + len (x :: r')).
    { unfold T. rewrite !len_app. change (len slash) with 1. lia. }
    rewrite HlF, HlT.
    pose proof (len_nonneg (y :: X)) as H1. pose proof (len_nonneg (x :: r')) as H2.
    destruct (Z.ltb_spec (len (y :: X)) (len (y :: X) + 1 + len (x :: r'))) as [_|]; [|lia].
    assert (Hp : fst (relative_common F T (length (y :: X)) 0 (-1)) = len (y :: X))
      by apply (relative_common_prefix (y :: X) [] (slash ++ x :: r') (-1)).
    unfold len at 1. rewrite Nat2Z.id.
    destruct (relative_common F T (length (y :: X)) 0 (-1)) as [i sep].
    cbn [fst] in Hp. subst i.
    rewrite Z.eqb_refl. cbn [andb].
    destruct (Z.gtb_spec (len (y :: X) + 1 + len (x :: r')) (len (y :: X))) as [_|]; [|lia].
    assert (Hs : charCodeAt T (1 + len (y :: X)) = Some CHAR_FORWARD_SLASH).
    { unfold T. replace (1 + len (y :: X)) with (len (slash ++ y :: X))
        by (rewrite len_app; reflexivity).
      rewrite app_assoc. apply (charCodeAt_middle (slash ++ y :: X) (x :: r')). }
    rewrite Hs. cbn [code_is]. rewrite Ascii.eqb_refl.
    replace (1 + len (y :: X) + 1) with (len ((slash ++ y :: X) ++ slash))
      by (rewrite !len_app; change (len slash) with 1; lia).
    replace T with (((slash ++ y :: X) ++ slash) ++ x :: r')
      by (unfold T; now rewrite <- !app_assoc).
    apply slice_rest.
Qed.

(* ================================================================== *)
(** * Directories that do not overlap *)

Lemma render_injective (a b : list jsstring) :
  kept_ok a -> kept_ok b -> render a = render b -> a = b.
Proof.
  intros Ha Hb E.
  assert (Hs : forall k, kept_ok k -> k <> [] -> split_slash (render k) = rev k).
  { intros k Hk Hne. unfold render. apply split_join_slash.
    - intros H. apply (f_equal (@rev jsstring)) in H. rewrite rev_involutive in H.
      contradiction.
    - apply Forall_rev. eapply Forall_impl; [|exact Hk]. now intros c [H _]. }
  destruct a as [|t a].
  - symmetry. apply render_nil_iff; [assumption|]. now rewrite <- E.
  - destruct b as [|u b].
    + apply render_nil_iff; [assumption|]. now rewrite E.
    + pose proof (Hs (t :: a) Ha ltac:(discriminate)) as H1.
      pose proof (Hs (u :: b) Hb ltac:(discriminate)) as H2.
      rewrite E, H2 in H1. apply (f_equal (@rev jsstring)) in H1.
      now rewrite !rev_involutive in H1.
Qed.

(** The components kept on top of those of a directory give a descending
    path. *)
Lemma segments_descending (l : list jsstring) :
  forallb segment l = true -> l <> [] ->
  exists v, descending v = true /\ rev (split_slash v) = l.
Proof.
  intros Hl Hne. exists (render l).
  assert (Hs : split_slash (render l) = rev l).
  { unfold render. apply split_join_slash.
    - intros H. apply (f_equal (@rev jsstring)) in H. rewrite rev_involutive in H.
      contradiction.
    - apply Forall_rev. apply Forall_forall. intros c Hin.
      rewrite forallb_forall in Hl. now apply segment_no_slash, Hl. }
  unfold descending. rewrite Hs. split; [|apply rev_involutive].
  rewrite forallb_forall in *. intros c Hin. apply Hl. now apply in_rev.
Qed.

Lemma below_comparable (cwd a b : jsstring) (ra rb : jsstring) :
  isAbsolute cwd = true -> descending ra = true -> descending rb = true ->
  extend (resolve cwd [a]) ra = extend (resolve cwd [b]) rb ->
  inside cwd a b \/ inside cwd b a.
Proof.
  intros Hc Ha Hb E. unfold inside, strictly_inside.
  rewrite !resolve_components in * by assumption.
  rewrite !extend_render in E by apply absolute_components_ok.
  injection E as E.
  pose proof (absolute_components_normal cwd a) as Na.
  pose proof (absolute_components_normal cwd b) as Nb.
  apply render_injective in E;
    [|eapply normal_kept_ok, normal_descending; eassumption ..].
  apply app_eq_app in E as (l & [[E1 E2] | [E1 E2]]).
  - (* the components of b are those of a under l *)
    destruct l as [|c l].
    + left. left. now rewrite E2.
    + left. right.
      destruct (segments_descending (c :: l)) as (v & Hv & Hl); [|discriminate|].
      * unfold descending in Ha. rewrite <- (rev_involutive (split_slash ra)) in Ha.
        rewrite E1, rev_app_distr in Ha.
        rewrite forallb_app in Ha. apply andb_true_iff in Ha as [Ha _].
        rewrite forallb_forall in *. intros s Hin. apply Ha. now apply -> in_rev.
      * exists v. split; [exact Hv|].
        rewrite extend_render by apply absolute_components_ok. now rewrite Hl, E2.
  - destruct l as [|c l].
    + left. left. now rewrite E2.
    + right. right.
      destruct (segments_descending (c :: l)) as (v & Hv & Hl); [|discriminate|].
      * unfold descending in Hb. rewrite <- (rev_involutive (split_slash rb)) in Hb.
        rewrite E1, rev_app_distr in Hb.
        rewrite forallb_app in Hb. apply andb_true_iff in Hb as [Hb _].
        rewrite forallb_forall in *. intros s Hin. apply Hb. now apply -> in_rev.
      * exists v. split; [exact Hv|].
        rewrite extend_render by apply absolute_components_ok. now rewrite Hl, E2.
Qed.

(** A path below one of two directories that do not overlap is not in the
    other one. *)
Lemma apart_below (cwd a b p : jsstring) :
  isAbsolute cwd = true -> apart cwd a b -> inside cwd b p -> ~ inside cwd a p.
Proof.
  intros Hc [Hab Hba] Hb Ha.
  destruct Hb as [Hb | (rb & Hrb & Hb)]; destruct Ha as [Ha | (ra & Hra & Ha)].
  - apply Hab. left. congruence.
  - (* p is b, and lies below a *)
    apply Hab. right. exists ra. split; [exact Hra | congruence].
  - apply Hba. right. exists rb. split; [exact Hrb | congruence].
  - rewrite Ha in Hb.
    destruct (below_comparable cwd a b ra rb Hc Hra Hrb Hb) as [H | H]; auto.
Qed.
(* ================================================================== *)
(** * Where the program reads and writes *)

Lemma segment_valid (n : jsstring) : segment n = true -> valid_name n = true.
Proof.
  intros H. apply segment_spec in H as (H1 & H2 & _ & H4). unfold valid_name.
  rewrite H2. apply str_eqb_neq in H4. rewrite H4.
  destruct (len n =? 0) eqn:E; [apply len_zero_iff in E; contradiction | reflexivity].
Qed.

Lemma ext_shape (first : bool) (b : jsstring) :
  no_slash b = true ->
  no_slash (fst (stem_ext first b)) = true
  /\ no_slash (snd (stem_ext first b)) = true
  /\ (snd (stem_ext first b) = [] \/ exists t, snd (stem_ext first b) = CHAR_DOT :: t).
Proof.
  intros Hb. pose proof (stem_ext_app first b) as E. rewrite <- E, no_slash_app in Hb.
  apply andb_true_iff in Hb as [H1 H2]. repeat split; try assumption.
  unfold stem_ext. destruct (last_dot b) as [[a t]|]; [|now left].
  destruct a as [|c a']; [now left|]. destruct (_ && _); [now left | right; now exists t].
Qed.

(** A stem that is a segment, followed by an extension. *)
Lemma stem_with_ext (stem e : jsstring) :
  segment stem = true -> no_slash e = true -> (e = [] \/ exists t, e = CHAR_DOT :: t) ->
  segment (stem ++ e) = true.
Proof.
  intros Hs He Hshape. apply segment_spec in Hs as (H1 & H2 & H3 & H4).
  apply segment_spec. repeat split.
  - intros H. apply app_eq_nil in H as [H _]. contradiction.
  - now rewrite no_slash_app, H2, He.
  - destruct Hshape as [-> | [t ->]]; [now rewrite app_nil_r|].
    intros H. destruct stem as [|x [|y stem]]; [congruence | |]; cbn in H; discriminate H.
  - destruct Hshape as [-> | [t ->]]; [now rewrite app_nil_r|].
    intros H. destruct stem as [|x [|y stem]]; [congruence | |]; cbn in H.
    + injection H as -> Ht. now apply H3.
    + injection H as _ _ H. destruct stem; discriminate H.
Qed.

(** A name with a space in it. *)
Lemma space_segment (a b : jsstring) :
  no_slash a = true -> no_slash b = true -> segment (a ++ js " " ++ b) = true.
Proof.
  intros Ha Hb.
  assert (Hin : In " "%char (a ++ js " " ++ b)) by (apply in_or_app; right; now left).
  apply segment_spec. repeat split.
  - intros H. rewrite H in Hin. contradiction.
  - now rewrite !no_slash_app, Ha, Hb.
  - intros H. rewrite H in Hin. cbn in Hin. destruct Hin as [Hin | []]. discriminate Hin.
  - intros H. rewrite H in Hin. cbn in Hin. destruct Hin as [Hin | [Hin | []]]; discriminate Hin.
Qed.

Lemma fullPath_child (d : jsstring) (f : ParsedFile) :
  placed_in d f -> d <> [] -> segment (base f) = true -> child d (fullPath f).
Proof.
  intros (Hd & Hr & _) Hne Hb. subst d. exists (base f). split; [exact Hb|].
  destruct (list_eq_dec ascii_dec (dir f) (root f)) as [E|E].
  - right. rewrite fullPath_at_root by assumption.
    assert (Es : dir f = slash) by (destruct Hr; congruence).
    rewrite Es. now split.
  - left. now apply fullPath_in_dir.
Qed.

Lemma entry_child (d : jsstring) (f : ParsedFile) :
  entry_in d f -> d <> [] -> child d (fullPath f).
Proof. intros [Hl Hb] Hne. apply fullPath_child; auto. now apply listed_placed. Qed.

Lemma withName_child (d m : jsstring) (f : ParsedFile) :
  listed_in d f -> d <> [] -> segment (m ++ ext f) = true -> child d (fullPath (withName f m)).
Proof.
  intros (Hd & n & Hv & Hf) Hne Hm. subst d.
  rewrite (withName_describes n) by assumption.
  apply fullPath_child; [|assumption|exact Hm].
  split; [reflexivity|]. split; [apply root_of_cases|].
  apply segment_spec in Hm. apply Hm.
Qed.

Lemma entry_listed (n d : jsstring) :
  segment n = true ->
  entry_in (join [d; []]) (withParentDirectory (new_ParsedFile n) d).
Proof.
  intros Hn. pose proof (segment_valid n Hn) as Hv.
  split; [now apply candidate_listed|].
  rewrite withParentDirectory_listed by assumption. now rewrite base_component.
Qed.

Lemma entry_ext (d : jsstring) (f : ParsedFile) :
  entry_in d f ->
  no_slash (name f) = true /\ no_slash (ext f) = true
  /\ (ext f = [] \/ exists t, ext f = CHAR_DOT :: t).
Proof.
  intros [(_ & n & Hv & (_ & Hn & He)) _]. rewrite Hn, He.
  apply ext_shape. now apply valid_name_spec in Hv.
Qed.

Lemma listFiles_from_entries (entries : list Dirent) :
  named_entries entries -> from_entries (listFiles entries).
Proof.
  intros H. apply Forall_forall. intros f Hf. unfold listFiles in Hf.
  apply in_map_iff in Hf as (e & <- & He). apply filter_In in He as [He _].
  exists (dirent_name e). split; [|reflexivity].
  unfold named_entries in H. rewrite Forall_forall in H. now apply H.
Qed.

Lemma listFiles_from_source_entries (entries : list Dirent) :
  named_entries entries -> plain_stems entries -> from_source_entries (listFiles entries).
Proof.
  intros H Hp. apply Forall_forall. intros f Hf.
  unfold plain_stems in Hp. rewrite Forall_forall in Hp. pose proof (Hp f Hf) as Hs.
  unfold listFiles in Hf.
  apply in_map_iff in Hf as (e & <- & He). apply filter_In in He as [He _].
  exists (dirent_name e). split; [|split; [exact Hs | reflexivity]].
  unfold named_entries in H. rewrite Forall_forall in H. now apply H.
Qed.

Lemma targetCandidates_entries (targetDir : jsstring) (areSyncable : SyncPredicate)
  (targetFiles resolved : list ParsedFile) (sourceFile : ParsedFile) :
  from_entries targetFiles ->
  Forall (entry_in (join [targetDir; []]))
    (targetCandidates targetDir areSyncable targetFiles resolved sourceFile).
Proof.
  intros Ht. apply Forall_forall. intros c Hc.
  unfold targetCandidates in Hc. apply filter_In in Hc as [Hc _].
  apply in_map_iff in Hc as (t & <- & Hin). apply filter_In in Hin as [Hin _].
  unfold from_entries in Ht. rewrite Forall_forall in Ht.
  destruct (Ht t Hin) as (n & Hv & ->). now apply entry_listed.
Qed.

(** The calls of the program stay in given sets of directories: [Src] for
    what it reads, [Tgt] for what it writes, [Mk] for what it creates. *)
Section Frame.

Variables Src Tgt Mk : jsstring -> Prop.

Hypothesis Src_nonempty : forall d, Src d -> d <> [].
Hypothesis Tgt_nonempty : forall d, Tgt d -> d <> [].

Lemma perform_in (c : Call) :
  call_in Src Tgt Mk c -> Forall (write_in Src Tgt Mk) (perform c).
Proof.
  destruct c as [p|f m|s t|msg]; cbn [call_in perform].
  - intros H. now repeat constructor.
  - intros (Hm & d & Hd & Hf). unfold renameFile.
    destruct (negb _); [|constructor]. repeat constructor.
    exists d. split; [exact Hd|]. split.
    + apply entry_child; [exact Hf | now apply Tgt_nonempty].
    + apply withName_child; [apply Hf | now apply Tgt_nonempty | exact Hm].
  - intros ((ds & Hds & Hs) & (dt & Hdt & Ht & Hb)). unfold copyFile. repeat constructor.
    + exists ds. split; [exact Hds|].
      apply entry_child; [exact Hs | now apply Src_nonempty].
    + exists dt. split; [exact Hdt|].
      apply fullPath_child; [exact Ht | now apply Tgt_nonempty | exact Hb].
  - intros _. constructor.
Qed.

Lemma fs_writes_in (log : list Call) :
  Forall (call_in Src Tgt Mk) log -> Forall (write_in Src Tgt Mk) (fs_writes log).
Proof.
  induction 1 as [|c log Hc Hlog IH]; simpl; [constructor|].
  apply Forall_app. split; [now apply perform_in | exact IH].
Qed.

Lemma syncFile_in (sourceDir targetDir : jsstring) (areSyncable : SyncPredicate)
  (targetFiles : list ParsedFile) (r : SyncResults) (log : list Call) (n : jsstring) :
  Src (join [sourceDir; []]) -> Tgt (join [targetDir; []]) ->
  from_entries targetFiles -> segment n = true -> segment (name (new_ParsedFile n)) = true ->
  collisions_in Src Tgt (collisions r) -> Forall (call_in Src Tgt Mk) log ->
  collisions_in Src Tgt
    (collisions (fst (syncFile sourceDir targetDir areSyncable targetFiles (r, log)
                        (new_ParsedFile n))))
  /\ Forall (call_in Src Tgt Mk)
       (snd (syncFile sourceDir targetDir areSyncable targetFiles (r, log)
               (new_ParsedFile n))).
Proof.
  intros HS HT Ht Hn Hstem Hcol Hlog.
  pose proof (targetCandidates_entries targetDir areSyncable targetFiles (resolved r)
                (new_ParsedFile n) Ht) as Hc.
  pose proof (entry_listed n sourceDir Hn) as Hsrc.
  pose proof (entry_listed n targetDir Hn) as Htgt.
  unfold syncFile.
  destruct (targetCandidates targetDir areSyncable targetFiles (resolved r) (new_ParsedFile n))
    as [|c1 [|c2 rest]] eqn:E; cbn [length Nat.eqb Nat.ltb Nat.leb fst snd collisions].
  - split; [exact Hcol|]. apply Forall_app. split; [exact Hlog|].
    constructor; [|repeat constructor]. cbn [call_in]. split.
    + now exists (join [sourceDir; []]).
    + exists (join [targetDir; []]). split; [exact HT|].
      split; [apply listed_placed; apply Htgt | apply Htgt].
  - split; [exact Hcol|]. apply Forall_app. split; [exact Hlog|].
    constructor; [|repeat constructor]. cbn [call_in].
    pose proof (Forall_inv Hc) as Hc1. split.
    + destruct (entry_ext _ c1 Hc1) as (_ & He & Hshape). now apply stem_with_ext.
    + now exists (join [targetDir; []]).
  - split.
    + apply Forall_app. split; [exact Hcol|]. constructor; [|constructor].
      cbn [fst snd]. split.
      * now exists (join [sourceDir; []]).
      * eapply Forall_impl; [|exact Hc]. intros c Hl.
        now exists (join [targetDir; []]).
    + apply Forall_app. split; [exact Hlog | repeat constructor].
Qed.

Lemma syncFile_fold_in (sourceDir targetDir : jsstring) (areSyncable : SyncPredicate)
  (targetFiles sourceFiles : list ParsedFile) :
  Src (join [sourceDir; []]) -> Tgt (join [targetDir; []]) ->
  from_entries targetFiles -> from_source_entries sourceFiles ->
  forall acc,
    collisions_in Src Tgt (collisions (fst acc)) -> Forall (call_in Src Tgt Mk) (snd acc) ->
    collisions_in Src Tgt
      (collisions (fst (fold_left (syncFile sourceDir targetDir areSyncable targetFiles)
                          sourceFiles acc)))
    /\ Forall (call_in Src Tgt Mk)
         (snd (fold_left (syncFile sourceDir targetDir areSyncable targetFiles)
                 sourceFiles acc)).
Proof.
  intros HS HT Ht Hs.
  induction Hs as [|s l (n & Hn & Hstem & Hsn) Hl IH]; intros [r log] Hcol Hlog.
  - now split.
  - subst s. cbn [fold_left]. cbn [fst snd] in Hcol, Hlog.
    destruct (syncFile_in sourceDir targetDir areSyncable targetFiles r log n
                HS HT Ht Hn Hstem Hcol Hlog) as [H1 H2].
    now apply IH.
Qed.

Lemma syncDir_in (sourceDir targetDir : jsstring) (areSyncable : SyncPredicate)
  (syncResults : option SyncResults) (input : DirInput) :
  Src (join [sourceDir; []]) -> Tgt (join [targetDir; []]) -> Mk targetDir ->
  tree_input input ->
  match syncResults with Some r => collisions_in Src Tgt (collisions r) | None => True end ->
  collisions_in Src Tgt (collisions (fst (syncDir sourceDir targetDir areSyncable syncResults input)))
  /\ Forall (call_in Src Tgt Mk) (snd (syncDir sourceDir targetDir areSyncable syncResults input)).
Proof.
  intros HS HT HM (Hsrc & Hstems & Htgt) Hr. unfold syncDir.
  apply syncFile_fold_in; try assumption.
  - now apply listFiles_from_entries.
  - now apply listFiles_from_source_entries.
  - cbn [fst]. destruct syncResults; [exact Hr | constructor].
  - cbn [snd]. destruct (negb _); repeat constructor. exact HM.
Qed.

Lemma syncNames_in (cwd sourceRoot targetRoot : jsstring) (syncPredicate : SyncPredicate)
  (rootInput : DirInput) (klaw : list (jsstring * DirInput)) :
  Src (join [sourceRoot; []]) -> Tgt (join [targetRoot; []]) ->
  Mk targetRoot -> tree_input rootInput ->
  Forall (fun k =>
            let d := relative cwd sourceRoot (fst k) in
            Src (join [join [sourceRoot; d]; []])
            /\ Tgt (join [join [targetRoot; d]; []])
            /\ Mk (join [targetRoot; d])
            /\ tree_input (snd k)) klaw ->
  collisions_in Src Tgt
    (collisions (fst (syncNames cwd sourceRoot targetRoot syncPredicate rootInput klaw)))
  /\ Forall (call_in Src Tgt Mk) (snd (syncNames cwd sourceRoot targetRoot syncPredicate rootInput klaw)).
Proof.
  intros HS HT HM Hroot Hklaw. unfold syncNames.
  pose proof (syncDir_in sourceRoot targetRoot syncPredicate None rootInput HS HT HM Hroot I)
    as Hacc.
  revert Hacc. generalize (syncDir sourceRoot targetRoot syncPredicate None rootInput).
  induction Hklaw as [|k klaw (Hs & Ht & Hm & Hv) Hklaw IH]; intros acc [Hcol Hlog].
  - now split.
  - cbn [fold_left]. apply IH.
    pose proof (syncDir_in _ _ syncPredicate (Some (fst acc)) (snd k) Hs Ht Hm Hv Hcol)
      as [H1 H2].
    destruct (syncDir _ _ syncPredicate (Some (fst acc)) (snd k)) as [r calls].
    cbn [fst snd] in *. split; [exact H1|]. apply Forall_app. now split.
Qed.

Lemma renameCalls_in (postfix : jsstring) (toRename : list (ParsedFile * jsstring)) :
  no_slash postfix = true ->
  Forall (fun e => (exists d, Tgt d /\ entry_in d (fst e)) /\ no_slash (snd e) = true)
    toRename ->
  Forall (call_in Src Tgt Mk) (renameCalls postfix toRename).
Proof.
  intros Hp. induction 1 as [|e l [He Hs] Hl IH]; simpl; [constructor|].
  constructor; [|constructor; [exact I | exact IH]].
  cbn [call_in]. split; [|exact He].
  destruct He as (d & _ & He). destruct (entry_ext d (fst e) He) as (_ & Hx & _).
  rewrite <- !app_assoc. apply space_segment; [exact Hs|].
  now rewrite no_slash_app, Hp, Hx.
Qed.

Lemma copyCalls_in (cwd sourceRoot targetRoot postfix : jsstring)
  (sources : list ParsedFile) :
  no_slash postfix = true ->
  (forall d, Src d -> Tgt (join [targetRoot; relative cwd sourceRoot d])) ->
  Forall (fun s => exists d, Src d /\ entry_in d s) sources ->
  Forall (call_in Src Tgt Mk)
    (copyCalls postfix (map (fun s => (s, mirrored cwd sourceRoot targetRoot s)) sources)).
Proof.
  intros Hp HT. induction 1 as [|s l Hs Hl IH]; [constructor|].
  unfold copyCalls. cbn [map flat_map app fst snd]. fold (copyCalls postfix).
  constructor; [|constructor; [exact I | exact IH]].
  cbn [call_in]. split; [exact Hs|].
  destruct Hs as (d & HSd & He).
  destruct (entry_ext d s He) as (Hn & Hx & _).
  destruct He as [(Hdir & n & Hv & Hd) _].
  destruct (mirrored_describes cwd sourceRoot targetRoot n s Hv Hd) as (_ & _ & Hname & Hwith).
  exists (join [targetRoot; relative cwd sourceRoot (dir s)]).
  split; [apply HT; now rewrite Hdir|]. rewrite Hwith, Hname.
  assert (Hseg : segment ((name s ++ js " " ++ postfix) ++ ext s) = true).
  { rewrite <- !app_assoc. apply space_segment; [exact Hn|].
    now rewrite no_slash_app, Hp, Hx. }
  split; [|exact Hseg].
  split; [reflexivity|]. split; [apply root_of_cases|].
  apply segment_spec in Hseg. apply Hseg.
Qed.

Lemma resolveCollisions_in (cwd sourceRoot targetRoot : jsstring)
  (l : list (ParsedFile * list ParsedFile)) (postfix : jsstring) :
  no_slash postfix = true ->
  (forall d, Src d -> Tgt (join [targetRoot; relative cwd sourceRoot d])) ->
  collisions_in Src Tgt l ->
  Forall (call_in Src Tgt Mk) (resolveCollisions cwd sourceRoot targetRoot l postfix).
Proof.
  intros Hp HT Hl.
  assert (Hsorted : collisions_in Src Tgt (sortedCollisions l)).
  { eapply Permutation_Forall; [|exact Hl].
    apply (sort_perm (fun e : ParsedFile * list ParsedFile => stemLength (fst e))). }
  rewrite resolveCollisions_calls. unfold decideCollisions.
  revert Hsorted. generalize (sortedCollisions l) as entries. clear Hl.
  intros entries Hin.
  destruct (resolveKey_fold cwd sourceRoot targetRoot entries [] []) as (ds & HF & Hfold).
  rewrite Hfold. cbn [fst snd app]. clear Hfold.
  assert (Hren : Forall (fun e => (exists d, Tgt d /\ entry_in d (fst e))
                                  /\ no_slash (snd e) = true)
                   (renamesOf (combine entries ds))).
  { induction HF as [|e d entries ds Hd HF IH]; [constructor|].
    pose proof (Forall_inv Hin) as [[dk [_ Hk]] Hc].
    pose proof (Forall_inv_tail Hin) as Hin'.
    cbn [combine renamesOf flat_map snd fst]. destruct d as [file|].
    - constructor; [|now apply IH]. cbn [fst snd]. split.
      + rewrite Forall_forall in Hc. now apply Hc.
      + now destruct (entry_ext dk (fst e) Hk) as (Hn & _).
    - now apply IH. }
  assert (Hcop : exists sources,
             copiesOf cwd sourceRoot targetRoot (combine entries ds)
             = map (fun s => (s, mirrored cwd sourceRoot targetRoot s)) sources
             /\ Forall (fun s => exists d, Src d /\ entry_in d s) sources).
  { clear Hren. induction HF as [|e d entries ds Hd HF IH]; [exists []; split; constructor|].
    pose proof (Forall_inv Hin) as [Hs _].
    pose proof (Forall_inv_tail Hin) as Hin'.
    destruct (IH Hin') as (sources & E & Hsrc).
    cbn [combine copiesOf flat_map snd fst]. destruct d as [file|].
    - exists sources. now split.
    - exists (fst e :: sources). split.
      + cbn [map app]. f_equal. exact E.
      + now constructor. }
  destruct Hcop as (sources & -> & Hsrc).
  apply Forall_app. split; [now apply renameCalls_in | now apply copyCalls_in].
Qed.

End Frame.
(* ================================================================== *)
(** * The writes stay in the target tree *)

Lemma child_below (cwd rootDir d p : jsstring) :
  isAbsolute cwd = true -> directory_in cwd rootDir d -> child d p ->
  strictly_inside cwd rootDir p.
Proof.
  intros Hc [Hne Hin] (n & Hn & Hp).
  assert (E : resolve cwd [p] = extend (resolve cwd [d]) n).
  { destruct Hp as [-> | [-> ->]]; [now apply resolve_child | now apply resolve_root_child]. }
  destruct Hin as [Hd | (r & Hr & Hd)].
  - exists n. split; [now apply descending_segment | now rewrite E, Hd].
  - exists (r ++ slash ++ n). split; [now apply descending_app|].
    rewrite E, Hd. now apply extend_extend.
Qed.

Lemma directory_in_join_empty (cwd rootDir : jsstring) :
  isAbsolute cwd = true -> directory_in cwd rootDir (join [rootDir; []]).
Proof. intros Hc. split; [apply join_nonempty | left; now apply resolve_join_empty]. Qed.

Lemma directory_in_join (cwd rootDir r : jsstring) :
  isAbsolute cwd = true -> descending r = true ->
  directory_in cwd rootDir (join [rootDir; r])
  /\ directory_in cwd rootDir (join [join [rootDir; r]; []]).
Proof.
  intros Hc Hr. split; (split; [apply join_nonempty|]); right; exists r; (split; [exact Hr|]).
  - now apply resolve_join.
  - rewrite resolve_join_empty by assumption. now apply resolve_join.
Qed.

(** The directory of the target tree that mirrors a directory of the
    source tree. *)
Lemma directory_in_mirror (cwd sourceRoot targetRoot d : jsstring) :
  isAbsolute cwd = true -> directory_in cwd sourceRoot d ->
  directory_in cwd targetRoot (join [targetRoot; relative cwd sourceRoot d]).
Proof.
  intros Hc [_ [Hd | (r & Hr & Hd)]].
  - rewrite (relative_same cwd sourceRoot d Hd). now apply directory_in_join_empty.
  - rewrite (relative_below cwd sourceRoot d r Hc Hr Hd). now apply directory_in_join.
Qed.

(** C9.  A run is [syncNames] followed by [resolveCollisions]; its writes
    are those of all the calls it sets out to make, so those it performs
    are among them.  Take an absolute working directory, listings whose
    names are segments (not empty, without slash, neither [.] nor [..]) and
    whose source files have stems that are segments, a walk that gives
    directories below the source root, and a postfix without slash.  Then
    every rename of the run takes a path below the target root to a path
    below the target root, every copy reads a path below the source root
    and writes a path below the target root, and every directory made is
    the target root or lies below it.  When moreover the two roots do not
    overlap, no path that the run creates, replaces or removes is the
    source root or lies below it: the source tree is never written.  Below
    a root means: the absolute path ([path.resolve]) is that of the root
    followed by segments. *)
Theorem writes_stay_in_target_tree
  (cwd sourceRoot targetRoot collisionPostfix : jsstring)
  (rootInput : DirInput) (klaw : list (jsstring * DirInput)) :
  isAbsolute cwd = true ->
  no_slash collisionPostfix = true ->
  tree_input rootInput ->
  Forall (fun k => strictly_inside cwd sourceRoot (fst k) /\ tree_input (snd k)) klaw ->
  let writes :=
    fs_writes (snd (syncAndResolve cwd sourceRoot targetRoot collisionPostfix
                      rootInput klaw)) in
  Forall (fun w =>
            match w with
            | FsMkdir p => inside cwd targetRoot p
            | FsRename oldPath newPath =>
                strictly_inside cwd targetRoot oldPath
                /\ strictly_inside cwd targetRoot newPath
            | FsCopyFile src dest =>
                strictly_inside cwd sourceRoot src /\ strictly_inside cwd targetRoot dest
            end) writes
  /\ (apart cwd sourceRoot targetRoot ->
      Forall (fun w => forall p, In p (written w) -> ~ inside cwd sourceRoot p) writes).
Proof.
  intros Hc Hp Hroot Hklaw writes.
  set (Src := directory_in cwd sourceRoot). set (Tgt := directory_in cwd targetRoot).
  set (Mk := inside cwd targetRoot).
  assert (Hrun : Forall (call_in Src Tgt Mk)
                   (snd (syncAndResolve cwd sourceRoot targetRoot collisionPostfix
                           rootInput klaw))).
  { unfold syncAndResolve.
    destruct (syncNames_in Src Tgt Mk cwd sourceRoot targetRoot areSyncable rootInput klaw)
      as [Hcol Hlog].
    - now apply directory_in_join_empty.
    - now apply directory_in_join_empty.
    - now left.
    - exact Hroot.
    - eapply Forall_impl; [|exact Hklaw]. intros k [(r & Hr & Hk) Hv]. cbn zeta.
      rewrite (relative_below cwd sourceRoot (fst k) r Hc Hr Hk).
      split; [now apply directory_in_join|].
      split; [now apply directory_in_join|].
      split; [right; exists r; split; [exact Hr | now apply resolve_join] | exact Hv].
    - destruct (syncNames cwd sourceRoot targetRoot areSyncable rootInput klaw) as [r log].
      cbn [fst snd] in *. apply Forall_app. split; [exact Hlog|].
      destruct (negb _); [|constructor].
      apply resolveCollisions_in; [exact Hp | | exact Hcol].
      intros d Hd. now apply directory_in_mirror. }
  assert (Hw : Forall (write_in Src Tgt Mk) writes).
  { apply fs_writes_in; [now intros d [H _] | now intros d [H _] | exact Hrun]. }
  assert (Hin : Forall (fun w =>
            match w with
            | FsMkdir p => inside cwd targetRoot p
            | FsRename oldPath newPath =>
                strictly_inside cwd targetRoot oldPath
                /\ strictly_inside cwd targetRoot newPath
            | FsCopyFile src dest =>
                strictly_inside cwd sourceRoot src /\ strictly_inside cwd targetRoot dest
            end) writes).
  { eapply Forall_impl; [|exact Hw]. intros [p|o n|s t]; cbn [write_in].
    - exact (fun H => H).
    - intros (d & Hd & Ho & Hn). split; now apply (child_below cwd targetRoot d).
    - intros [(ds & Hds & Hs) (dt & Hdt & Ht)].
      split; [now apply (child_below cwd sourceRoot ds) | now apply (child_below cwd targetRoot dt)]. }
  split; [exact Hin|]. intros Hapart.
  eapply Forall_impl; [|exact Hin]. intros [q|o n|s t]; cbn [written].
  - intros H p [<- | []]. now apply (apart_below cwd sourceRoot targetRoot).
  - intros [Ho Hn] p [<- | [<- | []]];
      apply (apart_below cwd sourceRoot targetRoot); auto; now right.
  - intros [_ Ht] p [<- | []]. apply (apart_below cwd sourceRoot targetRoot); auto. now right.
Qed.

Lemma writes_stay_in_target_tree_witness :
  let writes :=
    fs_writes
      (snd (syncAndResolve (js "/work") (js "src") (js "tgt") (js "dup")
              (mkDirInput [mkDirent (js "Report_2024.doc") true; mkDirent (js "ab.txt") true;
                           mkDirent (js "sub") false]
                 true [mkDirent (js "Report.doc") true; mkDirent (js "a.txt") true;
                       mkDirent (js "ab_.txt") true])
              [(js "/work/src/sub",
                mkDirInput [mkDirent (js "NewFile.txt") true] false [])])) in
  (Forall (fun w =>
             match w with
             | FsMkdir p => inside (js "/work") (js "tgt") p
             | FsRename oldPath newPath =>
                 strictly_inside (js "/work") (js "tgt") oldPath
                 /\ strictly_inside (js "/work") (js "tgt") newPath
             | FsCopyFile src dest =>
                 strictly_inside (js "/work") (js "src") src
                 /\ strictly_inside (js "/work") (js "tgt") dest
             end) writes
   /\ Forall (fun w => forall p, In p (written w) -> ~ inside (js "/work") (js "src") p)
        writes)
  /\ writes
     = [FsRename (js "tgt/Report.doc") (js "tgt/Report_2024.doc");
        FsMkdir (js "tgt/sub");
        FsCopyFile (js "src/sub/NewFile.txt") (js "tgt/sub/NewFile.txt");
        FsRename (js "tgt/ab_.txt") (js "tgt/ab dup.txt")].
Proof.
  cbv zeta. split; [|vm_compute; reflexivity].
  destruct (writes_stay_in_target_tree (js "/work") (js "src") (js "tgt") (js "dup")
              (mkDirInput [mkDirent (js "Report_2024.doc") true; mkDirent (js "ab.txt") true;
                           mkDirent (js "sub") false]
                 true [mkDirent (js "Report.doc") true; mkDirent (js "a.txt") true;
                       mkDirent (js "ab_.txt") true])
              [(js "/work/src/sub",
                mkDirInput [mkDirent (js "NewFile.txt") true] false [])])
    as [H1 H2].
  - reflexivity.
  - reflexivity.
  - repeat split; repeat constructor.
  - constructor; [|constructor]. split.
    + exists (js "sub"). split; vm_compute; reflexivity.
    + repeat split; repeat constructor.
  - split; [exact H1|]. apply H2.
    split; intros [H | (r & _ & H)]; vm_compute in H; discriminate H.
Defined.

(** C9, as the specification words it, fails in three ways.  With the
    target root below the source root, the run writes below the source
    root.  With the source file [...], whose stem is [..], the rename goes
    to [tgt/..], the directory above the target root.  With a postfix that
    holds slashes, the rename of the resolver leaves the target root. *)
Lemma source_tree_written :
  (fs_writes
     (snd (syncAndResolve (js "/work") (js "d") (js "d/sub") (js "dup")
             (mkDirInput [mkDirent (js "a.txt") true] false [])
             [(js "/work/d/sub", mkDirInput [mkDirent (js "a.txt") true] false [])]))
   = [FsMkdir (js "d/sub"); FsCopyFile (js "d/a.txt") (js "d/sub/a.txt");
      FsMkdir (js "d/sub/sub"); FsCopyFile (js "d/sub/a.txt") (js "d/sub/sub/a.txt")]
   /\ strictly_inside (js "/work") (js "d") (js "d/sub/a.txt"))
  /\ (fs_writes
        (snd (syncAndResolve (js "/work") (js "src") (js "tgt") (js "dup")
                (mkDirInput [mkDirent (js "...") true] true [mkDirent (js "_") true]) []))
      = [FsRename (js "tgt/_") (js "tgt/..")]
      /\ resolve (js "/work") [js "tgt/.."] = js "/work"
      /\ ~ inside (js "/work") (js "tgt") (js "tgt/.."))
  /\ (fs_writes
        (snd (syncAndResolve (js "/work") (js "src") (js "tgt") (js "/../../x")
                (mkDirInput [mkDirent (js "ab.txt") true] true
                   [mkDirent (js "a.txt") true; mkDirent (js "ab_.txt") true]) []))
      = [FsRename (js "tgt/ab_.txt") (js "tgt/ab /../../x.txt")]
      /\ resolve (js "/work") [js "tgt/ab /../../x.txt"] = js "/work/x.txt"
      /\ ~ inside (js "/work") (js "tgt") (js "tgt/ab /../../x.txt")).
Proof.
  split; [|split].
  - split; [vm_compute; reflexivity|].
    exists (js "sub/a.txt"). split; vm_compute; reflexivity.
  - split; [vm_compute; reflexivity|]. split; [vm_compute; reflexivity|].
    intros [H | (r & _ & H)]; vm_compute in H; discriminate H.
  - split; [vm_compute; reflexivity|]. split; [vm_compute; reflexivity|].
    intros [H | (r & _ & H)]; vm_compute in H; discriminate H.
Qed.
